(** * knvectis: the containment hierarchy, its retention policy, its two
    hashes and the breadth-first traverser, with the walkers, the index of a
    net, the lifecycle of a matrix, the identifiers, the vectors and the
    matching contexts

    A shallow embedding of [knvectis/_base.py], [knvectis/_objects.py],
    [knvectis/_states.py] and [knvectis/_engine.py].

    Python objects live in a store addressed by their identity; an
    operation returns the store it leaves behind together with either its
    value or the exception it raised, because a raise does not undo the
    assignments made before it. *)

From Stdlib Require Import ZArith Ascii DecimalString.
From stdpp Require Import gmap strings list relations sorting.

#[local] Set Warnings "-clear-no-such-hyp".

Local Open Scope Z_scope.

(** ** SHA-1 ([hashlib.sha1(...).hexdigest()]) *)

Module Sha1.

Definition mask32 (x : Z) : Z := Z.land x 4294967295.

Definition add32 (a b : Z) : Z := mask32 (a + b).

Definition not32 (a : Z) : Z := Z.lxor a 4294967295.

Definition rotl (n x : Z) : Z :=
  mask32 (Z.lor (Z.shiftl x n) (Z.shiftr x (32 - n))).

Definition bytes_of_string (s : string) : list Z :=
  map (fun c => Z.of_N (N_of_ascii c)) (String.list_ascii_of_string s).

(** Big-endian bytes of [x], [n] of them. *)
Fixpoint be_bytes (n : nat) (x : Z) : list Z :=
  match n with
  | O => []
  | S n' => be_bytes n' (Z.shiftr x 8) ++ [Z.land x 255]
  end.

Definition pad (msg : list Z) : list Z :=
  let len := Z.of_nat (length msg) in
  msg ++ [128] ++ replicate (Z.to_nat ((55 - len) mod 64)) 0
      ++ be_bytes 8 (8 * len).

Definition word_of_bytes (bs : list Z) : Z :=
  fold_left (fun acc b => Z.lor (Z.shiftl acc 8) b) bs 0.

(** [chunks fuel k l] cuts [l] into pieces of [k] elements. *)
Fixpoint chunks {A} (fuel k : nat) (l : list A) : list (list A) :=
  match fuel with
  | O => []
  | S fuel' =>
      match l with
      | [] => []
      | _ => take k l :: chunks fuel' k (drop k l)
      end
  end.

Definition words_of_block (block : list Z) : list Z :=
  map word_of_bytes (chunks 16 4 block).

(** The message schedule, newest word first. *)
Fixpoint schedule (n : nat) (rw : list Z) : list Z :=
  match n with
  | O => rw
  | S n' =>
      let x := Z.lxor (Z.lxor (nth 2 rw 0) (nth 7 rw 0))
                      (Z.lxor (nth 13 rw 0) (nth 15 rw 0)) in
      schedule n' (rotl 1 x :: rw)
  end.

Definition round_f (t : nat) (b c d : Z) : Z :=
  if (t <? 20)%nat then Z.lor (Z.land b c) (Z.land (not32 b) d)
  else if (t <? 40)%nat then Z.lxor (Z.lxor b c) d
  else if (t <? 60)%nat
       then Z.lor (Z.lor (Z.land b c) (Z.land b d)) (Z.land c d)
  else Z.lxor (Z.lxor b c) d.

Definition round_k (t : nat) : Z :=
  if (t <? 20)%nat then 1518500249
  else if (t <? 40)%nat then 1859775393
  else if (t <? 60)%nat then 2400959708
  else 3395469782.

Record regs := Regs { ra : Z; rb : Z; rc : Z; rd : Z; re : Z }.

Definition round (r : regs) (tw : nat * Z) : regs :=
  let '(t, w) := tw in
  let tmp :=
    add32 (add32 (add32 (add32 (rotl 5 (ra r)) (round_f t (rb r) (rc r) (rd r)))
                        (re r)) (round_k t)) w in
  Regs tmp (ra r) (rotl 30 (rb r)) (rc r) (rd r).

Definition compress (h : regs) (block : list Z) : regs :=
  let w := rev (schedule 64 (rev (words_of_block block))) in
  let r := fold_left round (combine (seq 0 80) w) h in
  Regs (add32 (ra h) (ra r)) (add32 (rb h) (rb r)) (add32 (rc h) (rc r))
       (add32 (rd h) (rd r)) (add32 (re h) (re r)).

Definition init : regs :=
  Regs 1732584193 4023233417 2562383102 271733878 3285377520.

Definition hex_digit (d : Z) : ascii :=
  if d <? 10 then ascii_of_N (Z.to_N (48 + d))
  else ascii_of_N (Z.to_N (87 + d)).

Fixpoint hex_of (n : nat) (x : Z) : list ascii :=
  match n with
  | O => []
  | S n' => hex_of n' (Z.shiftr x 4) ++ [hex_digit (Z.land x 15)]
  end.

Definition hexdigest (s : string) : string :=
  let padded := pad (bytes_of_string s) in
  let r := fold_left compress (chunks (length padded) 64 padded) init in
  String.string_of_list_ascii
    (hex_of 8 (ra r) ++ hex_of 8 (rb r) ++ hex_of 8 (rc r)
     ++ hex_of 8 (rd r) ++ hex_of 8 (re r)).

End Sha1.

(** ** Python text: [str], [repr] of a [str], lists of [str] in an f-string

    Text is ASCII; a byte above 127 stands for itself. *)

Module Py.

(** What a [data] field holds ([Any] in the source): [None], a [str] or
    an [int]. *)
Inductive value :=
| VNone
| VStr (s : string)
| VInt (z : Z).

Definition str_of_Z (z : Z) : string := NilZero.string_of_int (Z.to_int z).

Definition str_of_nat (n : nat) : string := str_of_Z (Z.of_nat n).

(** [str(v)], which is what [f"{v}"] interpolates. *)
Definition str (v : value) : string :=
  match v with
  | VNone => "None"
  | VStr s => s
  | VInt z => str_of_Z z
  end.

Definition squote : ascii := "'"%char.
Definition dquote : ascii := "034"%char.
Definition backslash : ascii := "\"%char.

Definition has_char (c : ascii) (s : string) : bool :=
  existsb (Ascii.eqb c) (String.list_ascii_of_string s).

(** [repr] uses single quotes, unless the text has a single quote and no
    double quote. *)
Definition quote_for (s : string) : ascii :=
  if has_char squote s && negb (has_char dquote s) then dquote else squote.

Definition escape (q c : ascii) : list ascii :=
  let n := N_of_ascii c in
  if Ascii.eqb c q || Ascii.eqb c backslash then [backslash; c]
  else if (n =? 9)%N then [backslash; "t"%char]
  else if (n =? 10)%N then [backslash; "n"%char]
  else if (n =? 13)%N then [backslash; "r"%char]
  else if (n <? 32)%N || (n =? 127)%N
       then [backslash; "x"%char] ++ Sha1.hex_of 2 (Z.of_N n)
  else [c].

Definition repr_str (s : string) : string :=
  let q := quote_for s in
  String.string_of_list_ascii
    ([q] ++ concat (map (escape q) (String.list_ascii_of_string s)) ++ [q]).

Fixpoint join (sep : string) (l : list string) : string :=
  match l with
  | [] => EmptyString
  | [x] => x
  | x :: rest => x +:+ sep +:+ join sep rest
  end.

(** [str] of a list of [str]: [['a', 'b']]. *)
Definition str_list (l : list string) : string :=
  "[" +:+ join ", " (map repr_str l) +:+ "]".

End Py.

(** ** The data model ([_base.py], [_objects.py], [_states.py]) *)

(** The concrete classes below [KObject]. *)
Inductive kclass := Leaf | Branch | Tree | Node | Net | Layer | Matrix.

Global Instance kclass_eq_dec : EqDecision kclass.
Proof. solve_decision. Defined.

(** [type(self).__name__] *)
Definition kind (k : kclass) : string :=
  match k with
  | Leaf => "Leaf" | Branch => "Branch" | Tree => "Tree" | Node => "Node"
  | Net => "Net" | Layer => "Layer" | Matrix => "Matrix"
  end.

(** The [allowed_children] property of each class. *)
Definition allowed_children (k : kclass) : list kclass :=
  match k with
  | Leaf => [Leaf]
  | Branch => [Leaf]
  | Tree => [Branch]
  | Node => [Tree]
  | Net => [Node]
  | Layer => [Net]
  | Matrix => [Layer]
  end.

(** No class derives from another concrete class, so [isinstance] against a
    tuple of classes is membership of the object's own class. *)
Definition isinstance (k : kclass) (classes : list kclass) : bool :=
  bool_decide (k ∈ classes).

Inductive PruneFrom := FORWARD | BACKWARD.
Inductive PruneType := DISCARD | DESTROY.
Inductive NotifyMode := RAISE | CALL | SUPPRESS.

(** An object is named by its identity ([id(obj)], [is]). *)
Abbreviation addr := positive.

(** [KRetentionPolicy].  A callback is an opaque collaborator: it is named,
    and calling it is recorded in the store's [calls]. *)
Record KRetentionPolicy := mkPolicy {
  max_size : Z;
  prune_from : PruneFrom;
  prune_type : PruneType;
  notify : NotifyMode;
  callback : option string;
  retained : list addr
}.

(** One record for the dataclass fields of all seven classes.  [children]
    is [metadata["children"]], [None] while the key is absent; [retention]
    names the policy object; [data], [name], [index] and [active] keep their
    defaults in the classes that do not declare them. *)
Record KObject := mkObject {
  cls : kclass;
  obj_id : string;
  parent : option addr;
  children : option (list addr);
  data : Py.value;
  name : string;
  retention : option addr;
  index : gmap string addr;
  active : bool
}.

Record store := mkStore {
  objects : gmap addr KObject;
  policies : gmap addr KRetentionPolicy;
  calls : list (string * list addr)
}.

Definition with_parent (p : option addr) (o : KObject) : KObject :=
  mkObject (cls o) (obj_id o) p (children o) (data o) (name o)
           (retention o) (index o) (active o).

Definition with_children (c : option (list addr)) (o : KObject) : KObject :=
  mkObject (cls o) (obj_id o) (parent o) c (data o) (name o)
           (retention o) (index o) (active o).

Definition with_index (i : gmap string addr) (o : KObject) : KObject :=
  mkObject (cls o) (obj_id o) (parent o) (children o) (data o) (name o)
           (retention o) i (active o).

Definition with_retained (r : list addr) (p : KRetentionPolicy)
  : KRetentionPolicy :=
  mkPolicy (max_size p) (prune_from p) (prune_type p) (notify p)
           (callback p) r.

Definition with_objects (m : gmap addr KObject) (st : store) : store :=
  mkStore m (policies st) (calls st).

Definition with_policies (m : gmap addr KRetentionPolicy) (st : store)
  : store :=
  mkStore (objects st) m (calls st).

(** [metadata.setdefault("children", [])] and [children.append(x)] on the
    list held in [metadata]. *)
Definition setdefault_children (o : KObject) : KObject :=
  with_children (Some (default [] (children o))) o.

Definition append_child (x : addr) (o : KObject) : KObject :=
  with_children (Some (default [] (children o) ++ [x])) o.

(** Reading through the store. *)
Definition class_of (st : store) (a : addr) : option kclass :=
  cls <$> objects st !! a.

Definition parent_of (st : store) (a : addr) : option addr :=
  objects st !! a ≫= parent.

(** [obj.metadata.get("children", [])] *)
Definition children_of (st : store) (a : addr) : list addr :=
  default [] (objects st !! a ≫= children).

(** ** Operations: a store and exception monad *)

Inductive exn :=
| TypeError (msg : string)
| ValueError (msg : string)
| AttributeError (msg : string).

(** [Stuck]: an address that names no object of the store.  A Python
    reference keeps its object alive, so no run of the program gets there. *)
Inductive outcome (A : Type) :=
| Return (a : A)
| Raise (e : exn)
| Stuck.
Arguments Return {A} a.
Arguments Raise {A} e.
Arguments Stuck {A}.

Definition M (A : Type) : Type := store -> store * outcome A.

Definition ret {A} (a : A) : M A := fun st => (st, Return a).

Definition raise {A} (e : exn) : M A := fun st => (st, Raise e).

Definition bind {A B} (m : M A) (k : A -> M B) : M B :=
  fun st =>
    match m st with
    | (st', Return a) => k a st'
    | (st', Raise e) => (st', Raise e)
    | (st', Stuck) => (st', Stuck)
    end.

Global Instance M_ret : MRet M := @ret.
Global Instance M_bind : MBind M := fun A B k m => bind m k.

Definition get_store : M store := fun st => (st, Return st).

Definition get_obj (a : addr) : M KObject :=
  fun st =>
    match objects st !! a with
    | Some o => (st, Return o)
    | None => (st, Stuck)
    end.

Definition update_obj (a : addr) (f : KObject -> KObject) : M unit :=
  fun st =>
    match objects st !! a with
    | Some o => (with_objects (<[a := f o]> (objects st)) st, Return tt)
    | None => (st, Stuck)
    end.

(** The store [update_obj] leaves. *)
Definition upd (a : addr) (f : KObject -> KObject) (st : store) : store :=
  (update_obj a f st).1.

Definition get_policy (p : addr) : M KRetentionPolicy :=
  fun st =>
    match policies st !! p with
    | Some pol => (st, Return pol)
    | None => (st, Stuck)
    end.

Definition update_policy (p : addr) (f : KRetentionPolicy -> KRetentionPolicy)
  : M unit :=
  fun st =>
    match policies st !! p with
    | Some pol => (with_policies (<[p := f pol]> (policies st)) st, Return tt)
    | None => (st, Stuck)
    end.

(** [self.callback(victims)] *)
Definition call_callback (cb : string) (victims : list addr) : M unit :=
  fun st =>
    (mkStore (objects st) (policies st) (calls st ++ [(cb, victims)]),
     Return tt).

(** *** Python list slices [l[i:]] and [l[:i]] *)

Definition slice_index (len : nat) (i : Z) : nat :=
  let j := if i <? 0 then i + Z.of_nat len else i in
  Z.to_nat (Z.min (Z.of_nat len) (Z.max 0 j)).

Definition slice_from {A} (i : Z) (l : list A) : list A :=
  drop (slice_index (length l) i) l.

Definition slice_to {A} (i : Z) (l : list A) : list A :=
  take (slice_index (length l) i) l.

(** *** [KRetentionPolicy] *)

(** What [apply] is handed: an object, or (as two callers do) a list. *)
Inductive apply_arg :=
| ArgObject (a : addr)
| ArgList (l : list addr).

Definition removed_message (n : nat) : string :=
  "Retention policy: removed " +:+ Py.str_of_nat n +:+ " objects".

Definition _notify (p : addr) (victims : list addr) : M unit :=
  pol ← get_policy p;
  match notify pol with
  | RAISE => raise (ValueError (removed_message (length victims)))
  | CALL =>
      match callback pol with
      | Some cb => call_callback cb victims
      | None => ret tt
      end
  | SUPPRESS => ret tt
  end.

Definition split_children (pf : PruneFrom) (overflow : Z) (l : list addr)
  : list addr * list addr :=
  match pf with
  | FORWARD => (slice_from (- overflow) l, slice_to (- overflow) l)
  | BACKWARD => (slice_to overflow l, slice_from overflow l)
  end.

(** What [container.metadata] raises when [container] is a list. *)
Definition list_has_no_metadata : exn :=
  AttributeError "'list' object has no attribute 'metadata'".

Definition apply (p : addr) (container : apply_arg) : M unit :=
  match container with
  | ArgList _ => raise list_has_no_metadata
  | ArgObject c =>
      o ← get_obj c;
      pol ← get_policy p;
      let l := default [] (children o) in
      let overflow := Z.of_nat (length l) - max_size pol in
      if overflow <=? 0 then ret tt
      else
        let '(victims, survivors) := split_children (prune_from pol) overflow l in
        (match prune_type pol with
         | DISCARD => update_policy p (fun q => with_retained (retained q ++ victims) q)
         | DESTROY => ret tt
         end);;
        update_obj c (with_children (Some survivors));;
        _notify p victims
  end.

(** *** The two hashes ([hash] and [shash] of each class) *)

(** [sha1 = lambda x: hashlib.sha1(str(x).encode()).hexdigest()] *)
Definition sha1 (s : string) : string := Sha1.hexdigest s.

(** [self.parent.id if self.parent else None] *)
Definition parent_id (st : store) (o : KObject) : option Py.value :=
  match parent o with
  | None => Some Py.VNone
  | Some p => (fun po => Py.VStr (obj_id po)) <$> objects st !! p
  end.

(** [[c.id for c in l]] *)
Definition ids_of (st : store) (l : list addr) : option (list string) :=
  mapM (fun a => obj_id <$> objects st !! a) l.

(** [Matrix.layers]: the children that are instances of [Layer]. *)
Definition layers (st : store) (o : KObject) : list addr :=
  filter (fun c => class_of st c = Some Layer) (default [] (children o)).

(** The text each class's [hash] property digests; [None] only when a
    child or the parent names no object of the store. *)
Definition hash_input (st : store) (a : addr) : option string :=
  o ← objects st !! a;
  match cls o with
  | Leaf =>
      pid ← parent_id st o;
      Some (Py.str (data o) +:+ "|" +:+ Py.str pid)
  | Branch | Tree | Node =>
      children_ids ← ids_of st (default [] (children o));
      pid ← parent_id st o;
      Some (Py.str (data o) +:+ "|" +:+ Py.str_list children_ids
            +:+ "|" +:+ Py.str pid)
  | Net =>
      ids ← ids_of st (default [] (children o));
      Some (Py.str_list ids)
  | Layer =>
      net_ids ← ids_of st (default [] (children o));
      Some (name o +:+ "|" +:+ Py.str_list net_ids)
  | Matrix =>
      layer_ids ← ids_of st (layers st o);
      Some (name o +:+ "|" +:+ Py.str_list layer_ids)
  end.

(** The structural hash. *)
Definition hash (st : store) (a : addr) : option string :=
  sha1 <$> hash_input st a.

(** The semantic hash; [Net.shash] returns [self.hash]. *)
Definition shash (st : store) (a : addr) : option string :=
  o ← objects st !! a;
  match cls o with
  | Leaf | Tree | Node => Some (sha1 (Py.str (data o)))
  | Branch => Some (sha1 (Py.str (data o) +:+ "|" +:+ obj_id o))
  | Net => hash st a
  | Layer | Matrix => Some (sha1 (name o))
  end.

(** [KObject.__eq__]: equality of the structural hashes. *)
Definition KObject_eq (st : store) (a b : addr) : bool :=
  bool_decide (hash st a = hash st b).

(** *** Composition ([KObject.__add__], [__sub__], [__mul__],
    [__truediv__] and the overrides of [__add__]) *)

(** Attribute lookup on an instance: the methods and properties of its class
    body, those of [KObject], and its dataclass fields.  A name that is in
    none of them, and that plain Python objects do not have either, does
    not resolve. *)
Definition class_attributes (k : kclass) : list string :=
  match k with
  | Leaf => ["__repr__"; "hash"; "shash"; "allowed_children"]
  | Branch =>
      ["add_leaf"; "walk_leaves"; "__repr__"; "__add__"; "hash"; "shash";
       "leaves"; "allowed_children"]
  | Tree =>
      ["walk_branches"; "walk_leaves"; "walk"; "add_branch"; "branches";
       "__repr__"; "__add__"; "hash"; "shash"; "allowed_children"]
  | Node =>
      ["add_tree"; "walk_trees"; "walk_branches"; "__add__"; "trees";
       "__repr__"; "hash"; "shash"; "allowed_children"]
  | Net =>
      ["register"; "unregister"; "get"; "add_node"; "walk_nodes"; "walk_all";
       "find"; "__repr__"; "children"; "hash"; "shash"; "allowed_children"]
  | Layer =>
      ["__add__"; "add_net"; "create_net"; "walk_nets"; "on_load";
       "on_unload"; "__repr__"; "children"; "hash"; "shash";
       "allowed_children"]
  | Matrix =>
      ["__add__"; "add_layer"; "create_layer"; "walk_layers"; "layers";
       "start"; "stop"; "children"; "hash"; "shash"; "__repr__";
       "allowed_children"]
  end.

Definition KObject_attributes : list string :=
  ["allowed_children"; "__repr__"; "__eq__"; "__ne__"; "__lt__"; "__le__";
   "__gt__"; "__ge__"; "__add__"; "__sub__"; "__mul__"; "__truediv__";
   "__enter__"; "__exit__"; "__iter__"; "kind"; "path"; "root"; "on_load";
   "on_unload"; "hash"; "shash"].

Definition field_names (k : kclass) : list string :=
  match k with
  | Leaf => ["id"; "parent"; "metadata"; "data"]
  | Branch | Tree | Node => ["id"; "parent"; "metadata"; "data"; "retention"]
  | Net => ["id"; "parent"; "metadata"; "index"; "retention"]
  | Layer => ["id"; "parent"; "metadata"; "name"; "storage"; "retention"]
  | Matrix =>
      ["id"; "parent"; "metadata"; "name"; "retention"; "storage"; "active"]
  end.

Definition has_attribute (k : kclass) (attr : string) : bool :=
  bool_decide
    (attr ∈ class_attributes k ++ KObject_attributes ++ field_names k).

Definition no_attribute_message (k : kclass) (attr : string) : string :=
  "'" +:+ kind k +:+ "' object has no attribute '" +:+ attr +:+ "'".

(** Looking a method up on an object; the call itself is the caller's. *)
Definition get_method (self : addr) (attr : string) : M unit :=
  s ← get_obj self;
  if has_attribute (cls s) attr then ret tt
  else raise (AttributeError (no_attribute_message (cls s) attr)).

Section Composition.

(** [obj_eq st a b] is [a == b] for two objects in [st].  [KObject.__eq__]
    compares structural hashes ([KObject_eq]); every concrete class is
    decorated with [@dataclass] again, which installs a field-by-field
    [__eq__] of its own that starts with the [id] field.  The operations
    are written once for whichever equality is in force. *)
Variable obj_eq : store -> addr -> addr -> bool.

(** [x in l]: some element is [x] itself or equal to it. *)
Definition py_in (st : store) (x : addr) (l : list addr) : bool :=
  existsb (fun e => bool_decide (e = x) || obj_eq st e x) l.

(** [l.remove(x)]: without the first such element; [None] when there is
    none ([ValueError]). *)
Fixpoint py_remove (st : store) (x : addr) (l : list addr)
  : option (list addr) :=
  match l with
  | [] => None
  | e :: rest =>
      if bool_decide (e = x) || obj_eq st e x then Some rest
      else (e ::.) <$> py_remove st x rest
  end.

Definition KObject_add (self other : addr) : M addr :=
  s ← get_obj self;
  o ← get_obj other;
  if bool_decide (allowed_children (cls s) ≠ [])
     && negb (isinstance (cls o) (allowed_children (cls s)))
  then raise (TypeError (kind (cls s) +:+ " cannot have child of type "
                         +:+ kind (cls o)))
  else
    (* children = self.metadata.setdefault("children", []) *)
    update_obj self setdefault_children;;
    st ← get_store;
    (if negb (py_in st other (children_of st self))
     then
       update_obj other (with_parent (Some self));;
       update_obj self (append_child other)
     else ret tt);;
    ret other.

Definition KObject_sub (self other : addr) : M addr :=
  o ← get_obj other;
  (if bool_decide (parent o = Some self)
   then
     update_obj other (with_parent None);;
     st ← get_store;
     match py_remove st other (children_of st self) with
     | Some rest => update_obj self (with_children (Some rest))
     | None => raise (ValueError "list.remove(x): x not in list")
     end
   else ret tt);;
  ret other.

(** [[self.clone() for _ in range(n)]]: no class defines [clone], so for
    [n > 0] the lookup raises and the list after it is never built. *)
Definition KObject_mul (self : addr) (n : Z) : M (list addr) :=
  if n <=? 0 then ret []
  else get_method self "clone";; ret [].

(** [self.partition(parts)]: no class defines [partition], so the lookup
    raises and the groups after it are never built. *)
Definition KObject_truediv (self : addr) (parts : Z) : M (list (list addr)) :=
  if parts <=? 0 then raise (ValueError "parts must be > 0")
  else get_method self "partition";; ret [].

(** [if self.retention: self.retention.apply(...)], with what the override
    hands to [apply]. *)
Definition apply_retention (self : addr) (arg : KObject -> apply_arg)
  : M unit :=
  s ← get_obj self;
  match retention s with
  | Some p => apply p (arg s)
  | None => ret tt
  end.

Definition Branch_add (self other : addr) : M addr :=
  result ← KObject_add self other;
  apply_retention self (fun _ => ArgObject self);;
  ret result.

Definition Tree_add (self other : addr) : M addr :=
  result ← KObject_add self other;
  apply_retention self (fun _ => ArgObject self);;
  ret result.

Definition Node_add (self other : addr) : M addr :=
  result ← KObject_add self other;
  apply_retention self (fun _ => ArgObject self);;
  ret result.

Definition Layer_add (self other : addr) : M addr :=
  result ← KObject_add self other;
  apply_retention self (fun _ => ArgObject self);;
  ret result.

(** [self.retention.apply(self.children)] *)
Definition Matrix_add (self other : addr) : M addr :=
  result ← KObject_add self other;
  apply_retention self (fun s => ArgList (default [] (children s)));;
  ret result.

(** [self + other]: the [__add__] of the class of [self]; [Leaf] and
    [Net] inherit [KObject]'s. *)
Definition add (self other : addr) : M addr :=
  s ← get_obj self;
  match cls s with
  | Leaf | Net => KObject_add self other
  | Branch => Branch_add self other
  | Tree => Tree_add self other
  | Node => Node_add self other
  | Layer => Layer_add self other
  | Matrix => Matrix_add self other
  end.

(** A fresh dataclass instance: no parent, empty [metadata]. *)
Definition new_object (k : kclass) (i : string) (d : Py.value) : KObject :=
  mkObject k i None None d EmptyString None ∅ false.

Definition alloc (o : KObject) : M addr :=
  fun st =>
    let a := fresh (dom (objects st)) in
    (with_objects (<[a := o]> (objects st)) st, Return a).

(** [Net.add_node]; [new_id] is the token [gen_id()] hands the new
    [Node]. *)
Definition Net_add_node (self : addr) (new_id : string)
    (node_data : Py.value) : M addr :=
  node ← alloc (new_object Node new_id node_data);
  add self node;;
  (* self.register(node) *)
  update_obj self (fun s => with_index (<[new_id := node]> (index s)) s);;
  apply_retention self (fun s => ArgList (default [] (children s)));;
  ret node.

End Composition.

(** ** Closed forms and predicates used in the statements *)

(** The store [KObject.__add__] leaves when it appends [x] to [c]. *)
Definition appended (c x : addr) (st : store) : store :=
  upd c (append_child x) (upd x (with_parent (Some c))
                              (upd c setdefault_children st)).

(** The store after [other.parent = None]. *)
Definition detached (x : addr) (st : store) : store :=
  upd x (with_parent None) st.

(** The store after [self.retained.extend(victims)]. *)
Definition retain (p : addr) (victims : list addr) (st : store) : store :=
  (update_policy p (fun q => with_retained (retained q ++ victims) q) st).1.

Definition called (cb : string) (victims : list addr) (st : store) : store :=
  (call_callback cb victims st).1.

(** [apply] on an object whose children are [l], in closed form. *)
Definition applied (p c : addr) (pol : KRetentionPolicy) (l : list addr)
    (st : store) : store * outcome unit :=
  let overflow := Z.of_nat (length l) - max_size pol in
  if overflow <=? 0 then (st, Return tt)
  else
    let victims := (split_children (prune_from pol) overflow l).1 in
    let survivors := (split_children (prune_from pol) overflow l).2 in
    let st1 := match prune_type pol with
               | DISCARD => retain p victims st
               | DESTROY => st
               end in
    let st2 := upd c (with_children (Some survivors)) st1 in
    match notify pol with
    | RAISE => (st2, Raise (ValueError (removed_message (length victims))))
    | CALL =>
        match callback pol with
        | Some cb => (called cb victims st2, Return tt)
        | None => (st2, Return tt)
        end
    | SUPPRESS => (st2, Return tt)
    end.

(** The containment invariant, with the parent compared by identity: a
    node's parent is the container exactly when the node is among the
    container's children, and no children sequence repeats a node. *)
Record containment (st : store) : Prop := {
  parent_iff_member :
    forall c x, parent_of st x = Some c <-> x ∈ children_of st c;
  children_nodup : forall c, NoDup (children_of st c)
}.

(** The same, decided object by object. *)
Definition containment_check (st : store) : bool :=
  forallb
    (fun '(a, o) =>
       bool_decide (NoDup (default [] (children o)))
       && forallb (fun x => bool_decide (parent_of st x = Some a))
                  (default [] (children o))
       && match parent o with
          | Some c => bool_decide (a ∈ children_of st c)
          | None => true
          end)
    (map_to_list (objects st)).

(** A field update that keeps class, id, data, name and policy. *)
Definition same_identity (f : KObject -> KObject) : Prop :=
  forall o, cls (f o) = cls o /\ obj_id (f o) = obj_id o /\ data (f o) = data o
            /\ name (f o) = name o /\ retention (f o) = retention o.

Definition identity_of (o : KObject) :=
  (cls o, obj_id o, data o, name o, retention o).

(** [agree st1 st2]: the same objects, with the same class, id, data, name
    and policy. *)
Definition agree (st1 st2 : store) : Prop :=
  forall b, identity_of <$> objects st2 !! b = identity_of <$> objects st1 !! b.

(** [frame c x st st']: from [st] to [st'] the stores agree, only [x] may
    have changed parent and only [c] may have changed children. *)
Definition frame (c x : addr) (st st' : store) : Prop :=
  agree st st'
  /\ (forall b, b ≠ x -> parent_of st' b = parent_of st b)
  /\ (forall d, d ≠ c -> children_of st' d = children_of st d).

(** The children whose ids a hash lists, and the text before and after
    that list. *)
Definition hashed_children (st : store) (o : KObject) : list addr :=
  match cls o with
  | Matrix => layers st o
  | _ => default [] (children o)
  end.

Definition hash_prefix (o : KObject) : string :=
  match cls o with
  | Branch | Tree | Node => Py.str (data o) +:+ "|"
  | Layer | Matrix => name o +:+ "|"
  | Leaf | Net => EmptyString
  end.

Definition hash_suffix (st : store) (o : KObject) : option string :=
  match cls o with
  | Branch | Tree | Node => (fun pid => "|" +:+ Py.str pid) <$> parent_id st o
  | _ => Some EmptyString
  end.

(** The text of [self.parent.id if self.parent else None]. *)
Definition parent_text (st : store) (a : addr) : option string :=
  o ← objects st !! a; Py.str <$> parent_id st o.

(** The two texts are not a collision of SHA-1. *)
Definition no_collision (a b : option string) : Prop :=
  sha1 <$> a = sha1 <$> b -> a = b.

(** ** The traverser ([KTraverser] in [_engine.py]) *)

(** The three resolvers handed to [__init__].  A resolver of related nodes
    may return [None]. *)
Record KTraverser (V : Type) := mkTraverser {
  children_resolver : option (V -> option (list V));
  parent_resolver : option (V -> option V);
  transversal_resolver : option (V -> option (list V))
}.
Arguments mkTraverser {V} _ _ _.
Arguments children_resolver {V} _.
Arguments parent_resolver {V} _.
Arguments transversal_resolver {V} _.

(** The state of the [while queue:] loop: the [visited] set of identities,
    the queue of (node, path) pairs and what has been yielded so far. *)
Record loop (V : Type) `{Countable V} := Loop {
  visited : gset V;
  queue : list (V * list V);
  yielded : list (V * list V)
}.
Arguments Loop {V _ _} _ _ _.
Arguments visited {V _ _} _.
Arguments queue {V _ _} _.
Arguments yielded {V _ _} _.

Section Traverser.

(** Nodes are compared by identity ([id(node)]); [truthy] is the truth value
    of a node ([if parent:]). *)
Context {V : Type} `{Countable V}.
Variable truthy : V -> bool.
Variable self : KTraverser V.

(** What one visit of [node] appends to the queue, in order: the children
    ([... or []]), the parent when it is truthy, the cross links. *)
Definition enqueued (node : V) : list V :=
  match children_resolver self with
  | Some f => default [] (f node)
  | None => []
  end
  ++ match parent_resolver self with
     | Some f =>
         match f node with
         | Some parent => if truthy parent then [parent] else []
         | None => []
         end
     | None => []
     end
  ++ match transversal_resolver self with
     | Some f => default [] (f node)
     | None => []
     end.

(** One iteration, [node, path = queue.popleft()] done. *)
Definition visit (s : loop V) (node : V) (path : list V)
    (rest : list (V * list V)) : loop V :=
  if decide (node ∈ visited s) then Loop (visited s) rest (yielded s)
  else
    let new_path := path ++ [node] in
    Loop ({[node]} ∪ visited s)
         (rest ++ ((fun m => (m, new_path)) <$> enqueued node))
         (yielded s ++ [(node, path)]).

(** At most [fuel] evaluations of the loop condition; [None] when the
    queue is not empty by then. *)
Fixpoint run (fuel : nat) (s : loop V) : option (list (V * list V)) :=
  match fuel with
  | O => None
  | S fuel' =>
      match queue s with
      | [] => Some (yielded s)
      | (node, path) :: rest => run fuel' (visit s node path rest)
      end
  end.

(** Everything [traverse(start)] yields. *)
Definition traverse (fuel : nat) (start : V) : option (list (V * list V)) :=
  run fuel (Loop ∅ [(start, [])] []).

(** [edge u v]: a visit of [u] puts [v] on the queue. *)
Definition edge (u v : V) : Prop := v ∈ enqueued u.

(** What the loop can come to put on the queue, starting from [start]. *)
Definition reachable (start v : V) : Prop := rtc edge start v.

(** Modelled from the spec: [v] is related to [u] under the configured
    resolvers when the children resolver lists it among the children of
    [u], the parent resolver gives it as the parent of [u], or the cross-link
    resolver lists it among the links of [u], whatever the truth value of
    [v]. *)
Definition linked (u v : V) : Prop :=
  (exists f l, children_resolver self = Some f /\ f u = Some l /\ v ∈ l)
  \/ (exists f, parent_resolver self = Some f /\ f u = Some v)
  \/ (exists f l, transversal_resolver self = Some f /\ f u = Some l /\ v ∈ l).

(** Modelled from the spec: the reachable set of [start] under the
    configured resolvers. *)
Definition linked_reachable (start v : V) : Prop := rtc linked start v.

(** Modelled from the spec: [linked_walk start path v]: [path] lists the
    nodes from [start] up to the one before [v], each related to the
    next. *)
Inductive linked_walk (start : V) : list V -> V -> Prop :=
| linked_walk_start : linked_walk start [] start
| linked_walk_step path u v :
    linked_walk start path u -> linked u v ->
    linked_walk start (path ++ [u]) v.

(** [walk start path v]: [path] lists the nodes from [start] up to the one
    before [v], a visit of each putting the next on the queue. *)
Inductive walk (start : V) : list V -> V -> Prop :=
| walk_start : walk start [] start
| walk_step path u v :
    walk start path u -> edge u v -> walk start (path ++ [u]) v.

(** The elements of [l] in order, each at its first occurrence only and
    none of [seen]. *)
Fixpoint first_occurrences (seen : gset V) (l : list V) : list V :=
  match l with
  | [] => []
  | x :: rest =>
      if decide (x ∈ seen) then first_occurrences seen rest
      else x :: first_occurrences ({[x]} ∪ seen) rest
  end.

Definition depths (l : list (V * list V)) : list nat :=
  (fun e => length e.2) <$> l.

(** Some entry for [v], yielded or queued, has a path of at most [k]
    nodes. *)
Definition covered (s : loop V) (v : V) (k : nat) : Prop :=
  exists p, (v, p) ∈ yielded s ++ queue s /\ (length p <= k)%nat.

(** The loop invariant. *)
Record inv (start : V) (s : loop V) : Prop := {
  inv_visited : forall v, v ∈ visited s <-> v ∈ (yielded s).*1;
  inv_nodup : NoDup (yielded s).*1;
  inv_walk : forall v p, (v, p) ∈ yielded s ++ queue s -> walk start p v;
  inv_sorted : StronglySorted le (depths (yielded s ++ queue s));
  inv_spread : forall e e', e ∈ queue s -> e' ∈ queue s ->
                            (length e.2 <= S (length e'.2))%nat;
  inv_start : covered s start 0;
  inv_closed : forall u p v, (u, p) ∈ yielded s -> edge u v ->
                             covered s v (S (length p))
}.

(** [dequeued] is the ghost list of the nodes taken off the queue so far. *)
Definition fifo_inv (start : V) (s : loop V) (dequeued : list V) : Prop :=
  (yielded s).*1 = first_occurrences ∅ dequeued
  /\ visited s = list_to_set dequeued
  /\ start :: concat (enqueued <$> (yielded s).*1) = dequeued ++ (queue s).*1.

End Traverser.

(** The resolvers [_engine.py] offers for the hierarchy. *)
Module Engine.

(** [getattr(obj, "children", None)]: only [Net], [Layer] and [Matrix] have
    a [children] property. *)
Definition children_resolver (st : store) (obj : addr) : option (list addr) :=
  o ← objects st !! obj;
  if has_attribute (cls o) "children" then Some (default [] (children o))
  else None.

(** [getattr(obj, "parent", None)] *)
Definition parent_resolver (st : store) (obj : addr) : option addr :=
  parent_of st obj.

(** A [KObject] defines neither [__bool__] nor [__len__]. *)
Definition truthy (obj : addr) : bool := true.

Definition hierarchy (st : store) : KTraverser addr :=
  mkTraverser (Some (children_resolver st)) (Some (parent_resolver st)) None.

End Engine.

(** ** Concrete stores and graphs *)

Definition kobj (k : kclass) (i : string) (p : option addr)
    (ch : option (list addr)) (d : Py.value) (nm : string)
    (r : option addr) : KObject :=
  mkObject k i p ch d nm r ∅ false.

Definition leaf (i d : string) (p : option addr) : KObject :=
  kobj Leaf i p None (Py.VStr d) EmptyString None.

Definition abort_branch : KObject :=
  kobj Branch "b" None (Some [2; 3; 4; 5]%positive) Py.VNone EmptyString
       (Some 1%positive).

Definition abort_policy (pf : PruneFrom) : KRetentionPolicy :=
  mkPolicy 3 pf DISCARD RAISE None [].

(** A [Branch] holding four leaves under a bound of three that aborts, and a
    fifth leaf still outside. *)
Definition abort_store (pf : PruneFrom) : store :=
  mkStore
    (list_to_map
       [(1%positive, abort_branch);
        (2%positive, leaf "l2" "a" (Some 1%positive));
        (3%positive, leaf "l3" "b" (Some 1%positive));
        (4%positive, leaf "l4" "c" (Some 1%positive));
        (5%positive, leaf "l5" "d" (Some 1%positive));
        (6%positive, leaf "l6" "e" None)])
    (list_to_map [(1%positive, abort_policy pf)])
    [].

(** A [Branch] with five leaves and a bound of three. *)
Definition five_store (pf : PruneFrom) (n : NotifyMode) : store :=
  mkStore
    (list_to_map
       [(1%positive, kobj Branch "b" None (Some [2; 3; 4; 5; 6]%positive)
                          Py.VNone EmptyString (Some 1%positive));
        (2%positive, leaf "l2" "a" (Some 1%positive));
        (3%positive, leaf "l3" "b" (Some 1%positive));
        (4%positive, leaf "l4" "c" (Some 1%positive));
        (5%positive, leaf "l5" "d" (Some 1%positive));
        (6%positive, leaf "l6" "e" (Some 1%positive))])
    (list_to_map [(1%positive, mkPolicy 3 pf DISCARD n (Some "on_evict") [])])
    [].

(** A [Matrix] bounded to one layer that already holds one, a second layer,
    and a [Net] bounded to no node at all, with a node outside. *)
Definition bounded_store : store :=
  mkStore
    (list_to_map
       [(1%positive, kobj Matrix "m" None (Some [2%positive]) Py.VNone "Matrix"
                          (Some 1%positive));
        (2%positive, kobj Layer "l2" (Some 1%positive) None Py.VNone "first" None);
        (3%positive, kobj Layer "l3" None None Py.VNone "second" None);
        (4%positive, kobj Net "n4" None None Py.VNone EmptyString
                          (Some 2%positive));
        (5%positive, kobj Node "d5" None None (Py.VStr "x") EmptyString None)])
    (list_to_map
       [(1%positive, mkPolicy 1 FORWARD DESTROY SUPPRESS None []);
        (2%positive, mkPolicy 0 FORWARD DESTROY SUPPRESS None [])])
    [].

(** A [Branch] holding one leaf under a bound of three that aborts, and a
    detached leaf. *)
Definition roomy_store : store :=
  mkStore
    (list_to_map
       [(1%positive, kobj Branch "b1" None (Some [2%positive]) Py.VNone
                          EmptyString (Some 1%positive));
        (2%positive, leaf "l2" "x" (Some 1%positive));
        (3%positive, leaf "l3" "y" None)])
    {[1%positive := mkPolicy 3 FORWARD DESTROY RAISE None []]}
    [].

(** A [Branch] with two leaves, a detached leaf and an empty [Branch]. *)
Definition family_store : store :=
  mkStore
    (list_to_map
       [(1%positive, kobj Branch "b1" None (Some [2; 4]%positive) Py.VNone
                          EmptyString None);
        (2%positive, leaf "l2" "x" (Some 1%positive));
        (3%positive, leaf "l3" "y" None);
        (4%positive, leaf "l4" "z" (Some 1%positive));
        (5%positive, kobj Branch "b5" None None Py.VNone EmptyString None)])
    ∅ [].

(** A [Layer] holding a [Net], and a second [Layer]. *)
Definition layer_store : store :=
  mkStore
    (list_to_map
       [(1%positive, kobj Layer "l1" None (Some [2%positive]) Py.VNone "first" None);
        (2%positive, kobj Net "n2" (Some 1%positive) None Py.VNone EmptyString None);
        (3%positive, kobj Layer "l3" None None Py.VNone "second" None)])
    ∅ [].

(** A [Layer] holding two empty nets, which have the same structural
    hash. *)
Definition twin_store : store :=
  mkStore
    (list_to_map
       [(1%positive, kobj Layer "l1" None (Some [2; 3]%positive) Py.VNone "first" None);
        (2%positive, kobj Net "n2" (Some 1%positive) None Py.VNone EmptyString None);
        (3%positive, kobj Net "n3" (Some 1%positive) None Py.VNone EmptyString None)])
    ∅ [].

(** Two leaves. *)
Definition two_leaves : store :=
  mkStore
    (list_to_map [(1%positive, leaf "l1" "a" None);
                  (2%positive, leaf "l2" "b" None)])
    ∅ [].

(** The cycle A -> B, B -> A through the children resolver, A being 1 and
    B being 2. *)
Definition cycle_children (v : positive) : option (list positive) :=
  match v with
  | 1 => Some [2]
  | 2 => Some [1]
  | _ => None
  end%positive.

Definition cycle : KTraverser positive :=
  mkTraverser (Some cycle_children) None None.

(** Integers as nodes: [0] counts as false. *)
Definition int_truthy (v : Z) : bool := negb (v =? 0).

(** A parent resolver alone, which gives [0] as the parent of [1]. *)
Definition falsy_parent : KTraverser Z :=
  mkTraverser None (Some (fun v => if v =? 1 then Some 0 else None)) None.

(** ** Position in the hierarchy ([path], [root] and the order by depth) *)

(** The [while node:] loop of [path], with [p] the list built so far.  A
    [KObject] defines neither [__bool__] nor [__len__], so only [None] ends
    the loop; [None] as a result is a loop still running when the fuel is
    spent. *)
Fixpoint path_loop (fuel : nat) (st : store) (node : option addr)
    (p : list addr) : option (list addr) :=
  match fuel with
  | O => None
  | S fuel' =>
      match node with
      | None => Some (reverse p)
      | Some a => path_loop fuel' st (parent_of st a) (p ++ [a])
      end
  end.

(** [self.path]: the ancestors from the root down to the object itself. *)
Definition KObject_path (fuel : nat) (st : store) (self : addr)
  : option (list addr) :=
  path_loop fuel st (Some self) [].

(** [self.root]: [path[0] if path else self]. *)
Definition KObject_root (fuel : nat) (st : store) (self : addr)
  : option addr :=
  p ← KObject_path fuel st self;
  Some (default self (head p)).

(** [__lt__] and [__gt__] compare the lengths of the two paths. *)
Definition KObject_lt (fuel : nat) (st : store) (self other : addr)
  : option bool :=
  ps ← KObject_path fuel st self;
  po ← KObject_path fuel st other;
  Some (length ps <? length po)%nat.

Definition KObject_gt (fuel : nat) (st : store) (self other : addr)
  : option bool :=
  ps ← KObject_path fuel st self;
  po ← KObject_path fuel st other;
  Some (length po <? length ps)%nat.

(** [lineage st p a]: [p] lists an object without parent, then one of its
    children, and so on down to [a], each the parent of the next. *)
Inductive lineage (st : store) : list addr -> addr -> Prop :=
| lineage_root a : parent_of st a = None -> lineage st [a] a
| lineage_child p b a :
    lineage st p b -> parent_of st a = Some b -> lineage st (p ++ [a]) a.

(** [b] is the parent of [a]. *)
Definition child_of (st : store) (a b : addr) : Prop :=
  parent_of st a = Some b.

(** ** Walking the children ([__iter__] and the [walk_*] generators) *)

(** [[c for c in self if isinstance(c, k)]]; [__iter__] iterates over
    [metadata.get("children", [])]. *)
Definition instances (st : store) (k : kclass) (self : addr) : list addr :=
  filter (fun c => class_of st c = Some k) (children_of st self).

(** What each generator yields, the store being left alone meanwhile. *)
Definition Branch_walk_leaves (st : store) (self : addr) : list addr :=
  instances st Leaf self.

Definition Branch_leaves (st : store) (self : addr) : list addr :=
  instances st Leaf self.

Definition Tree_walk_branches (st : store) (self : addr) : list addr :=
  instances st Branch self.

Definition Tree_branches (st : store) (self : addr) : list addr :=
  instances st Branch self.

(** [for branch in self.walk_branches(): yield from branch.walk_leaves()] *)
Definition Tree_walk_leaves (st : store) (self : addr) : list addr :=
  concat (Branch_walk_leaves st <$> Tree_walk_branches st self).

(** [Tree.walk]: each child, a [Branch] followed by its leaves. *)
Definition Tree_walk (st : store) (self : addr) : list addr :=
  concat ((fun child =>
             child :: if bool_decide (class_of st child = Some Branch)
                      then Branch_walk_leaves st child else [])
          <$> children_of st self).

Definition Node_walk_trees (st : store) (self : addr) : list addr :=
  instances st Tree self.

Definition Node_trees (st : store) (self : addr) : list addr :=
  instances st Tree self.

Definition Node_walk_branches (st : store) (self : addr) : list addr :=
  concat (Tree_walk_branches st <$> Node_walk_trees st self).

(** [Net.walk_nodes]: each [Node] child, followed by its trees. *)
Definition Net_walk_nodes (st : store) (self : addr) : list addr :=
  concat ((fun child =>
             if bool_decide (class_of st child = Some Node)
             then child :: Node_walk_trees st child else [])
          <$> children_of st self).

Definition Layer_walk_nets (st : store) (self : addr) : list addr :=
  instances st Net self.

Definition Matrix_walk_layers (st : store) (self : addr) : list addr :=
  instances st Layer self.

(** [Matrix.layers]: [list(self.walk_layers())]. *)
Definition Matrix_layers (st : store) (self : addr) : list addr :=
  Matrix_walk_layers st self.

(** The [while stack:] loop of [Net.walk_all]: [stack.pop(0)], yield, then
    [stack.extend(list(obj))].  There is no visited set. *)
Fixpoint walk_all_loop (fuel : nat) (st : store) (stack : list addr)
  : option (list addr) :=
  match fuel with
  | O => None
  | S fuel' =>
      match stack with
      | [] => Some []
      | obj :: rest =>
          (obj ::.) <$> walk_all_loop fuel' st (rest ++ children_of st obj)
      end
  end.

Definition Net_walk_all (fuel : nat) (st : store) (self : addr)
  : option (list addr) :=
  walk_all_loop fuel st (children_of st self).

(** [Net.find] consumes [walk_all] up to the first object the predicate
    accepts; [Some None] is the [return None] after the loop. *)
Fixpoint find_loop (fuel : nat) (st : store) (predicate : addr -> bool)
    (stack : list addr) : option (option addr) :=
  match fuel with
  | O => None
  | S fuel' =>
      match stack with
      | [] => Some None
      | obj :: rest =>
          if predicate obj then Some (Some obj)
          else find_loop fuel' st predicate (rest ++ children_of st obj)
      end
  end.

Definition Net_find (fuel : nat) (st : store) (predicate : addr -> bool)
    (self : addr) : option (option addr) :=
  find_loop fuel st predicate (children_of st self).

(** The objects [n] levels below those of [l], in order: [l] itself for
    [0], the children of its objects for [1], and so on. *)
Fixpoint generation (st : store) (n : nat) (l : list addr) : list addr :=
  match n with
  | O => l
  | S n' => generation st n' (concat (children_of st <$> l))
  end.

(** Every child has a class its container allows. *)
Definition well_typed (st : store) : Prop :=
  forall c x, x ∈ children_of st c ->
    exists kc kx, class_of st c = Some kc /\ class_of st x = Some kx
                  /\ kx ∈ allowed_children kc.

(** The same, decided object by object. *)
Definition well_typed_check (st : store) : bool :=
  forallb
    (fun '(a, o) =>
       forallb (fun x => match class_of st x with
                         | Some kx => bool_decide (kx ∈ allowed_children (cls o))
                         | None => false
                         end)
               (default [] (children o)))
    (map_to_list (objects st)).

(** ** The index of a [Net] ([register], [unregister], [get]) *)

(** [self.index[obj.id] = obj] *)
Definition Net_register (self obj : addr) : M unit :=
  o ← get_obj obj;
  update_obj self (fun s => with_index (<[obj_id o := obj]> (index s)) s).

(** [self.index.pop(obj.id, None)] *)
Definition Net_unregister (self obj : addr) : M unit :=
  o ← get_obj obj;
  update_obj self (fun s => with_index (delete (obj_id o) (index s)) s).

(** [self.index.get(obj_id)] *)
Definition Net_get (self : addr) (i : string) : M (option addr) :=
  s ← get_obj self;
  ret (index s !! i).

(** ** The factory method of a [Branch] ([add_leaf]) *)

Section Factories.

Variable obj_eq : store -> addr -> addr -> bool.

(** [Branch.add_leaf]: [Leaf(data=leaf_data, metadata=meta)], with [new_id]
    the token [gen_id()] hands the leaf and [meta_children] the list the
    keywords give under [children], if they give one. *)
Definition Branch_add_leaf (self : addr) (new_id : string)
    (leaf_data : Py.value) (meta_children : option (list addr)) : M addr :=
  leaf ← alloc (mkObject Leaf new_id None meta_children leaf_data EmptyString
                         None ∅ false);
  add obj_eq self leaf;;
  ret leaf.

End Factories.

(** ** The lifecycle ([on_load], [on_unload], [Matrix.start], [stop],
    [add_layer]) *)

Definition with_active (b : bool) (o : KObject) : KObject :=
  mkObject (cls o) (obj_id o) (parent o) (children o) (data o) (name o)
           (retention o) (index o) b.

(** [for x in l: f(x)] *)
Fixpoint for_each {A} (f : A -> M unit) (l : list A) : M unit :=
  match l with
  | [] => ret tt
  | x :: rest => f x;; for_each f rest
  end.

Section Lifecycle.

(** The [storage] field of an object, which the code reads and never
    assigns: [Some s] is a storage object named [s] that counts as true,
    [None] is [None] or any value that counts as false.  A storage is an
    opaque collaborator like a callback: calling one of its methods is
    recorded in the store's [calls], under its name and the method's. *)
Variable storage : addr -> option string.

Definition load_layer (s : string) : string := s +:+ ".load_layer".

Definition unload_layer (s : string) : string := s +:+ ".unload_layer".

Definition Layer_on_load (self : addr) : M unit :=
  match storage self with
  | Some s => call_callback (load_layer s) [self]
  | None => ret tt
  end.

Definition Layer_on_unload (self : addr) : M unit :=
  match storage self with
  | Some s => call_callback (unload_layer s) [self]
  | None => ret tt
  end.

(** [obj.on_load()]: [Layer] overrides the empty method of [KObject]. *)
Definition on_load (self : addr) : M unit :=
  s ← get_obj self;
  match cls s with
  | Layer => Layer_on_load self
  | _ => ret tt
  end.

Definition on_unload (self : addr) : M unit :=
  s ← get_obj self;
  match cls s with
  | Layer => Layer_on_unload self
  | _ => ret tt
  end.

Definition Matrix_start (self : addr) : M unit :=
  s ← get_obj self;
  if active s then ret tt
  else
    update_obj self (with_active true);;
    st ← get_store;
    for_each on_load (Matrix_layers st self).

Definition Matrix_stop (self : addr) : M unit :=
  s ← get_obj self;
  if negb (active s) then ret tt
  else
    st ← get_store;
    for_each on_unload (Matrix_layers st self);;
    update_obj self (with_active false).

Variable obj_eq : store -> addr -> addr -> bool.

Definition Matrix_add_layer (self layer : addr) : M addr :=
  add obj_eq self layer;;
  s ← get_obj self;
  (if active s then on_load layer else ret tt);;
  ret layer.

End Lifecycle.

(** The store once the calls [cs] have been made. *)
Definition logged (cs : list (string * list addr)) (st : store) : store :=
  mkStore (objects st) (policies st) (calls st ++ cs).

(** Whether [Matrix.active] holds, read through the store. *)
Definition active_of (st : store) (self : addr) : option bool :=
  active <$> objects st !! self.

(** The calls [Matrix.start] and [Matrix.stop] make for the layers [l]. *)
Definition loads (storage : addr -> option string) (l : list addr)
  : list (string * list addr) :=
  omap (fun a => (fun s => (load_layer s, [a])) <$> storage a) l.

Definition unloads (storage : addr -> option string) (l : list addr)
  : list (string * list addr) :=
  omap (fun a => (fun s => (unload_layer s, [a])) <$> storage a) l.

(** ** Identifiers ([gen_id]) *)

(** The module's [_GEN_IDS] and [_GEN_IDS_LOCK] (held or not), and how many
    tokens have been drawn from the random source. *)
Record registry := mkRegistry {
  _GEN_IDS : gset string;
  _GEN_IDS_LOCK : bool;
  draws : nat
}.

(** A call returns an identifier, or blocks for ever on acquiring the
    lock. *)
Inductive gen_outcome :=
| Generated (id : string)
| Blocked.

Section GenId.

(** [token k] is the [k]-th value the random source returns
    ([secrets.token_urlsafe(8)], or the first eight characters of a
    [uuid4]). *)
Variable token : nat -> string.

(** [fuel] bounds the depth of the recursion.  [threading.Lock] is not
    reentrant: acquiring it while it is held blocks, and the recursive call
    is made inside the [with] block. *)
Fixpoint gen_id (fuel : nat) (r : registry) : option (registry * gen_outcome) :=
  match fuel with
  | O => None
  | S fuel' =>
      let generated := token (draws r) in
      let r1 := mkRegistry (_GEN_IDS r) (_GEN_IDS_LOCK r) (S (draws r)) in
      if _GEN_IDS_LOCK r1 then Some (r1, Blocked)
      else
        let r2 := mkRegistry (_GEN_IDS r1) true (draws r1) in
        if bool_decide (generated ∈ _GEN_IDS r2) then
          match gen_id fuel' r2 with
          | Some (r3, Generated id) =>
              Some (mkRegistry (_GEN_IDS r3) false (draws r3), Generated id)
          | other => other
          end
        else
          Some (mkRegistry ({[generated]} ∪ _GEN_IDS r2) false (draws r2),
                Generated generated)
  end.

(** [n] calls in a row, as long as they return. *)
Fixpoint gen_ids (fuel n : nat) (r : registry)
  : option (registry * list string) :=
  match n with
  | O => Some (r, [])
  | S n' =>
      match gen_id fuel r with
      | Some (r', Generated id) =>
          '(r'', ids) ← gen_ids fuel n' r'; Some (r'', id :: ids)
      | _ => None
      end
  end.

End GenId.

(** ** Vectors ([KVector]) *)

Section KVector.

(** The numbers of a vector, with Python's [+], [*] and [sum] on them. *)
Context {R : Type}.
Variable plus : R -> R -> R.
Variable times : R -> R -> R.
Variable sum : list R -> R.

Record KVector := mkVector { values : list R }.

(** [len(v)] *)
Definition KVector_len (v : KVector) : nat := length (values v).

(** [sum(a * b for a, b in zip(self.values, other.values))] *)
Definition dot (self other : KVector) : R :=
  sum (zip_with times (values self) (values other)).

(** [KVector([a + b for a, b in zip(self.values, other.values)])] *)
Definition KVector_add (self other : KVector) : KVector :=
  mkVector (zip_with plus (values self) (values other)).

(** [KVector([v * scalar for v in self.values])] *)
Definition KVector_mul (self : KVector) (scalar : R) : KVector :=
  mkVector ((fun v => times v scalar) <$> values self).

End KVector.

Arguments KVector R : clear implicits.
Arguments mkVector {R} _.
Arguments values {R} _.

(** ** Matching ([KMatchContext]) *)

(** [KMatchContext]; [ctx_data] is [None] when no data is asked for. *)
Record KMatchContext (V Score : Type) := mkContext {
  ctx_node : V;
  ctx_id : option string;
  ctx_data : Py.value;
  ctx_hash : option string;
  ctx_shash : option string;
  ctx_score : Score;
  ctx_path : list V;
  ctx_metadata : gmap string Py.value;
  ctx_predicate : option (store -> addr -> bool)
}.
Arguments mkContext {V Score} _ _ _ _ _ _ _ _ _.
Arguments ctx_node {V Score} _.
Arguments ctx_id {V Score} _.
Arguments ctx_data {V Score} _.
Arguments ctx_hash {V Score} _.
Arguments ctx_shash {V Score} _.
Arguments ctx_score {V Score} _.
Arguments ctx_path {V Score} _.
Arguments ctx_metadata {V Score} _.
Arguments ctx_predicate {V Score} _.

(** [==] on the values a [data] field holds. *)
Global Instance value_eq_dec : EqDecision Py.value.
Proof. solve_decision. Defined.

(** One criterion on a text: absent, or the text the object must have. *)
Definition criterion_holds (criterion actual : option string) : option bool :=
  match criterion with
  | None => Some true
  | Some c => a ← actual; Some (bool_decide (a = c))
  end.

(** [KMatchContext.matches]; [None] only where a hash of the object has no
    value. *)
Definition matches {V Score} (self : KMatchContext V Score) (st : store)
    (obj : addr) : option bool :=
  o ← objects st !! obj;
  ok_id ← criterion_holds (ctx_id self) (Some (obj_id o));
  if negb ok_id then Some false
  else
    ok_hash ← criterion_holds (ctx_hash self) (hash st obj);
    if negb ok_hash then Some false
    else
      ok_shash ← criterion_holds (ctx_shash self) (shash st obj);
      if negb ok_shash then Some false
      else if bool_decide (ctx_data self ≠ Py.VNone)
              && (negb (has_attribute (cls o) "data")
                  || bool_decide (data o ≠ ctx_data self))
      then Some false
      else
        match ctx_predicate self with
        | Some predicate => Some (predicate st obj)
        | None => Some true
        end.

(** ** More concrete stores *)

(** An empty [Branch] under a bound of -1 that aborts. *)
Definition negative_store : store :=
  mkStore
    {[1%positive := kobj Branch "b" None None Py.VNone EmptyString
                         (Some 1%positive)]}
    {[1%positive := mkPolicy (-1) FORWARD DESTROY RAISE None []]}
    [].

(** A [Leaf] that is its own parent and its own child, as [leaf + leaf]
    leaves it. *)
Definition self_parent_store : store :=
  mkStore
    {[1%positive := kobj Leaf "l1" (Some 1%positive) (Some [1%positive])
                         (Py.VStr "x") EmptyString None]}
    ∅ [].

(** A [Net] with two nodes; the first holds a [Tree], which holds a
    [Branch]. *)
Definition net_store : store :=
  mkStore
    (list_to_map
       [(1%positive, kobj Net "n1" None (Some [2; 3]%positive) Py.VNone
                          EmptyString None);
        (2%positive, kobj Node "d2" (Some 1%positive) (Some [4%positive])
                          Py.VNone EmptyString None);
        (3%positive, kobj Node "d3" (Some 1%positive) None Py.VNone
                          EmptyString None);
        (4%positive, kobj Tree "t4" (Some 2%positive) (Some [5%positive])
                          Py.VNone EmptyString None);
        (5%positive, kobj Branch "b5" (Some 4%positive) None Py.VNone
                          EmptyString None)])
    ∅ [].

(** A [Net] down to a [Leaf] that is its own child. *)
Definition looping_net_store : store :=
  mkStore
    (list_to_map
       [(1%positive, kobj Net "n1" None (Some [2%positive]) Py.VNone
                          EmptyString None);
        (2%positive, kobj Node "d2" (Some 1%positive) (Some [3%positive])
                          Py.VNone EmptyString None);
        (3%positive, kobj Tree "t3" (Some 2%positive) (Some [4%positive])
                          Py.VNone EmptyString None);
        (4%positive, kobj Branch "b4" (Some 3%positive) (Some [5%positive])
                          Py.VNone EmptyString None);
        (5%positive, kobj Leaf "l5" (Some 5%positive) (Some [5%positive])
                          (Py.VStr "x") EmptyString None)])
    ∅ [].

(** A [Branch] bounded to two leaves, pruned from the front in silence, that
    holds two. *)
Definition full_store : store :=
  mkStore
    (list_to_map
       [(1%positive, kobj Branch "b1" None (Some [2; 3]%positive) Py.VNone
                          EmptyString (Some 1%positive));
        (2%positive, leaf "l2" "x" (Some 1%positive));
        (3%positive, leaf "l3" "y" (Some 1%positive))])
    {[1%positive := mkPolicy 2 FORWARD DESTROY SUPPRESS None []]}
    [].

(** * Facts *)

(** ** The digest, the texts and the slices *)

(** The FIPS 180 test vectors. *)
Example sha1_abc :
  Sha1.hexdigest "abc" = "a9993e364706816aba3e25717850c26c9cd0d89d".
Proof. vm_compute. reflexivity. Qed.

Example sha1_empty :
  Sha1.hexdigest EmptyString = "da39a3ee5e6b4b0d3255bfef95601890afd80709".
Proof. vm_compute. reflexivity. Qed.

Example sha1_two_blocks :
  Sha1.hexdigest "abcdbcdecdefdefgefghfghighijhijkijkljklmklmnlmnomnopnopq"
  = "84983e441c3bd26ebaae4aa1f95129e5e54670f1".
Proof. vm_compute. reflexivity. Qed.

Example repr_plain : Py.repr_str "x1" = "'x1'".
Proof. reflexivity. Qed.

Example repr_with_quote :
  Py.repr_str "it's"
  = String Py.dquote ("it's" +:+ String Py.dquote EmptyString).
Proof. reflexivity. Qed.

Example str_list_two : Py.str_list ["a"; "b"] = "['a', 'b']".
Proof. reflexivity. Qed.

Example str_list_nil : Py.str_list [] = "[]".
Proof. reflexivity. Qed.

Example str_int_neg : Py.str (Py.VInt (-12)) = "-12".
Proof. reflexivity. Qed.

Example str_int_zero : Py.str_of_nat 0 = "0".
Proof. reflexivity. Qed.

Example slice_from_neg : slice_from (-2) [1; 2; 3; 4; 5] = [4; 5].
Proof. reflexivity. Qed.

Example slice_to_neg : slice_to (-2) [1; 2; 3; 4; 5] = [1; 2; 3].
Proof. reflexivity. Qed.

Example slice_from_far_neg : slice_from (-7) [1; 2; 3] = [1; 2; 3].
Proof. reflexivity. Qed.

Example slice_to_far_neg : slice_to (-7) [1; 2; 3] = [].
Proof. reflexivity. Qed.

(** The text and the digest of a [Branch] with four leaves and no parent. *)
Example branch_hash :
  hash_input (abort_store FORWARD) 1
  = Some "None|['l2', 'l3', 'l4', 'l5']|None"
  /\ hash (abort_store FORWARD) 1
     = Some "fb1c2b8bf94d7590c9e3daabe1c363a1bbdbb5f2".
Proof. vm_compute. done. Qed.

(** No class has a [partition] or a [clone]. *)
Lemma partition_and_clone_undefined k :
  has_attribute k "partition" = false /\ has_attribute k "clone" = false.
Proof. by destruct k. Qed.

(** ** Running the operations *)

Ltac unfold_monad :=
  unfold mbind, M_bind, bind, mret, M_ret, ret, raise, get_store.

Lemma update_obj_run a f st o :
  objects st !! a = Some o -> update_obj a f st = (upd a f st, Return tt).
Proof. intros Ha. unfold upd, update_obj. by rewrite Ha. Qed.

Lemma get_obj_run a st o :
  objects st !! a = Some o -> get_obj a st = (st, Return o).
Proof. intros Ha. unfold get_obj. by rewrite Ha. Qed.

Lemma get_policy_run p st pol :
  policies st !! p = Some pol -> get_policy p st = (st, Return pol).
Proof. intros Hp. unfold get_policy. by rewrite Hp. Qed.

Lemma lookup_upd a f st b :
  objects (upd a f st) !! b
  = if decide (b = a) then f <$> objects st !! b else objects st !! b.
Proof.
  unfold upd, update_obj.
  destruct (objects st !! a) as [o|] eqn:Ha; simpl.
  - destruct (decide (b = a)) as [->|Hne].
    + by rewrite lookup_insert_eq, Ha.
    + by rewrite lookup_insert_ne.
  - destruct (decide (b = a)) as [->|Hne]; [by rewrite Ha|done].
Qed.

Lemma lookup_upd_eq a f st :
  objects (upd a f st) !! a = f <$> objects st !! a.
Proof. rewrite lookup_upd. by rewrite decide_True. Qed.

Lemma lookup_upd_ne a f st b :
  b ≠ a -> objects (upd a f st) !! b = objects st !! b.
Proof. intros. rewrite lookup_upd. by rewrite decide_False. Qed.

Lemma policies_upd a f st : policies (upd a f st) = policies st.
Proof. unfold upd, update_obj. by destruct (objects st !! a). Qed.

Lemma calls_upd a f st : calls (upd a f st) = calls st.
Proof. unfold upd, update_obj. by destruct (objects st !! a). Qed.

Lemma same_identity_with_parent q : same_identity (with_parent q).
Proof. by intros []. Qed.

Lemma same_identity_with_children l : same_identity (with_children l).
Proof. by intros []. Qed.

Lemma same_identity_setdefault : same_identity setdefault_children.
Proof. by intros []. Qed.

Lemma same_identity_append x : same_identity (append_child x).
Proof. by intros []. Qed.

Lemma class_of_upd a f st b :
  same_identity f -> class_of (upd a f st) b = class_of st b.
Proof.
  intros Hf. unfold class_of. rewrite lookup_upd.
  destruct (decide (b = a)); [|done].
  destruct (objects st !! b) as [o|]; [|done]. simpl. f_equal. apply Hf.
Qed.

Lemma children_of_upd_parent a q st b :
  children_of (upd a (with_parent q) st) b = children_of st b.
Proof.
  unfold children_of. rewrite lookup_upd.
  destruct (decide (b = a)); [|done]. by destruct (objects st !! b).
Qed.

Lemma parent_of_upd_children a f st b :
  (forall o, parent (f o) = parent o) ->
  parent_of (upd a f st) b = parent_of st b.
Proof.
  intros Hf. unfold parent_of. rewrite lookup_upd.
  destruct (decide (b = a)); [|done].
  destruct (objects st !! b); [|done]. simpl. apply Hf.
Qed.

Lemma parent_of_upd_parent a q st b :
  parent_of (upd a (with_parent q) st) b
  = if decide (b = a) then objects st !! b ≫= (fun _ => q) else parent_of st b.
Proof.
  unfold parent_of. rewrite lookup_upd.
  destruct (decide (b = a)); [|done]. by destruct (objects st !! b).
Qed.

Lemma children_of_upd a f st b :
  children_of (upd a f st) b
  = if decide (b = a)
    then default [] (objects st !! b ≫= (fun o => children (f o)))
    else children_of st b.
Proof.
  unfold children_of. rewrite lookup_upd.
  destruct (decide (b = a)); [|done]. by destruct (objects st !! b).
Qed.

Lemma allowed_children_nonempty k : allowed_children k ≠ [].
Proof. by destruct k. Qed.

Section CompositionFacts.

Variable obj_eq : store -> addr -> addr -> bool.

Lemma KObject_add_rejects st c x oc ox :
  objects st !! c = Some oc -> objects st !! x = Some ox ->
  cls ox ∉ allowed_children (cls oc) ->
  KObject_add obj_eq c x st
  = (st, Raise (TypeError (kind (cls oc) +:+ " cannot have child of type "
                           +:+ kind (cls ox)))).
Proof.
  intros Hc Hx Hnot. unfold KObject_add. unfold_monad.
  rewrite (get_obj_run _ _ _ Hc), (get_obj_run _ _ _ Hx).
  rewrite bool_decide_true by apply allowed_children_nonempty.
  unfold isinstance. by rewrite bool_decide_false.
Qed.

Lemma KObject_add_accepts st c x oc ox :
  objects st !! c = Some oc -> objects st !! x = Some ox ->
  cls ox ∈ allowed_children (cls oc) ->
  KObject_add obj_eq c x st
  = if py_in obj_eq (upd c setdefault_children st) x (children_of st c)
    then (upd c setdefault_children st, Return x)
    else (appended c x st, Return x).
Proof.
  intros Hc Hx Hin. unfold KObject_add. unfold_monad.
  rewrite (get_obj_run _ _ _ Hc), (get_obj_run _ _ _ Hx).
  unfold isinstance. rewrite (bool_decide_true (_ ∈ _)) by done.
  rewrite andb_false_r.
  rewrite (update_obj_run _ _ _ _ Hc).
  set (st1 := upd c setdefault_children st).
  assert (Hch : children_of st1 c = children_of st c).
  { unfold st1. rewrite children_of_upd, decide_True by done.
    unfold children_of. rewrite Hc. simpl. by destruct (children oc). }
  rewrite Hch.
  destruct (py_in obj_eq st1 x (children_of st c)); simpl; [done|].
  assert (is_Some (objects st1 !! x)) as [ox1 Hx1].
  { unfold st1. rewrite lookup_upd. destruct (decide (x = c)); rewrite Hx; eauto. }
  rewrite (update_obj_run _ _ _ _ Hx1).
  assert (is_Some (objects (upd x (with_parent (Some c)) st1) !! c)) as [oc2 Hc2].
  { rewrite lookup_upd. unfold st1.
    destruct (decide (c = x)); rewrite lookup_upd_eq, Hc; eauto. }
  by rewrite (update_obj_run _ _ _ _ Hc2).
Qed.

Lemma children_of_appended st c x oc ox d :
  objects st !! c = Some oc -> objects st !! x = Some ox ->
  children_of (appended c x st) d
  = if decide (d = c) then children_of st c ++ [x] else children_of st d.
Proof.
  intros Hc Hx. unfold appended.
  rewrite children_of_upd. destruct (decide (d = c)) as [->|Hne].
  - destruct (decide (c = x)) as [<-|Hcx].
    + rewrite !lookup_upd_eq, Hc. simpl. unfold children_of. rewrite Hc.
      simpl. by destruct (children oc).
    + rewrite (lookup_upd_ne x) by done. rewrite lookup_upd_eq, Hc. simpl.
      unfold children_of. rewrite Hc. simpl. by destruct (children oc).
  - rewrite children_of_upd_parent, children_of_upd. by rewrite decide_False.
Qed.

Lemma parent_of_appended st c x oc ox y :
  objects st !! c = Some oc -> objects st !! x = Some ox ->
  parent_of (appended c x st) y
  = if decide (y = x) then Some c else parent_of st y.
Proof.
  intros Hc Hx. unfold appended.
  rewrite parent_of_upd_children by (by intros []).
  rewrite parent_of_upd_parent. destruct (decide (y = x)) as [->|Hne].
  - rewrite lookup_upd. destruct (decide (x = c)); by rewrite Hx.
  - by rewrite parent_of_upd_children by (by intros []).
Qed.

End CompositionFacts.

(** ** The retention policy *)

Lemma objects_retain p v st : objects (retain p v st) = objects st.
Proof. unfold retain, update_policy. by destruct (policies st !! p). Qed.

Lemma policies_retain p v st pol :
  policies st !! p = Some pol ->
  policies (retain p v st) !! p = Some (with_retained (retained pol ++ v) pol).
Proof.
  intros Hp. unfold retain, update_policy. rewrite Hp. simpl.
  by rewrite lookup_insert_eq.
Qed.

Lemma apply_object st p c oc pol :
  objects st !! c = Some oc -> policies st !! p = Some pol ->
  apply p (ArgObject c) st = applied p c pol (default [] (children oc)) st.
Proof.
  intros Hc Hp. unfold apply, applied. unfold_monad.
  rewrite (get_obj_run _ _ _ Hc), (get_policy_run _ _ _ Hp).
  destruct (_ <=? 0); [done|].
  destruct (split_children _ _ _) as [victims survivors]. simpl.
  destruct (prune_type pol) eqn:Hpt.
  - unfold update_policy at 1. rewrite Hp.
    change (mkStore (objects st) (<[p:=_]> (policies st)) (calls st))
      with (with_policies
              (<[p:=with_retained (retained pol ++ victims) pol]> (policies st)) st).
    assert (Hst1 : with_policies
              (<[p:=with_retained (retained pol ++ victims) pol]> (policies st)) st
            = retain p victims st).
    { unfold retain, update_policy. by rewrite Hp. }
    rewrite Hst1.
    assert (Hc1 : objects (retain p victims st) !! c = Some oc)
      by (by rewrite objects_retain).
    rewrite (update_obj_run _ _ _ _ Hc1).
    unfold _notify. unfold_monad.
    assert (Hp2 : policies (upd c (with_children (Some survivors))
                               (retain p victims st)) !! p
                  = Some (with_retained (retained pol ++ victims) pol)).
    { rewrite policies_upd. by apply policies_retain. }
    rewrite (get_policy_run _ _ _ Hp2). simpl.
    destruct (notify pol); [done| |done].
    by destruct (callback pol).
  - rewrite (update_obj_run _ _ _ _ Hc).
    unfold _notify. unfold_monad.
    assert (Hp2 : policies (upd c (with_children (Some survivors)) st) !! p
                  = Some pol) by (by rewrite policies_upd).
    rewrite (get_policy_run _ _ _ Hp2).
    destruct (notify pol); [done| |done].
    by destruct (callback pol).
Qed.

Lemma children_of_set st c oc l :
  objects st !! c = Some oc ->
  children_of (upd c (with_children (Some l)) st) c = l.
Proof.
  intros Hc. rewrite children_of_upd, decide_True by done. by rewrite Hc.
Qed.

Lemma calls_retain p v st : calls (retain p v st) = calls st.
Proof. unfold retain, update_policy. by destruct (policies st !! p). Qed.

Lemma split_children_length pf overflow (l : list addr) :
  0 < overflow <= Z.of_nat (length l) ->
  length (split_children pf overflow l).1 = Z.to_nat overflow
  /\ length (split_children pf overflow l).2
     = Z.to_nat (Z.of_nat (length l) - overflow).
Proof.
  intros Hov. unfold split_children, slice_from, slice_to, slice_index.
  destruct pf; simpl.
  - destruct (- overflow <? 0) eqn:Hneg; [|lia].
    rewrite length_drop, length_take. lia.
  - destruct (overflow <? 0) eqn:Hneg; [lia|].
    rewrite length_drop, length_take. lia.
Qed.

Lemma applied_overflow p c pol l st oc :
  objects st !! c = Some oc -> policies st !! p = Some pol ->
  0 < Z.of_nat (length l) - max_size pol ->
  let r := applied p c pol l st in
  let victims :=
    (split_children (prune_from pol) (Z.of_nat (length l) - max_size pol) l).1 in
  let survivors :=
    (split_children (prune_from pol) (Z.of_nat (length l) - max_size pol) l).2 in
  children_of r.1 c = survivors
  /\ (forall d, d ≠ c -> children_of r.1 d = children_of st d)
  /\ (forall y, parent_of r.1 y = parent_of st y)
  /\ retained <$> policies r.1 !! p
     = Some (retained pol ++ match prune_type pol with
                             | DISCARD => victims
                             | DESTROY => []
                             end)
  /\ r.2 = match notify pol with
           | RAISE => Raise (ValueError (removed_message (length victims)))
           | _ => Return tt
           end
  /\ calls r.1 = calls st ++ match notify pol, callback pol with
                             | CALL, Some cb => [(cb, victims)]
                             | _, _ => []
                             end.
Proof.
  intros Hc Hp Hov. cbv zeta. unfold applied.
  rewrite (proj2 (Z.leb_gt _ _)) by lia.
  set (victims := (split_children _ _ _).1).
  set (survivors := (split_children _ _ _).2).
  set (st1 := match prune_type pol with
              | DISCARD => retain p victims st
              | DESTROY => st
              end).
  assert (Hobj1 : objects st1 = objects st).
  { unfold st1. destruct (prune_type pol); [apply objects_retain|done]. }
  assert (Hcalls1 : calls st1 = calls st).
  { unfold st1. destruct (prune_type pol); [apply calls_retain|done]. }
  assert (Hpol1 : retained <$> policies st1 !! p
                  = Some (retained pol ++ match prune_type pol with
                                          | DISCARD => victims
                                          | DESTROY => []
                                          end)).
  { unfold st1. destruct (prune_type pol).
    - by rewrite (policies_retain _ _ _ _ Hp).
    - by rewrite Hp, app_nil_r. }
  set (st2 := upd c (with_children (Some survivors)) st1).
  assert (Hc1 : objects st1 !! c = Some oc) by (by rewrite Hobj1).
  assert (Hch2 : children_of st2 c = survivors)
    by (by apply (children_of_set _ _ oc)).
  assert (Hch2' : forall d, d ≠ c -> children_of st2 d = children_of st d).
  { intros d Hd. unfold st2. rewrite children_of_upd, decide_False by done.
    unfold children_of. by rewrite Hobj1. }
  assert (Hpar2 : forall y, parent_of st2 y = parent_of st y).
  { intros y. unfold st2. rewrite parent_of_upd_children by (by intros []).
    unfold parent_of. by rewrite Hobj1. }
  assert (Hpol2 : policies st2 = policies st1) by apply policies_upd.
  assert (Hcalls2 : calls st2 = calls st) by (unfold st2; by rewrite calls_upd).
  destruct (notify pol); simpl.
  - by rewrite Hpol2, Hcalls2, app_nil_r.
  - destruct (callback pol); simpl.
    + unfold called, call_callback, children_of, parent_of. simpl.
      fold (children_of st2 c). rewrite Hpol2, Hcalls2.
      split; [done|]. split; [exact Hch2'|]. split; [exact Hpar2|]. done.
    + by rewrite Hpol2, Hcalls2, app_nil_r.
  - by rewrite Hpol2, Hcalls2, app_nil_r.
Qed.

(** C8.  Five children under a bound of three: [FORWARD], the front
    selector, leaves the three oldest and evicts the two newest; [BACKWARD]
    leaves the three newest and evicts the two oldest.  The victims go to
    [retained] under [DISCARD] and to the callback under [CALL], and their
    number goes into the error under [RAISE].  On a container within its
    bound [apply] returns without changing the store. *)
Theorem retention_five_children_bound_three
    st c oc p pol (a1 a2 a3 a4 a5 : addr) :
  objects st !! c = Some oc ->
  children oc = Some [a1; a2; a3; a4; a5] ->
  policies st !! p = Some pol ->
  max_size pol = 3 ->
  let r := apply p (ArgObject c) st in
  let victims := match prune_from pol with
                 | FORWARD => [a4; a5]
                 | BACKWARD => [a1; a2]
                 end in
  (children_of r.1 c = match prune_from pol with
                       | FORWARD => [a1; a2; a3]
                       | BACKWARD => [a3; a4; a5]
                       end
   /\ retained <$> policies r.1 !! p
      = Some (retained pol ++ match prune_type pol with
                              | DISCARD => victims
                              | DESTROY => []
                              end)
   /\ r.2 = match notify pol with
            | RAISE => Raise (ValueError (removed_message 2))
            | _ => Return tt
            end
   /\ calls r.1 = calls st ++ match notify pol, callback pol with
                              | CALL, Some cb => [(cb, victims)]
                              | _, _ => []
                              end)
  /\ (forall st0 c0 oc0 p0 pol0,
        objects st0 !! c0 = Some oc0 -> policies st0 !! p0 = Some pol0 ->
        Z.of_nat (length (default [] (children oc0))) - max_size pol0 <= 0 ->
        apply p0 (ArgObject c0) st0 = (st0, Return tt)).
Proof.
  intros Hc Hch Hp Hmax. cbv zeta. split.
  - rewrite (apply_object _ _ _ _ _ Hc Hp). rewrite Hch. simpl.
    pose proof (applied_overflow p c pol [a1; a2; a3; a4; a5] st oc Hc Hp)
      as Happ.
    rewrite Hmax in Happ. specialize (Happ ltac:(simpl; lia)).
    cbv zeta in Happ.
    destruct Happ as (Hch' & _ & _ & Hret & Hout & Hcalls).
    rewrite Hch', Hret, Hout, Hcalls.
    by destruct (prune_from pol).
  - intros st0 c0 oc0 p0 pol0 Hc0 Hp0 Hle.
    rewrite (apply_object _ _ _ _ _ Hc0 Hp0). unfold applied.
    by rewrite (proj2 (Z.leb_le _ _) Hle).
Qed.

Lemma lookup_appended_container st c x oc ox :
  objects st !! c = Some oc -> objects st !! x = Some ox ->
  exists oc2, objects (appended c x st) !! c = Some oc2
              /\ retention oc2 = retention oc
              /\ cls oc2 = cls oc
              /\ default [] (children oc2) = children_of st c ++ [x].
Proof.
  intros Hc Hx. unfold appended. rewrite lookup_upd_eq.
  unfold children_of. rewrite Hc. simpl.
  destruct (decide (c = x)) as [<-|Hne].
  - rewrite !lookup_upd_eq, Hc. simpl. eexists. split; [done|].
    by destruct oc as [? ? ? [l|]].
  - rewrite lookup_upd_ne, lookup_upd_eq, Hc by done. simpl.
    eexists. split; [done|]. by destruct oc as [? ? ? [l|]].
Qed.

Lemma policies_appended c x st : policies (appended c x st) = policies st.
Proof. unfold appended. by rewrite !policies_upd. Qed.

Section RetentionOnInsert.

Variable obj_eq : store -> addr -> addr -> bool.

(** The four overrides of [__add__] that hand the container to
    [apply]. *)
Lemma add_with_retention st c x oc :
  objects st !! c = Some oc ->
  cls oc ∈ [Branch; Tree; Node; Layer] ->
  add obj_eq c x st
  = (result ← KObject_add obj_eq c x;
     apply_retention c (fun _ => ArgObject c);;
     mret result) st.
Proof.
  intros Hc Hk. unfold add. unfold_monad.
  rewrite (get_obj_run _ _ _ Hc).
  destruct (cls oc); try done; set_solver.
Qed.

(** C1, as the code has it.  On a [Branch], [Tree], [Node] or [Layer] whose
    policy is in abort mode, an insert that appends the child and overflows
    raises [ValueError] with the number of victims in its message, and
    unwinds nothing: the eviction is already in the store, the container's
    children are the survivors ([max_size] of them when the bound is not
    negative) and the inserted child keeps the container as its parent. *)
Theorem abort_raises_after_eviction st c x oc ox p pol :
  objects st !! c = Some oc -> objects st !! x = Some ox ->
  cls oc ∈ [Branch; Tree; Node; Layer] ->
  cls ox ∈ allowed_children (cls oc) ->
  retention oc = Some p -> policies st !! p = Some pol ->
  notify pol = RAISE ->
  py_in obj_eq (upd c setdefault_children st) x (children_of st c) = false ->
  let pre := children_of st c ++ [x] in
  let overflow := Z.of_nat (length pre) - max_size pol in
  0 < overflow ->
  let victims := (split_children (prune_from pol) overflow pre).1 in
  let survivors := (split_children (prune_from pol) overflow pre).2 in
  let r := add obj_eq c x st in
  r.2 = Raise (ValueError (removed_message (length victims)))
  /\ children_of r.1 c = survivors
  /\ parent_of r.1 x = Some c
  /\ (0 <= max_size pol ->
      length victims = Z.to_nat overflow
      /\ length survivors = Z.to_nat (max_size pol)).
Proof.
  intros Hc Hx Hk Hallowed Hret Hp Hnotify Hnotin. cbv zeta. intros Hov.
  rewrite (add_with_retention _ _ _ _ Hc Hk).
  unfold_monad.
  rewrite (KObject_add_accepts obj_eq _ _ _ _ _ Hc Hx Hallowed), Hnotin.
  destruct (lookup_appended_container st c x oc ox Hc Hx)
    as (oc2 & Hc2 & Hret2 & _ & Hch2).
  unfold apply_retention. unfold_monad.
  rewrite (get_obj_run _ _ _ Hc2), Hret2, Hret.
  assert (Hp2 : policies (appended c x st) !! p = Some pol)
    by (by rewrite policies_appended).
  rewrite (apply_object _ _ _ _ _ Hc2 Hp2), Hch2.
  destruct (applied_overflow p c pol (children_of st c ++ [x])
              (appended c x st) oc2 Hc2 Hp2 Hov)
    as (Hch' & _ & Hpar' & _ & Hout & _).
  rewrite Hnotify in Hout.
  destruct (applied p c pol _ _) as [st' out]. simpl in *. subst out.
  simpl. split; [done|]. split; [done|]. split.
  - rewrite Hpar', (parent_of_appended _ _ _ _ _ _ Hc Hx).
    by rewrite decide_True.
  - intros Hmax.
    destruct (split_children_length (prune_from pol)
                (Z.of_nat (length (children_of st c ++ [x])) - max_size pol)
                (children_of st c ++ [x])) as [Hv Hs]; [lia|].
    split; [done|]. rewrite Hs. f_equal. lia.
Qed.

End RetentionOnInsert.

(** ** The containment invariant *)

Lemma containment_ext st st' :
  (forall a, parent_of st' a = parent_of st a) ->
  (forall a, children_of st' a = children_of st a) ->
  containment st -> containment st'.
Proof.
  intros Hp Hc [Hiff Hnd]. split.
  - intros c x. by rewrite Hp, Hc.
  - intros c. by rewrite Hc.
Qed.

Lemma children_of_setdefault st c d :
  children_of (upd c setdefault_children st) d = children_of st d.
Proof.
  rewrite children_of_upd. destruct (decide (d = c)) as [->|]; [|done].
  unfold children_of. destruct (objects st !! c) as [[? ? ? [l|]]|]; done.
Qed.

Lemma parent_of_setdefault st c y :
  parent_of (upd c setdefault_children st) y = parent_of st y.
Proof. apply parent_of_upd_children. by intros []. Qed.

Section ContainmentFacts.

Variable obj_eq : store -> addr -> addr -> bool.

Lemma py_in_false_not_elem st x l : py_in obj_eq st x l = false -> x ∉ l.
Proof.
  intros Hin Hx. unfold py_in in Hin.
  assert (existsb (fun e => bool_decide (e = x) || obj_eq st e x) l = true)
    as Htrue; [|congruence].
  apply existsb_exists. exists x. split; [by apply list_elem_of_In|].
  by rewrite bool_decide_true.
Qed.

Lemma KObject_add_stuck st c x :
  objects st !! c = None \/ objects st !! x = None ->
  KObject_add obj_eq c x st = (st, Stuck).
Proof.
  intros Hnone. unfold KObject_add, get_obj. unfold_monad.
  destruct (objects st !! c); [|done].
  destruct Hnone as [|Hx]; [done|]. by rewrite Hx.
Qed.

(** Without a policy the overrides add nothing to [KObject.__add__]. *)
Lemma retention_none_skipped st c x arg :
  (forall oc, objects st !! c = Some oc -> retention oc = None) ->
  (result ← KObject_add obj_eq c x; apply_retention c arg;; ret result) st
  = KObject_add obj_eq c x st.
Proof.
  intros Hnone. unfold_monad.
  destruct (objects st !! c) as [oc|] eqn:Hc;
    [|by rewrite KObject_add_stuck by auto].
  destruct (objects st !! x) as [ox|] eqn:Hx;
    [|by rewrite KObject_add_stuck by auto].
  destruct (decide (cls ox ∈ allowed_children (cls oc))) as [Hin|Hout];
    [|by rewrite (KObject_add_rejects obj_eq _ _ _ _ _ Hc Hx Hout)].
  assert (forall st',
             (exists oc', objects st' !! c = Some oc' /\ retention oc' = None) ->
             apply_retention c arg st' = (st', Return tt)) as Hskip.
  { intros st' (oc' & Hc' & Hr'). unfold apply_retention. unfold_monad.
    by rewrite (get_obj_run _ _ _ Hc'), Hr'. }
  rewrite (KObject_add_accepts obj_eq _ _ _ _ _ Hc Hx Hin).
  destruct (py_in obj_eq _ x _).
  - rewrite Hskip; [done|]. exists (setdefault_children oc).
    rewrite lookup_upd_eq, Hc. split; [done|].
    rewrite <- (Hnone oc eq_refl). by destruct oc.
  - destruct (lookup_appended_container st c x oc ox Hc Hx)
      as (oc2 & Hc2 & Hret2 & _).
    rewrite Hskip; [done|]. exists oc2. split; [done|].
    by rewrite Hret2, (Hnone oc eq_refl).
Qed.

Lemma add_without_retention st c x :
  (forall oc, objects st !! c = Some oc -> retention oc = None) ->
  add obj_eq c x st = KObject_add obj_eq c x st.
Proof.
  intros Hnone.
  pose proof (retention_none_skipped st c x (fun _ => ArgObject c) Hnone)
    as Hobject.
  pose proof (retention_none_skipped st c x
                (fun s => ArgList (default [] (children s))) Hnone) as Hlist.
  unfold add. destruct (objects st !! c) as [oc|] eqn:Hc.
  - unfold mbind, M_bind, bind at 1. rewrite (get_obj_run _ _ _ Hc).
    unfold Branch_add, Tree_add, Node_add, Layer_add, Matrix_add.
    by destruct (cls oc).
  - unfold_monad. unfold get_obj. rewrite Hc.
    by rewrite KObject_add_stuck by auto.
Qed.

Lemma KObject_add_containment st c x :
  containment st ->
  parent_of st x = None \/ parent_of st x = Some c ->
  containment (KObject_add obj_eq c x st).1.
Proof.
  intros Hwf Hpar.
  destruct (objects st !! c) as [oc|] eqn:Hc;
    [|by rewrite KObject_add_stuck by auto].
  destruct (objects st !! x) as [ox|] eqn:Hx;
    [|by rewrite KObject_add_stuck by auto].
  destruct (decide (cls ox ∈ allowed_children (cls oc))) as [Hin|Hout];
    [|by rewrite (KObject_add_rejects obj_eq _ _ _ _ _ Hc Hx Hout)].
  rewrite (KObject_add_accepts obj_eq _ _ _ _ _ Hc Hx Hin).
  destruct (py_in obj_eq _ x _) eqn:Hpyin; simpl.
  - eapply containment_ext; [| |exact Hwf].
    + intros a. apply parent_of_setdefault.
    + intros a. apply children_of_setdefault.
  - apply py_in_false_not_elem in Hpyin.
    destruct Hwf as [Hiff Hnd]. split.
    + intros c' y.
      rewrite (parent_of_appended _ _ _ _ _ _ Hc Hx).
      rewrite (children_of_appended _ _ _ _ _ _ Hc Hx).
      destruct (decide (y = x)) as [->|Hy], (decide (c' = c)) as [->|Hc'].
      * split; [intros _; apply elem_of_app; right; by left|done].
      * split; [congruence|]. intros Hmem%Hiff.
        destruct Hpar; congruence.
      * rewrite Hiff, elem_of_app, list_elem_of_singleton. tauto.
      * apply Hiff.
    + intros c'. rewrite (children_of_appended _ _ _ _ _ _ Hc Hx).
      destruct (decide (c' = c)) as [->|]; [|apply Hnd].
      apply NoDup_app. split; [apply Hnd|]. split; [|apply NoDup_singleton].
      intros y Hy ->%list_elem_of_singleton. done.
Qed.

End ContainmentFacts.

Section DecomposeFacts.

Variable obj_eq : store -> addr -> addr -> bool.

Lemma py_remove_first st x l :
  x ∈ l ->
  (forall e, e ∈ l -> e ≠ x -> obj_eq st e x = false) ->
  exists l1 l2, l = l1 ++ x :: l2 /\ (x ∉ l1)
                /\ py_remove obj_eq st x l = Some (l1 ++ l2).
Proof.
  induction l as [|e l IH]; intros Hin Hne; [by apply elem_of_nil in Hin|].
  simpl. destruct (decide (e = x)) as [->|Hex].
  - rewrite bool_decide_true by done. simpl.
    exists [], l. split; [done|]. split; [apply not_elem_of_nil|done].
  - rewrite bool_decide_false by done.
    rewrite (Hne e); [|by left|done]. simpl.
    apply elem_of_cons in Hin as [Hin|Hin]; [congruence|].
    destruct (IH Hin) as (l1 & l2 & -> & Hnot & ->).
    { intros e' He'. apply Hne. by right. }
    exists (e :: l1), l2. split; [done|]. split; [|done].
    apply not_elem_of_cons. split; [congruence|done].
Qed.

Lemma py_remove_some st x l rest :
  py_remove obj_eq st x l = Some rest ->
  exists l1 e l2, l = l1 ++ e :: l2 /\ rest = l1 ++ l2.
Proof.
  revert rest. induction l as [|e l IH]; intros rest; [done|]. simpl.
  destruct (bool_decide (e = x) || obj_eq st e x).
  - intros [= <-]. by exists [], e, l.
  - destruct (py_remove obj_eq st x l) as [rest'|]; [|done].
    intros [= <-]. destruct (IH rest' eq_refl) as (l1 & e' & l2 & -> & ->).
    by exists (e :: l1), e', l2.
Qed.

Lemma KObject_sub_skips st c x :
  parent_of st x ≠ Some c ->
  KObject_sub obj_eq c x st
  = (st, match objects st !! x with
         | Some _ => Return x
         | None => Stuck
         end).
Proof.
  intros Hpar. unfold KObject_sub, get_obj. unfold_monad.
  unfold parent_of in Hpar.
  destruct (objects st !! x) as [ox|]; [|done]. simpl in Hpar.
  by rewrite bool_decide_false.
Qed.

Lemma KObject_sub_detaches st c x :
  parent_of st x = Some c ->
  KObject_sub obj_eq c x st
  = match py_remove obj_eq (detached x st) x (children_of st c) with
    | Some rest =>
        (upd c (with_children (Some rest)) (detached x st), Return x)
    | None =>
        (detached x st, Raise (ValueError "list.remove(x): x not in list"))
    end.
Proof.
  intros Hpar. unfold KObject_sub. unfold_monad.
  unfold parent_of in Hpar.
  destruct (objects st !! x) as [ox|] eqn:Hx; [|done]. simpl in Hpar.
  rewrite (get_obj_run _ _ _ Hx), bool_decide_true by done.
  rewrite (update_obj_run _ _ _ _ Hx). fold (detached x st).
  assert (Hch : children_of (detached x st) c = children_of st c)
    by apply children_of_upd_parent.
  rewrite Hch.
  destruct (py_remove obj_eq (detached x st) x (children_of st c))
    as [rest|] eqn:Hrm; [|done].
  assert (is_Some (objects st !! c)) as [oc Hc].
  { apply py_remove_some in Hrm as (l1 & e & l2 & Hl & _).
    unfold children_of in Hl.
    destruct (objects st !! c); [eauto|]. by destruct l1. }
  assert (is_Some (objects (detached x st) !! c)) as [oc' Hc'].
  { unfold detached. rewrite lookup_upd.
    destruct (decide (c = x)); rewrite Hc; eauto. }
  by rewrite (update_obj_run _ _ _ _ Hc').
Qed.

Lemma KObject_sub_containment st c x :
  containment st ->
  (forall e, e ∈ children_of st c -> e ≠ x ->
             obj_eq (detached x st) e x = false) ->
  containment (KObject_sub obj_eq c x st).1.
Proof.
  intros Hwf Hfirst.
  destruct (decide (parent_of st x = Some c)) as [Hpar|Hpar];
    [|by rewrite KObject_sub_skips].
  rewrite (KObject_sub_detaches _ _ _ Hpar).
  destruct Hwf as [Hiff Hnd].
  pose proof (proj1 (Hiff c x) Hpar) as Hmem.
  destruct (py_remove_first (detached x st) x _ Hmem Hfirst)
    as (l1 & l2 & Hl & Hnot1 & ->). simpl.
  pose proof (Hnd c) as Hndc. rewrite Hl in Hndc.
  apply NoDup_app in Hndc as (Hnd1 & Hdisj & Hnd2).
  apply NoDup_cons in Hnd2 as [Hnot2 Hnd2].
  assert (Hpar' : forall y,
             parent_of (upd c (with_children (Some (l1 ++ l2)))
                             (detached x st)) y
             = if decide (y = x) then None else parent_of st y).
  { intros y. rewrite parent_of_upd_children by (by intros []).
    unfold detached. rewrite parent_of_upd_parent.
    destruct (decide (y = x)) as [->|]; [|done].
    unfold parent_of in Hpar. by destruct (objects st !! x). }
  assert (Hch' : forall d,
             children_of (upd c (with_children (Some (l1 ++ l2)))
                               (detached x st)) d
             = if decide (d = c) then l1 ++ l2 else children_of st d).
  { intros d. rewrite children_of_upd.
    destruct (decide (d = c)) as [->|].
    - unfold detached. rewrite lookup_upd.
      assert (is_Some (objects st !! c)) as [oc Hc].
      { unfold children_of in Hl.
        destruct (objects st !! c); [eauto|]. by destruct l1. }
      destruct (decide (c = x)); by rewrite Hc.
    - apply children_of_upd_parent. }
  split.
  - intros c' y. rewrite Hpar', Hch'.
    destruct (decide (y = x)) as [->|Hy], (decide (c' = c)) as [->|Hc'].
    + split; [done|]. intros [?|?]%elem_of_app; done.
    + split; [done|]. intros Hx%Hiff. congruence.
    + rewrite Hiff, Hl, !elem_of_app, elem_of_cons. naive_solver.
    + apply Hiff.
  - intros d. rewrite Hch'. destruct (decide (d = c)); [|apply Hnd].
    apply NoDup_app. split; [done|]. split; [|done].
    intros y Hy1 Hy2. apply (Hdisj y Hy1). by right.
Qed.

End DecomposeFacts.

(** ** What composition leaves alone *)

Lemma frame_refl c x st : frame c x st st.
Proof. by repeat split. Qed.

Lemma frame_trans c x st1 st2 st3 :
  frame c x st1 st2 -> frame c x st2 st3 -> frame c x st1 st3.
Proof.
  intros (Hi & Hp & Hc) (Hi' & Hp' & Hc'). repeat split.
  - intros b. by rewrite Hi', Hi.
  - intros b Hb. by rewrite Hp', Hp.
  - intros d Hd. by rewrite Hc', Hc.
Qed.

Lemma frame_objects c x st st' : objects st' = objects st -> frame c x st st'.
Proof.
  intros Ho. unfold frame, agree, parent_of, children_of. rewrite Ho. done.
Qed.

Lemma frame_upd_children c x f st :
  same_identity f -> (forall o, parent (f o) = parent o) ->
  frame c x st (upd c f st).
Proof.
  intros Hf Hpar. repeat split.
  - intros b. rewrite lookup_upd. destruct (decide (b = c)); [|done].
    destruct (objects st !! b) as [o|]; [|done]. simpl. unfold identity_of.
    destruct (Hf o) as (-> & -> & -> & -> & ->). done.
  - intros b _. by apply parent_of_upd_children.
  - intros d Hd. rewrite children_of_upd. by rewrite decide_False.
Qed.

Lemma frame_upd_parent c x q st : frame c x st (upd x (with_parent q) st).
Proof.
  repeat split.
  - intros b. rewrite lookup_upd. destruct (decide (b = x)); [|done].
    by destruct (objects st !! b) as [[]|].
  - intros b Hb. rewrite parent_of_upd_parent. by rewrite decide_False.
  - intros d _. apply children_of_upd_parent.
Qed.

Lemma frame_appended c x st : frame c x st (appended c x st).
Proof.
  unfold appended.
  eapply frame_trans; [|apply frame_upd_children; [apply same_identity_append|by intros []]].
  eapply frame_trans; [|apply frame_upd_parent].
  apply frame_upd_children; [apply same_identity_setdefault|by intros []].
Qed.

Lemma frame_applied c x p pol l st : frame c x st (applied p c pol l st).1.
Proof.
  unfold applied. destruct (_ <=? 0); [apply frame_refl|].
  set (st1 := match prune_type pol with
              | DISCARD => retain p _ st
              | DESTROY => st
              end).
  assert (frame c x st st1) as H1.
  { unfold st1. destruct (prune_type pol); [|apply frame_refl].
    apply frame_objects, objects_retain. }
  assert (frame c x st (upd c (with_children
            (Some (split_children (prune_from pol)
                     (Z.of_nat (length l) - max_size pol) l).2)) st1)) as H2.
  { eapply frame_trans; [exact H1|].
    apply frame_upd_children; [apply same_identity_with_children|by intros []]. }
  destruct (notify pol); simpl; try done.
  destruct (callback pol); simpl; [|done].
  eapply frame_trans; [exact H2|]. by apply frame_objects.
Qed.

Lemma frame_apply c x p arg st :
  (arg = ArgObject c \/ exists l, arg = ArgList l) ->
  frame c x st (apply p arg st).1.
Proof.
  intros [->|[l ->]]; [|apply frame_refl].
  destruct (objects st !! c) as [oc|] eqn:Hc.
  2:{ unfold apply, get_obj. unfold_monad. rewrite Hc. apply frame_refl. }
  destruct (policies st !! p) as [pol|] eqn:Hp.
  2:{ unfold apply, get_policy. unfold_monad.
      rewrite (get_obj_run _ _ _ Hc), Hp. apply frame_refl. }
  rewrite (apply_object _ _ _ _ _ Hc Hp). apply frame_applied.
Qed.

Lemma frame_apply_retention c x arg st :
  (forall s, arg s = ArgObject c \/ exists l, arg s = ArgList l) ->
  frame c x st (apply_retention c arg st).1.
Proof.
  intros Harg. unfold apply_retention, get_obj. unfold_monad.
  destruct (objects st !! c) as [oc|]; [|apply frame_refl].
  destruct (retention oc) as [p|]; [|apply frame_refl].
  by apply frame_apply.
Qed.

Section FrameFacts.

Variable obj_eq : store -> addr -> addr -> bool.

Lemma frame_KObject_add c x st :
  frame c x st (KObject_add obj_eq c x st).1.
Proof.
  destruct (objects st !! c) as [oc|] eqn:Hc;
    [|rewrite KObject_add_stuck by auto; apply frame_refl].
  destruct (objects st !! x) as [ox|] eqn:Hx;
    [|rewrite KObject_add_stuck by auto; apply frame_refl].
  destruct (decide (cls ox ∈ allowed_children (cls oc))) as [Hin|Hout];
    [|rewrite (KObject_add_rejects obj_eq _ _ _ _ _ Hc Hx Hout);
      apply frame_refl].
  rewrite (KObject_add_accepts obj_eq _ _ _ _ _ Hc Hx Hin).
  destruct (py_in obj_eq _ x _); simpl.
  - apply frame_upd_children; [apply same_identity_setdefault|by intros []].
  - apply frame_appended.
Qed.

Lemma frame_add c x st : frame c x st (add obj_eq c x st).1.
Proof.
  assert (forall arg,
             (forall s, arg s = ArgObject c \/ exists l, arg s = ArgList l) ->
             frame c x st
               ((result ← KObject_add obj_eq c x;
                 apply_retention c arg;; ret result) st).1) as Hboth.
  { intros arg Harg. unfold_monad.
    pose proof (frame_KObject_add c x st) as H1.
    destruct (KObject_add obj_eq c x st) as [st1 [r|e|]]; simpl in *;
      try done.
    pose proof (frame_apply_retention c x arg st1 Harg) as H2.
    destruct (apply_retention c arg st1) as [st2 [?|?|]]; simpl in *;
      by eapply frame_trans. }
  unfold add, get_obj. unfold_monad.
  destruct (objects st !! c) as [oc|]; [|apply frame_refl].
  destruct (cls oc); try apply frame_KObject_add.
  - apply (Hboth (fun _ => ArgObject c)). auto.
  - apply (Hboth (fun _ => ArgObject c)). auto.
  - apply (Hboth (fun _ => ArgObject c)). auto.
  - apply (Hboth (fun _ => ArgObject c)). auto.
  - apply (Hboth (fun s => ArgList (default [] (children s)))). eauto.
Qed.

Lemma frame_KObject_sub c x st :
  frame c x st (KObject_sub obj_eq c x st).1.
Proof.
  destruct (decide (parent_of st x = Some c)) as [Hpar|Hpar];
    [|rewrite KObject_sub_skips by done; apply frame_refl].
  rewrite (KObject_sub_detaches _ _ _ _ Hpar).
  destruct (py_remove _ _ _ _); simpl.
  - eapply frame_trans; [apply frame_upd_parent|].
    apply frame_upd_children; [apply same_identity_with_children|by intros []].
  - apply frame_upd_parent.
Qed.

End FrameFacts.

(** ** The texts the hashes digest *)

Local Open Scope nat_scope.


Lemma string_app_cons ch (a b : string) :
  String ch a +:+ b = String ch (a +:+ b).
Proof. done. Qed.

Lemma string_length_app (a b : string) :
  String.length (a +:+ b) = String.length a + String.length b.
Proof.
  induction a as [|ch a IH]; [done|].
  rewrite string_app_cons. simpl. by rewrite IH.
Qed.

Lemma string_app_nil_r (a : string) : a +:+ EmptyString = a.
Proof.
  induction a as [|ch a IH]; [done|]. by rewrite string_app_cons, IH.
Qed.

Lemma string_app_assoc (a b c : string) : (a +:+ b) +:+ c = a +:+ b +:+ c.
Proof.
  induction a as [|ch a IH]; [done|]. by rewrite !string_app_cons, IH.
Qed.

Lemma length_string_of_list_ascii l :
  String.length (String.string_of_list_ascii l) = length l.
Proof. induction l as [|ch l IH]; simpl; [done|]. by rewrite IH. Qed.

Lemma repr_str_length s : 2 <= String.length (Py.repr_str s).
Proof.
  unfold Py.repr_str. rewrite length_string_of_list_ascii.
  rewrite !length_app. simpl. lia.
Qed.

Lemma join_length sep l :
  String.length (Py.join sep l)
  = sum_list (String.length <$> l) + String.length sep * pred (length l).
Proof.
  induction l as [|x [|y l] IH]; simpl in *; [lia|lia|].
  rewrite !string_length_app, IH. simpl. lia.
Qed.

Lemma str_list_length l :
  String.length (Py.str_list l)
  = 2 + sum_list (String.length <$> (Py.repr_str <$> l)) + 2 * pred (length l).
Proof.
  unfold Py.str_list. rewrite !string_length_app, join_length.
  rewrite length_fmap.
  change (String.length "[") with 1. change (String.length "]") with 1.
  change (String.length ", ") with 2.
  change (map Py.repr_str l) with (Py.repr_str <$> l). lia.
Qed.

Lemma str_list_extra_longer ids1 i ids2 :
  String.length (Py.str_list (ids1 ++ ids2))
  < String.length (Py.str_list (ids1 ++ i :: ids2)).
Proof.
  rewrite !str_list_length, !fmap_app, !fmap_cons, !sum_list_with_app.
  rewrite !length_app. generalize (repr_str_length i).
  generalize (Py.repr_str i). intros r Hr. simpl. lia.
Qed.

Lemma hash_input_container st c oc :
  objects st !! c = Some oc -> cls oc ≠ Leaf ->
  hash_input st c
  = ids ← ids_of st (hashed_children st oc);
    post ← hash_suffix st oc;
    Some (hash_prefix oc +:+ Py.str_list ids +:+ post).
Proof.
  intros Hc Hk. unfold hash_input, hashed_children, hash_prefix, hash_suffix.
  rewrite Hc. simpl.
  destruct (cls oc); try done.
  all: try (destruct (ids_of st _) as [ids|]; simpl; [|done];
            destruct (parent_id st oc) as [pid|]; simpl; [|done];
            by rewrite !string_app_assoc).
  all: destruct (ids_of st _) as [ids|]; simpl; [|done];
    by rewrite ?string_app_assoc, ?string_app_nil_r.
Qed.

Lemma ids_of_agree st1 st2 l :
  (forall b, identity_of <$> objects st2 !! b = identity_of <$> objects st1 !! b) ->
  ids_of st2 l = ids_of st1 l.
Proof.
  intros Hid. unfold ids_of. apply mapM_ext. intros a.
  specialize (Hid a).
  destruct (objects st2 !! a) as [[]|], (objects st1 !! a) as [[]|];
    unfold identity_of in *; simpl in *; congruence.
Qed.

Lemma class_of_agree st1 st2 a :
  (forall b, identity_of <$> objects st2 !! b = identity_of <$> objects st1 !! b) ->
  class_of st2 a = class_of st1 a.
Proof.
  intros Hid. unfold class_of. specialize (Hid a).
  destruct (objects st2 !! a) as [[]|], (objects st1 !! a) as [[]|];
    unfold identity_of in *; simpl in *; congruence.
Qed.

Lemma parent_id_agree st1 st2 o1 o2 :
  (forall b, identity_of <$> objects st2 !! b = identity_of <$> objects st1 !! b) ->
  parent o2 = parent o1 ->
  parent_id st2 o2 = parent_id st1 o1.
Proof.
  intros Hid Hpar. unfold parent_id. rewrite Hpar.
  destruct (parent o1) as [p|]; [|done]. specialize (Hid p).
  destruct (objects st2 !! p) as [[]|], (objects st1 !! p) as [[]|];
    unfold identity_of in *; simpl in *; congruence.
Qed.

Lemma ids_of_app st l1 l2 :
  ids_of st (l1 ++ l2)
  = a ← ids_of st l1; b ← ids_of st l2; Some (a ++ b).
Proof.
  unfold ids_of. induction l1 as [|x l1 IH]; simpl.
  - by destruct (mapM _ l2).
  - destruct (objects st !! x) as [o|]; simpl; [|done].
    rewrite IH. destruct (mapM _ l1); simpl; [|done].
    by destruct (mapM _ l2).
Qed.

Lemma ids_of_cons st x l :
  ids_of st (x :: l)
  = i ← obj_id <$> objects st !! x; b ← ids_of st l; Some (i :: b).
Proof. done. Qed.

Lemma agree_lookup st1 st2 c o1 o2 :
  agree st1 st2 -> objects st1 !! c = Some o1 -> objects st2 !! c = Some o2 ->
  identity_of o2 = identity_of o1.
Proof.
  intros Hid H1 H2. specialize (Hid c). rewrite H1, H2 in Hid.
  simpl in Hid. congruence.
Qed.

Lemma hash_prefix_agree o1 o2 :
  identity_of o2 = identity_of o1 -> hash_prefix o2 = hash_prefix o1.
Proof.
  intros Ho. unfold identity_of in Ho. unfold hash_prefix.
  assert (cls o2 = cls o1) as -> by congruence.
  assert (data o2 = data o1) as -> by congruence.
  assert (name o2 = name o1) as -> by congruence.
  done.
Qed.

Lemma hash_suffix_agree st1 st2 o1 o2 :
  agree st1 st2 -> identity_of o2 = identity_of o1 -> parent o2 = parent o1 ->
  hash_suffix st2 o2 = hash_suffix st1 o1.
Proof.
  intros Hid Ho Hpar. unfold hash_suffix.
  rewrite (parent_id_agree st1 st2 o1 o2 Hid Hpar).
  assert (cls o2 = cls o1) as -> by (unfold identity_of in Ho; congruence).
  done.
Qed.

Lemma hash_input_extra_child st1 st2 c o1 o2 x h1 h2 :
  agree st1 st2 ->
  objects st1 !! c = Some o1 -> objects st2 !! c = Some o2 ->
  parent o2 = parent o1 -> cls o1 ≠ Leaf ->
  hashed_children st1 o1 = h1 ++ h2 ->
  hashed_children st2 o2 = h1 ++ x :: h2 ->
  is_Some (objects st1 !! x) ->
  is_Some (hash_input st1 c) \/ is_Some (hash_input st2 c) ->
  hash_input st1 c ≠ hash_input st2 c.
Proof.
  intros Hid H1 H2 Hpar Hk Hh1 Hh2 [ox Hx] Hsome.
  pose proof (agree_lookup _ _ _ _ _ Hid H1 H2) as Ho.
  assert (cls o2 ≠ Leaf) as Hk2 by (unfold identity_of in Ho; congruence).
  rewrite (hash_input_container _ _ _ H1 Hk) in *.
  rewrite (hash_input_container _ _ _ H2 Hk2) in *.
  rewrite (hash_prefix_agree _ _ Ho), (hash_suffix_agree _ _ _ _ Hid Ho Hpar) in *.
  rewrite Hh1, Hh2, (ids_of_agree st1 st2) in * by done.
  rewrite !ids_of_app, ids_of_cons, Hx in *. simpl in *.
  destruct (ids_of st1 h1) as [a|]; simpl in *;
    [|destruct Hsome as [[? ?]|[? ?]]; done].
  destruct (ids_of st1 h2) as [b|]; simpl in *;
    [|destruct Hsome as [[? ?]|[? ?]]; done].
  destruct (hash_suffix st1 o1) as [post|]; simpl in *;
    [|destruct Hsome as [[? ?]|[? ?]]; done].
  intros [= Heq]. apply (f_equal String.length) in Heq.
  rewrite !string_length_app in Heq.
  pose proof (str_list_extra_longer a (obj_id ox) b). lia.
Qed.

Lemma shash_agree st1 st2 c o1 :
  agree st1 st2 -> objects st1 !! c = Some o1 -> cls o1 ≠ Net ->
  shash st2 c = shash st1 c.
Proof.
  intros Hid H1 Hk. pose proof (Hid c) as Hc. rewrite H1 in Hc.
  unfold shash. rewrite H1.
  destruct (objects st2 !! c) as [o2|]; [|done].
  injection Hc as Ho. unfold identity_of in Ho. simpl.
  assert (cls o2 = cls o1) as -> by congruence.
  assert (data o2 = data o1) as -> by congruence.
  assert (obj_id o2 = obj_id o1) as -> by congruence.
  assert (name o2 = name o1) as -> by congruence.
  by destruct (cls o1).
Qed.

Lemma frame_agree c x st st' : frame c x st st' -> agree st st'.
Proof. by intros [? _]. Qed.

Lemma agree_sym st1 st2 : agree st1 st2 -> agree st2 st1.
Proof. intros Hid b. by rewrite Hid. Qed.

Lemma layers_agree st1 st2 o1 o2 :
  agree st1 st2 -> children o2 = children o1 -> layers st2 o2 = layers st1 o1.
Proof.
  intros Hid Hch. unfold layers. rewrite Hch.
  apply list_filter_iff. intros a. by rewrite (class_of_agree st1 st2).
Qed.

Lemma hash_differs st1 st2 c :
  hash_input st1 c ≠ hash_input st2 c ->
  no_collision (hash_input st1 c) (hash_input st2 c) ->
  hash st1 c ≠ hash st2 c.
Proof. unfold hash, no_collision. auto. Qed.

Lemma hashed_children_split st st' o o' l1 l2 x ox :
  agree st st' ->
  cls o' = cls o ->
  default [] (children o) = l1 ++ l2 ->
  default [] (children o') = l1 ++ x :: l2 ->
  objects st !! x = Some ox ->
  (cls o = Matrix -> cls ox = Layer) ->
  exists h1 h2, hashed_children st o = h1 ++ h2
                /\ hashed_children st' o' = h1 ++ x :: h2.
Proof.
  intros Hid Hk H1 H2 Hx Hlayer. unfold hashed_children. rewrite Hk.
  destruct (decide (cls o = Matrix)) as [HM|HM].
  - rewrite HM. unfold layers. rewrite H1, H2.
    exists (filter (fun a => class_of st a = Some Layer) l1),
           (filter (fun a => class_of st a = Some Layer) l2).
    rewrite !filter_app. split; [done|].
    rewrite filter_cons_True.
    2:{ rewrite (class_of_agree st st') by done. unfold class_of.
        rewrite Hx. simpl. by rewrite Hlayer. }
    f_equal; [|f_equal]; apply list_filter_iff; intros a;
      by rewrite (class_of_agree st st').
  - exists l1, l2. by destruct (cls o).
Qed.

Lemma children_of_lookup st c o :
  objects st !! c = Some o -> children_of st c = default [] (children o).
Proof. intros Hc. unfold children_of. by rewrite Hc. Qed.

Lemma parent_of_lookup st c o :
  objects st !! c = Some o -> parent_of st c = parent o.
Proof. intros Hc. unfold parent_of. by rewrite Hc. Qed.

Lemma frame_lookup c x st st' b o :
  frame c x st st' -> objects st !! b = Some o ->
  exists o', objects st' !! b = Some o' /\ identity_of o' = identity_of o.
Proof.
  intros [Hid _] Hb. specialize (Hid b). rewrite Hb in Hid.
  destruct (objects st' !! b) as [o'|]; [|done].
  exists o'. split; [done|]. simpl in Hid. congruence.
Qed.

(** ** Composition under a policy that has room *)

Section RoomFacts.

Variable obj_eq : store -> addr -> addr -> bool.

Lemma policies_KObject_add c x st :
  policies (KObject_add obj_eq c x st).1 = policies st.
Proof.
  destruct (objects st !! c) as [oc|] eqn:Hc;
    [|by rewrite KObject_add_stuck by auto].
  destruct (objects st !! x) as [ox|] eqn:Hx;
    [|by rewrite KObject_add_stuck by auto].
  destruct (decide (cls ox ∈ allowed_children (cls oc))) as [Hin|Hout];
    [|by rewrite (KObject_add_rejects obj_eq _ _ _ _ _ Hc Hx Hout)].
  rewrite (KObject_add_accepts obj_eq _ _ _ _ _ Hc Hx Hin).
  destruct (py_in obj_eq _ x _); simpl.
  - apply policies_upd.
  - apply policies_appended.
Qed.

(** What [+] returns is the child. *)
Lemma KObject_add_value c x st st1 r :
  KObject_add obj_eq c x st = (st1, Return r) -> r = x.
Proof.
  destruct (objects st !! c) as [oc|] eqn:Hc;
    [|by rewrite KObject_add_stuck by auto].
  destruct (objects st !! x) as [ox|] eqn:Hx;
    [|by rewrite KObject_add_stuck by auto].
  destruct (decide (cls ox ∈ allowed_children (cls oc))) as [Hin|Hout];
    [|by rewrite (KObject_add_rejects obj_eq _ _ _ _ _ Hc Hx Hout)].
  rewrite (KObject_add_accepts obj_eq _ _ _ _ _ Hc Hx Hin).
  destruct (py_in obj_eq _ x _); congruence.
Qed.

(** [apply] on a container within its bound returns at once. *)
Lemma apply_within_bound st p c oc pol :
  objects st !! c = Some oc -> policies st !! p = Some pol ->
  (Z.of_nat (length (children_of st c)) <= max_size pol)%Z ->
  apply p (ArgObject c) st = (st, Return tt).
Proof.
  intros Hc Hp Hle. rewrite (apply_object _ _ _ _ _ Hc Hp).
  rewrite <- (children_of_lookup _ _ _ Hc). unfold applied.
  by rewrite (proj2 (Z.leb_le _ _)) by lia.
Qed.

(** The policy of [c], where its class hands the container to [apply] once
    [KObject.__add__] has returned, has room for the children [c] has by
    then. *)
Lemma add_within_bound st c x :
  (forall oc p pol,
      objects st !! c = Some oc -> cls oc ∈ [Branch; Tree; Node; Layer] ->
      retention oc = Some p -> policies st !! p = Some pol ->
      (KObject_add obj_eq c x st).2 = Return x ->
      (Z.of_nat (length (children_of (KObject_add obj_eq c x st).1 c))
       <= max_size pol)%Z) ->
  (add obj_eq c x st).1 = (KObject_add obj_eq c x st).1.
Proof.
  intros Hroom.
  destruct (objects st !! c) as [oc|] eqn:Hc.
  2:{ rewrite KObject_add_stuck by auto. unfold add, get_obj. unfold_monad.
      by rewrite Hc. }
  pose proof (frame_KObject_add obj_eq c x st) as Hfr.
  pose proof (policies_KObject_add c x st) as Hpol.
  specialize (Hroom oc).
  destruct (KObject_add obj_eq c x st) as [st1 out] eqn:Hadd. cbn [fst snd] in *.
  destruct (frame_lookup _ _ _ _ _ _ Hfr Hc) as (oc1 & Hc1 & Hid1).
  assert (retention oc1 = retention oc) as Hret
    by (unfold identity_of in Hid1; congruence).
  assert (forall arg,
             (forall s, arg s = ArgObject c) ->
             cls oc ∈ [Branch; Tree; Node; Layer] ->
             ((result ← KObject_add obj_eq c x;
               apply_retention c arg;; ret result) st).1 = st1) as Hobj.
  { intros arg Harg Hk. unfold_monad. rewrite Hadd.
    destruct out as [r| |]; [|done|done].
    unfold apply_retention. unfold_monad.
    rewrite (get_obj_run _ _ _ Hc1), Harg, Hret.
    destruct (retention oc) as [p|] eqn:Hp; [|done].
    destruct (policies st1 !! p) as [pol|] eqn:Hpp.
    - rewrite (apply_within_bound st1 p c oc1 pol Hc1 Hpp); [done|].
      apply (Hroom p pol); try done; [by rewrite <- Hpol|].
      by rewrite (KObject_add_value c x st st1 r Hadd).
    - unfold apply, get_policy. unfold_monad.
      by rewrite (get_obj_run _ _ _ Hc1), Hpp. }
  unfold add. unfold_monad. rewrite (get_obj_run _ _ _ Hc).
  destruct (cls oc) eqn:Hk.
  - by rewrite Hadd.
  - apply (Hobj (fun _ => ArgObject c)); [done|set_solver].
  - apply (Hobj (fun _ => ArgObject c)); [done|set_solver].
  - apply (Hobj (fun _ => ArgObject c)); [done|set_solver].
  - by rewrite Hadd.
  - apply (Hobj (fun _ => ArgObject c)); [done|set_solver].
  - unfold Matrix_add. unfold_monad. rewrite Hadd.
    destruct out as [r| |]; [|done|done].
    unfold apply_retention. unfold_monad.
    rewrite (get_obj_run _ _ _ Hc1).
    by destruct (retention oc1).
Qed.

End RoomFacts.


Lemma allowed_child_other_class k k' :
  k' ∈ allowed_children k -> k ≠ Leaf -> k' ≠ k.
Proof. destruct k; set_solver. Qed.

(** The hash of a [Leaf] lists no child: it moves only with the leaf's own
    data and parent. *)
Lemma Leaf_hash_frame c x st st' oc :
  frame c x st st' -> x ≠ c -> objects st !! c = Some oc -> cls oc = Leaf ->
  hash st' c = hash st c.
Proof.
  intros Hfr Hxc Hc Hk.
  destruct (frame_lookup _ _ _ _ _ _ Hfr Hc) as (oc' & Hc' & Hid').
  assert (parent oc' = parent oc) as Hpar.
  { destruct Hfr as (_ & Hpar & _). specialize (Hpar c ltac:(done)).
    by rewrite (parent_of_lookup _ _ _ Hc'), (parent_of_lookup _ _ _ Hc)
      in Hpar. }
  unfold hash, hash_input. rewrite Hc, Hc'. simpl.
  assert (cls oc' = Leaf) as Hk' by (unfold identity_of in Hid'; congruence).
  assert (data oc' = data oc) as Hd by (unfold identity_of in Hid'; congruence).
  rewrite Hk, Hk', Hd.
  by rewrite (parent_id_agree st st' oc oc' (frame_agree _ _ _ _ Hfr) Hpar).
Qed.

(** C6, as the code has it.  An insert after which the children of the
    container are the old ones followed by the child, and a removal after
    which the child is gone from them, change the text the structural hash
    digests, hence the structural hash unless SHA-1 collides on the two
    texts, for every class but [Leaf], whose hash lists no child and stays
    as it was.  They leave the semantic hash as it was for every class but
    [Net], whose semantic hash is its structural hash and changes with
    it. *)
Theorem child_membership_hashes obj_eq st c x oc ox :
  objects st !! c = Some oc -> objects st !! x = Some ox ->
  cls ox ∈ allowed_children (cls oc) ->
  is_Some (hash st c) ->
  let moved st' :=
    (cls oc ≠ Leaf ->
     hash_input st' c ≠ hash_input st c
     /\ (no_collision (hash_input st' c) (hash_input st c) ->
         hash st' c ≠ hash st c))
    /\ (cls oc = Leaf -> x ≠ c -> hash st' c = hash st c)
    /\ (cls oc ≠ Net -> shash st' c = shash st c)
    /\ (cls oc = Net ->
        shash st' c = hash st' c /\ shash st c = hash st c
        /\ (no_collision (hash_input st' c) (hash_input st c) ->
            shash st' c ≠ shash st c)) in
  (children_of (add obj_eq c x st).1 c = children_of st c ++ [x] ->
   moved (add obj_eq c x st).1)
  /\ ((exists l1 l2, children_of st c = l1 ++ x :: l2
                     /\ children_of (KObject_sub obj_eq c x st).1 c = l1 ++ l2) ->
      moved (KObject_sub obj_eq c x st).1).
Proof.
  intros Hc Hx Hallowed Hhash. cbv zeta.
  assert (cls oc ≠ Leaf -> x ≠ c) as Hxc.
  { intros HnotLeaf ->. rewrite Hc in Hx. injection Hx as ->.
    by apply (allowed_child_other_class _ _ Hallowed). }
  assert (cls oc = Matrix -> cls ox = Layer) as Hlayer.
  { intros HM. rewrite HM in Hallowed. set_solver. }
  assert (is_Some (hash_input st c)) as Hin.
  { unfold hash in Hhash. by apply fmap_is_Some in Hhash. }
  assert (forall st',
             frame c x st st' ->
             exists oc', objects st' !! c = Some oc' /\ cls oc' = cls oc
                         /\ (x ≠ c -> parent oc' = parent oc))
    as Hframe.
  { intros st' Hfr.
    destruct (frame_lookup _ _ _ _ _ _ Hfr Hc) as (oc' & Hc' & Hid').
    exists oc'. split; [done|]. split.
    - unfold identity_of in Hid'. congruence.
    - intros Hne. destruct Hfr as (_ & Hpar & _).
      specialize (Hpar c ltac:(done)).
      by rewrite (parent_of_lookup _ _ _ Hc'), (parent_of_lookup _ _ _ Hc)
        in Hpar. }
  assert (forall st',
             frame c x st st' ->
             hash_input st' c ≠ hash_input st c ->
             (cls oc ≠ Leaf ->
              hash_input st' c ≠ hash_input st c
              /\ (no_collision (hash_input st' c) (hash_input st c) ->
                  hash st' c ≠ hash st c))
             /\ (cls oc ≠ Net -> shash st' c = shash st c)
             /\ (cls oc = Net ->
                 shash st' c = hash st' c /\ shash st c = hash st c
                 /\ (no_collision (hash_input st' c) (hash_input st c) ->
                     shash st' c ≠ shash st c)))
    as Hrest.
  { intros st' Hfr Hne.
    destruct (Hframe _ Hfr) as (oc' & Hc' & Hk' & _).
    split; [|split].
    - intros _. split; [done|]. intros Hnc. by apply hash_differs.
    - intros HnotNet.
      eapply shash_agree; [by eapply frame_agree|done|done].
    - intros HNet.
      assert (shash st' c = hash st' c) as H1.
      { unfold shash. rewrite Hc'. simpl. by rewrite Hk', HNet. }
      assert (shash st c = hash st c) as H2.
      { unfold shash. rewrite Hc. simpl. by rewrite HNet. }
      split; [done|]. split; [done|].
      intros Hnc. rewrite H1, H2. by apply hash_differs. }
  split.
  - intros Hch.
    pose proof (frame_add obj_eq c x st) as Hfr.
    destruct (Hframe _ Hfr) as (oc' & Hc' & Hk' & Hpar').
    destruct (decide (cls oc = Leaf)) as [HLeaf|HnotLeaf].
    { split; [done|]. split.
      - intros _ Hne. by apply (Leaf_hash_frame c x st _ oc).
      - split.
        + intros _. eapply shash_agree; [by eapply frame_agree|done|].
          by rewrite HLeaf.
        + by rewrite HLeaf. }
    assert (hash_input (add obj_eq c x st).1 c ≠ hash_input st c) as Hne.
    { intros Heq. symmetry in Heq. revert Heq.
      destruct (hashed_children_split st (add obj_eq c x st).1 oc oc'
                  (children_of st c) [] x ox) as (h1 & h2 & Hh1 & Hh2);
        try done.
      - by eapply frame_agree.
      - by rewrite app_nil_r, (children_of_lookup _ _ _ Hc).
      - by rewrite <- (children_of_lookup _ _ _ Hc'), Hch.
      - eapply (hash_input_extra_child st _ c oc oc' x h1 h2); eauto.
        by eapply frame_agree. }
    destruct (Hrest _ Hfr Hne) as (H1 & H2 & H3).
    split; [done|]. split; [done|]. by split.
  - intros (l1 & l2 & Hl & Hl').
    pose proof (frame_KObject_sub obj_eq c x st) as Hfr.
    destruct (Hframe _ Hfr) as (oc' & Hc' & Hk' & Hpar').
    destruct (decide (cls oc = Leaf)) as [HLeaf|HnotLeaf].
    { split; [done|]. split.
      - intros _ Hne. by apply (Leaf_hash_frame c x st _ oc).
      - split.
        + intros _. eapply shash_agree; [by eapply frame_agree|done|].
          by rewrite HLeaf.
        + by rewrite HLeaf. }
    assert (hash_input (KObject_sub obj_eq c x st).1 c ≠ hash_input st c)
      as Hne.
    { destruct (frame_lookup _ _ _ _ _ _ Hfr Hx) as (ox' & Hx' & Hidx).
      destruct (hashed_children_split (KObject_sub obj_eq c x st).1 st oc' oc
                  l1 l2 x ox') as (h1 & h2 & Hh1 & Hh2); try done.
      - by eapply agree_sym, frame_agree.
      - by rewrite <- (children_of_lookup _ _ _ Hc').
      - by rewrite <- (children_of_lookup _ _ _ Hc).
      - intros HM. rewrite Hk' in HM.
        unfold identity_of in Hidx. rewrite <- (Hlayer HM). congruence.
      - eapply (hash_input_extra_child _ st c oc' oc x h1 h2); eauto.
        + by eapply agree_sym, frame_agree.
        + symmetry. by apply Hpar', Hxc.
        + by rewrite Hk'. }
    destruct (Hrest _ Hfr Hne) as (H1 & H2 & H3).
    split; [done|]. split; [done|]. by split.
Qed.

Lemma hash_input_reattached c n st st' on :
  frame c n st st' -> n ≠ c -> objects st !! n = Some on ->
  shash st' n = shash st n
  /\ (cls on ∈ [Net; Layer; Matrix] -> hash st' n = hash st n)
  /\ (cls on ∈ [Leaf; Branch; Tree; Node] ->
      is_Some (hash_input st n) -> is_Some (hash_input st' n) ->
      (hash_input st' n = hash_input st n
       <-> parent_text st' n = parent_text st n)).
Proof.
  intros Hfr Hnc Hn.
  pose proof (frame_agree _ _ _ _ Hfr) as Hid.
  destruct (frame_lookup _ _ _ _ _ _ Hfr Hn) as (on' & Hn' & Hido).
  assert (cls on' = cls on) as Hk by (unfold identity_of in Hido; congruence).
  assert (data on' = data on) as Hd by (unfold identity_of in Hido; congruence).
  assert (default [] (children on') = default [] (children on)) as Hch.
  { destruct Hfr as (_ & _ & Hch). specialize (Hch n Hnc).
    by rewrite (children_of_lookup _ _ _ Hn'), (children_of_lookup _ _ _ Hn)
      in Hch. }
  assert (hashed_children st' on' = hashed_children st on) as Hh.
  { unfold hashed_children, layers. rewrite Hk, Hch.
    destruct (cls on); try done.
    apply list_filter_iff. intros a. by rewrite (class_of_agree st st'). }
  assert (cls on ≠ Leaf -> cls on ∉ [Branch; Tree; Node] ->
          hash_input st' n = hash_input st n) as Hsame.
  { intros HnL HnB.
    rewrite (hash_input_container _ _ _ Hn HnL).
    rewrite (hash_input_container _ _ _ Hn') by (by rewrite Hk).
    rewrite Hh, (ids_of_agree st st'), (hash_prefix_agree _ _ Hido) by done.
    unfold hash_suffix. rewrite Hk.
    destruct (cls on); try done; exfalso; apply HnB; set_solver. }
  split; [|split].
  - destruct (decide (cls on = Net)) as [HNet|HNet].
    + unfold shash, hash. rewrite Hn, Hn'. simpl. rewrite Hk, HNet.
      rewrite Hsame; [done|by rewrite HNet|rewrite HNet; set_solver].
    + by eapply shash_agree.
  - intros Hcls. unfold hash. rewrite Hsame; [done| |].
    + intros Heq. rewrite Heq in Hcls. set_solver.
    + intros Hin. destruct (cls on); set_solver.
  - intros Hcls Hsome Hsome'. unfold parent_text. rewrite Hn, Hn'. simpl.
    destruct (decide (cls on = Leaf)) as [HLeaf|HLeaf].
    + unfold hash_input in *. rewrite Hn in *. rewrite Hn' in *.
      simpl in *. rewrite Hk, HLeaf, Hd in *.
      destruct (parent_id st on) as [pid|]; [|by destruct Hsome].
      destruct (parent_id st' on') as [pid'|]; [|by destruct Hsome'].
      simpl. split.
      * intros [= Heq]. do 2 apply (inj (String.append _)) in Heq.
        by rewrite Heq.
      * by intros [= ->].
    + rewrite (hash_input_container _ _ _ Hn HLeaf) in *.
      rewrite (hash_input_container _ _ _ Hn') in * by (by rewrite Hk).
      rewrite Hh, (ids_of_agree st st'), (hash_prefix_agree _ _ Hido) in *
        by done.
      destruct (ids_of st (hashed_children st on)) as [ids|];
        [|by destruct Hsome].
      simpl in *. unfold hash_suffix in *. rewrite Hk in *.
      assert (cls on ∈ [Branch; Tree; Node]) as HB by set_solver.
      destruct (parent_id st on) as [pid|];
        [|destruct (cls on); try set_solver; by destruct Hsome].
      destruct (parent_id st' on') as [pid'|];
        [|destruct (cls on); try set_solver; by destruct Hsome'].
      destruct (cls on); try (exfalso; set_solver); simpl; split.
      all: try (intros [= Heq]; do 3 apply (inj (String.append _)) in Heq;
                by rewrite Heq).
      all: by intros [= ->].
Qed.

(** C7, as the code has it.  When [+] or [-] moves or detaches a node, its
    semantic hash stays; the structural hash of a [Net], [Layer] or [Matrix]
    stays as well, for it leaves the parent out; the text digested for a
    [Leaf], [Branch], [Tree] or [Node] changes exactly when the text of the
    parent's id does, and then the hash changes unless SHA-1 collides. *)
Theorem reattachment_hashes obj_eq st c n on st' :
  objects st !! n = Some on -> n ≠ c ->
  st' = (add obj_eq c n st).1 \/ st' = (KObject_sub obj_eq c n st).1 ->
  shash st' n = shash st n
  /\ (cls on ∈ [Net; Layer; Matrix] -> hash st' n = hash st n)
  /\ (cls on ∈ [Leaf; Branch; Tree; Node] ->
      is_Some (hash_input st n) -> is_Some (hash_input st' n) ->
      (hash_input st' n = hash_input st n
       <-> parent_text st' n = parent_text st n)
      /\ (parent_text st' n ≠ parent_text st n ->
          no_collision (hash_input st' n) (hash_input st n) ->
          hash st' n ≠ hash st n)).
Proof.
  intros Hn Hnc Hst'.
  assert (frame c n st st') as Hfr.
  { destruct Hst' as [-> | ->]; [apply frame_add|apply frame_KObject_sub]. }
  destruct (hash_input_reattached c n st st' on Hfr Hnc Hn)
    as (Hsh & Hsame & Hiff).
  split; [done|]. split; [done|].
  intros Hcls Hsome Hsome'. specialize (Hiff Hcls Hsome Hsome').
  split; [done|]. intros Hne Hnc'. apply hash_differs; [|done].
  by rewrite Hiff.
Qed.

(** ** The type contract, leaves and partition *)

(** C4.  Composing a child whose class is not among the container's
    [allowed_children] raises [TypeError] and leaves the whole store, and so
    the container's children, as it was. *)
Theorem compose_rejects_disallowed_child obj_eq st c x oc ox :
  objects st !! c = Some oc -> objects st !! x = Some ox ->
  cls ox ∉ allowed_children (cls oc) ->
  add obj_eq c x st
  = (st, Raise (TypeError (kind (cls oc) +:+ " cannot have child of type "
                           +:+ kind (cls ox)))).
Proof.
  intros Hc Hx Hnot.
  pose proof (KObject_add_rejects obj_eq st c x oc ox Hc Hx Hnot) as Hbase.
  unfold add, Branch_add, Tree_add, Node_add, Layer_add, Matrix_add.
  unfold_monad. rewrite (get_obj_run _ _ _ Hc).
  destruct (cls oc) eqn:Hk; rewrite Hbase; reflexivity.
Qed.

(** C10, as the code has it.  [Leaf] inherits [KObject.__add__] and allows
    [Leaf] children: composing a leaf into a leaf that holds no equal child
    appends it and makes the receiving leaf its parent; a child of any other
    class is rejected with [TypeError]. *)
Theorem Leaf_accepts_Leaf_child obj_eq st a x oa ox :
  objects st !! a = Some oa -> objects st !! x = Some ox -> cls oa = Leaf ->
  (cls ox = Leaf ->
   py_in obj_eq (upd a setdefault_children st) x (children_of st a) = false ->
   let r := add obj_eq a x st in
   r.2 = Return x
   /\ children_of r.1 a = children_of st a ++ [x]
   /\ parent_of r.1 x = Some a)
  /\ (cls ox ≠ Leaf ->
      add obj_eq a x st
      = (st, Raise (TypeError ("Leaf cannot have child of type "
                               +:+ kind (cls ox))))).
Proof.
  intros Ha Hx HLeaf.
  assert (add obj_eq a x st = KObject_add obj_eq a x st) as ->.
  { unfold add. unfold_monad. by rewrite (get_obj_run _ _ _ Ha), HLeaf. }
  split.
  - intros HxLeaf Hnotin. cbv zeta.
    rewrite (KObject_add_accepts obj_eq _ _ _ _ _ Ha Hx), Hnotin
      by (rewrite HLeaf, HxLeaf; by left).
    simpl. split; [done|].
    rewrite (children_of_appended _ _ _ _ _ _ Ha Hx), decide_True by done.
    rewrite (parent_of_appended _ _ _ _ _ _ Ha Hx), decide_True by done.
    done.
  - intros Hne.
    rewrite (KObject_add_rejects obj_eq _ _ _ _ _ Ha Hx).
    + by rewrite HLeaf.
    + rewrite HLeaf. simpl. intros Hin%list_elem_of_singleton. done.
Qed.

(** C3, on the code.  [n / k] raises [ValueError] when [k <= 0]; for
    [k > 0] it calls [self.partition], which no class defines, and raises
    [AttributeError]: no node is ever split into groups. *)
Theorem truediv_never_partitions st a oa (k : Z) :
  objects st !! a = Some oa ->
  KObject_truediv a k st
  = (st, if (k <=? 0)%Z then Raise (ValueError "parts must be > 0")
         else Raise (AttributeError
                       (no_attribute_message (cls oa) "partition"))).
Proof.
  intros Ha. unfold KObject_truediv. destruct (k <=? 0)%Z; [done|].
  unfold get_method. unfold_monad. rewrite (get_obj_run _ _ _ Ha).
  by destruct (cls oa).
Qed.

Lemma apply_retention_list st c oc p f :
  objects st !! c = Some oc -> retention oc = Some p ->
  apply_retention c (fun s => ArgList (f s)) st
  = (st, Raise list_has_no_metadata).
Proof.
  intros Hc Hr. unfold apply_retention. unfold_monad.
  by rewrite (get_obj_run _ _ _ Hc), Hr.
Qed.

Lemma KObject_add_returns obj_eq st c x oc ox :
  objects st !! c = Some oc -> objects st !! x = Some ox ->
  cls ox ∈ allowed_children (cls oc) ->
  KObject_add obj_eq c x st = ((KObject_add obj_eq c x st).1, Return x).
Proof.
  intros Hc Hx Hin. rewrite (KObject_add_accepts obj_eq _ _ _ _ _ Hc Hx Hin).
  by destruct (py_in _ _ _ _).
Qed.

(** ** Inserts that skip the policy *)

(** C2, on the code.  [Matrix.__add__] hands [self.children], a list, to
    [apply], which raises [AttributeError] at [container.metadata] before it
    looks at the bound: the child stays appended and the policy is never
    applied.  [Net] does not override [__add__], so [net + node] is
    [KObject.__add__] and never consults the policy; [Net.add_node] hands a
    list to [apply] as well. *)
Theorem retention_not_applied_on_Net_and_Matrix obj_eq :
  (forall st m x om ox p,
      objects st !! m = Some om -> objects st !! x = Some ox ->
      cls om = Matrix -> cls ox = Layer -> retention om = Some p ->
      add obj_eq m x st
      = ((KObject_add obj_eq m x st).1, Raise list_has_no_metadata))
  /\ (forall st n x,
        class_of st n = Some Net ->
        add obj_eq n x st = KObject_add obj_eq n x st)
  /\ (forall st n on p new_id node_data,
        objects st !! n = Some on -> cls on = Net -> retention on = Some p ->
        (Net_add_node obj_eq n new_id node_data st).2
        = Raise list_has_no_metadata).
Proof.
  split; [|split].
  - intros st m x om ox p Hm Hx HM HL Hr.
    unfold add, Matrix_add. unfold_monad.
    rewrite (get_obj_run _ _ _ Hm), HM.
    rewrite (KObject_add_returns obj_eq _ _ _ _ _ Hm Hx)
      by (rewrite HM, HL; by left).
    destruct (frame_lookup _ _ _ _ _ _ (frame_KObject_add obj_eq m x st) Hm)
      as (om' & Hm' & Hid).
    rewrite (apply_retention_list _ _ om' p); [done|done|].
    unfold identity_of in Hid. congruence.
  - intros st n x Hn. unfold add, class_of in *. unfold_monad.
    destruct (objects st !! n) as [on|] eqn:Hn'; [|done].
    rewrite (get_obj_run _ _ _ Hn'). injection Hn as ->. done.
  - intros st n on p new_id node_data Hn HNet Hr.
    unfold Net_add_node, alloc. unfold_monad.
    set (node := fresh (dom (objects st))).
    set (st1 := with_objects _ st).
    assert (node ≠ n) as Hne.
    { intros Heq. apply (is_fresh (dom (objects st))). fold node.
      rewrite Heq. apply elem_of_dom. eauto. }
    assert (Hn1 : objects st1 !! n = Some on)
      by (unfold st1; simpl; by rewrite lookup_insert_ne).
    assert (Hnode1 : objects st1 !! node
                     = Some (new_object Node new_id node_data))
      by (unfold st1; simpl; by rewrite lookup_insert_eq).
    unfold add. unfold_monad. rewrite (get_obj_run _ _ _ Hn1), HNet.
    rewrite (KObject_add_returns obj_eq _ _ _ _ _ Hn1 Hnode1)
      by (rewrite HNet; by left).
    destruct (frame_lookup _ _ _ _ _ _ (frame_KObject_add obj_eq n node st1) Hn1)
      as (on2 & Hn2 & Hid).
    rewrite (update_obj_run _ _ _ _ Hn2).
    rewrite (apply_retention_list _ _ (with_index (<[new_id:=node]> (index on2)) on2) p);
      [done| |].
    + by rewrite lookup_upd_eq, Hn2.
    + unfold identity_of in Hid. destruct on2. simpl in *. congruence.
Qed.

(** ** The invariant, decided *)

Lemma containment_check_sound st :
  containment_check st = true -> containment st.
Proof.
  unfold containment_check. rewrite forallb_forall. intros Hall.
  assert (forall a o, objects st !! a = Some o ->
            NoDup (default [] (children o))
            /\ (forall x, x ∈ default [] (children o) -> parent_of st x = Some a)
            /\ (forall c, parent o = Some c -> a ∈ children_of st c)) as Hobj.
  { intros a o Ha.
    specialize (Hall (a, o)). simpl in Hall.
    rewrite <- list_elem_of_In, elem_of_map_to_list in Hall.
    specialize (Hall Ha).
    apply andb_prop in Hall as [Hall Hp]. apply andb_prop in Hall as [Hnd Hch].
    split; [by apply bool_decide_eq_true_1 in Hnd|]. split.
    - intros x Hx. rewrite forallb_forall in Hch.
      apply list_elem_of_In, Hch in Hx.
      by apply bool_decide_eq_true_1 in Hx.
    - intros c Hc. rewrite Hc in Hp.
      by apply bool_decide_eq_true_1 in Hp. }
  split.
  - intros c x. split.
    + unfold parent_of. destruct (objects st !! x) as [o|] eqn:Hx; [|done].
      simpl. intros Hp. by apply (Hobj x o Hx).
    + unfold children_of at 1.
      destruct (objects st !! c) as [o|] eqn:Hc;
        [|by intros ?%elem_of_nil].
      simpl. intros Hx. by apply (Hobj c o Hc).
  - intros c. unfold children_of.
    destruct (objects st !! c) as [o|] eqn:Hc; [|constructor].
    simpl. by apply (Hobj c o Hc).
Qed.

(** ** Runs on concrete stores *)

(** C1, counterexample: four leaves under a bound of three in abort mode,
    a fifth is inserted.  The error reports two victims and the children are
    the three survivors, neither the five of before the eviction nor the
    four of before the insert. *)
Lemma abort_keeps_the_eviction :
  let st := abort_store FORWARD in
  let pre_eviction := (KObject_add KObject_eq 1 6 st).1 in
  let r := add KObject_eq 1 6 st in
  r.2 = Raise (ValueError "Retention policy: removed 2 objects")
  /\ children_of st 1 = [2; 3; 4; 5]%positive
  /\ children_of pre_eviction 1 = [2; 3; 4; 5; 6]%positive
  /\ children_of r.1 1 = [2; 3; 4]%positive
  /\ length (children_of r.1 1) ≠ length (children_of pre_eviction 1).
Proof. vm_compute. repeat split; discriminate. Qed.

(** Eviction leaves the victims' parent as it was. *)
Example eviction_keeps_the_parent :
  let r := apply 1 (ArgObject 1) (five_store FORWARD SUPPRESS) in
  r.2 = Return tt
  /\ children_of r.1 1 = [2; 3; 4]%positive
  /\ parent_of r.1 5 = Some 1%positive
  /\ parent_of r.1 6 = Some 1%positive.
Proof. vm_compute. done. Qed.

(** C1, witness: the same insert with the back selector. *)
Lemma abort_raises_after_eviction_witness :
  let r := add KObject_eq 1 6 (abort_store BACKWARD) in
  r.2 = Raise (ValueError "Retention policy: removed 2 objects")
  /\ children_of r.1 1 = [4; 5; 6]%positive
  /\ parent_of r.1 6 = Some 1%positive.
Proof.
  pose proof (abort_raises_after_eviction KObject_eq (abort_store BACKWARD)
                1 6 abort_branch (leaf "l6" "e" None) 1 (abort_policy BACKWARD))
    as H.
  cbv zeta in H.
  destruct H as (Hout & Hch & Hpar & _);
    [reflexivity|reflexivity|by left|by left|reflexivity|reflexivity
    |reflexivity|vm_compute; reflexivity|vm_compute; reflexivity|].
  split; [exact Hout|]. split; [exact Hch|exact Hpar].
Defined.

(** C2, witness: a [Matrix] bounded to one layer takes a second one, fails
    with [AttributeError] and keeps both; a [Net] bounded to no node takes a
    node through [+] without any eviction; [add_node] fails. *)
Lemma retention_not_applied_witness :
  (let r := add KObject_eq 1 3 bounded_store in
   r.2 = Raise list_has_no_metadata
   /\ children_of r.1 1 = [2; 3]%positive)
  /\ (let r := add KObject_eq 4 5 bounded_store in
      r.2 = Return 5%positive /\ children_of r.1 4 = [5%positive])
  /\ (Net_add_node KObject_eq 4 "d6" Py.VNone bounded_store).2
     = Raise list_has_no_metadata.
Proof.
  destruct (retention_not_applied_on_Net_and_Matrix KObject_eq)
    as (HMatrix & HNet & Hadd_node).
  split; [|split].
  - cbv zeta.
    rewrite (HMatrix bounded_store 1 3
               (kobj Matrix "m" None (Some [2%positive]) Py.VNone "Matrix"
                     (Some 1%positive))
               (kobj Layer "l3" None None Py.VNone "second" None) 1)%positive;
      [|reflexivity..].
    split; [reflexivity|vm_compute; reflexivity].
  - cbv zeta. rewrite (HNet bounded_store 4 5)%positive by reflexivity.
    split; vm_compute; reflexivity.
  - apply (Hadd_node bounded_store 4%positive
             (kobj Net "n4" None None Py.VNone EmptyString (Some 2%positive))
             2%positive); reflexivity.
Defined.

(** C3, witness: a [Branch] divided by 2 and by 0. *)
Lemma truediv_never_partitions_witness :
  KObject_truediv 1 2 (abort_store FORWARD)
  = (abort_store FORWARD,
     Raise (AttributeError "'Branch' object has no attribute 'partition'"))
  /\ KObject_truediv 1 0 (abort_store FORWARD)
     = (abort_store FORWARD, Raise (ValueError "parts must be > 0")).
Proof.
  split.
  - apply (truediv_never_partitions (abort_store FORWARD) 1 abort_branch 2).
    reflexivity.
  - apply (truediv_never_partitions (abort_store FORWARD) 1 abort_branch 0).
    reflexivity.
Defined.

(** C4, witness: a [Branch] composed into itself. *)
Lemma compose_rejects_disallowed_child_witness :
  add KObject_eq 1 1 (abort_store FORWARD)
  = (abort_store FORWARD,
     Raise (TypeError "Branch cannot have child of type Branch")).
Proof.
  apply (compose_rejects_disallowed_child KObject_eq (abort_store FORWARD) 1 1
           abort_branch abort_branch); [reflexivity|reflexivity|].
  vm_compute. intros H. by apply list_elem_of_singleton in H.
Defined.



(** C6, counterexample: adding a node to an empty [Net] changes its
    semantic hash, from the digest of [[]] to that of [['d5']]; adding a
    leaf to a childless [Leaf] leaves its structural hash as it was. *)
Lemma Net_and_Leaf_hashes_under_insert :
  (let r := add KObject_eq 4 5 bounded_store in
   class_of bounded_store 4 = Some Net
   /\ children_of bounded_store 4 = []
   /\ children_of r.1 4 = [5%positive]
   /\ shash bounded_store 4 = Some "97d170e1550eee4afc0af065b78cda302a97674c"
   /\ shash r.1 4 = Some "7477421a264f117336ddbd5010e129eed7bcbc23"
   /\ shash r.1 4 ≠ shash bounded_store 4)
  /\ (let r := add KObject_eq 1 2 two_leaves in
      class_of two_leaves 1 = Some Leaf
      /\ children_of two_leaves 1 = []
      /\ children_of r.1 1 = [2%positive]
      /\ is_Some (hash two_leaves 1)
      /\ hash r.1 1 = hash two_leaves 1).
Proof.
  split.
  - vm_compute. repeat split; discriminate.
  - vm_compute. repeat split. eauto.
Qed.

(** C6, witness: branch 1 gains leaf 3, and loses leaf 2; the empty net 4
    gains node 5. *)
Lemma child_membership_hashes_witness :
  (let st' := (add KObject_eq 1 3 family_store).1 in
   shash st' 1 = shash family_store 1 /\ hash st' 1 ≠ hash family_store 1)
  /\ (let st' := (KObject_sub KObject_eq 1 2 family_store).1 in
      shash st' 1 = shash family_store 1 /\ hash st' 1 ≠ hash family_store 1)
  /\ (let st' := (add KObject_eq 4 5 bounded_store).1 in
      hash st' 4 ≠ hash bounded_store 4
      /\ shash st' 4 ≠ shash bounded_store 4).
Proof.
  destruct (child_membership_hashes KObject_eq family_store 1 3
              (kobj Branch "b1" None (Some [2; 4]%positive) Py.VNone
                    EmptyString None)
              (leaf "l3" "y" None))
    as (Hadd & _);
    [reflexivity|reflexivity|by left|vm_compute; eauto|].
  destruct (child_membership_hashes KObject_eq family_store 1 2
              (kobj Branch "b1" None (Some [2; 4]%positive) Py.VNone
                    EmptyString None)
              (leaf "l2" "x" (Some 1%positive)))
    as (_ & Hsub);
    [reflexivity|reflexivity|by left|vm_compute; eauto|].
  destruct (child_membership_hashes KObject_eq bounded_store 4 5
              (kobj Net "n4" None None Py.VNone EmptyString
                    (Some 2%positive))
              (kobj Node "d5" None None (Py.VStr "x") EmptyString None))
    as (Hnet & _);
    [reflexivity|reflexivity|by left|vm_compute; eauto|].
  cbv zeta in *. split; [|split].
  - destruct Hadd as (Hh & _ & Hsh & _); [vm_compute; reflexivity|].
    split; [by apply Hsh|]. apply Hh; [done|].
    intros Heq. vm_compute in Heq. discriminate Heq.
  - destruct Hsub as (Hh & _ & Hsh & _).
    { exists [], [4%positive]. split; vm_compute; reflexivity. }
    split; [by apply Hsh|]. apply Hh; [done|].
    intros Heq. vm_compute in Heq. discriminate Heq.
  - destruct Hnet as (Hh & _ & _ & Hsh); [vm_compute; reflexivity|].
    split.
    + apply Hh; [done|]. intros Heq. vm_compute in Heq. discriminate Heq.
    + apply Hsh; [done|]. intros Heq. vm_compute in Heq. discriminate Heq.
Defined.

(** C7, counterexample: a [Net] detached from its [Layer], or moved under
    another one, keeps its structural hash. *)
Lemma Net_structural_hash_ignores_parent :
  let detached_st := (KObject_sub KObject_eq 1 2 layer_store).1 in
  let moved_st := (add KObject_eq 3 2 layer_store).1 in
  parent_of layer_store 2 = Some 1%positive
  /\ parent_of detached_st 2 = None
  /\ hash detached_st 2 = hash layer_store 2
  /\ parent_of moved_st 2 = Some 3%positive
  /\ hash moved_st 2 = hash layer_store 2.
Proof. vm_compute. repeat split. Qed.

(** C7, witness: leaf 2 detached from branch 1. *)
Lemma reattachment_hashes_witness :
  let st' := (KObject_sub KObject_eq 1 2 family_store).1 in
  parent_of family_store 2 = Some 1%positive
  /\ parent_of st' 2 = None
  /\ shash st' 2 = shash family_store 2
  /\ hash st' 2 ≠ hash family_store 2.
Proof.
  cbv zeta.
  destruct (reattachment_hashes KObject_eq family_store 1 2
              (leaf "l2" "x" (Some 1%positive))
              (KObject_sub KObject_eq 1 2 family_store).1)
    as (Hsh & _ & Hh); [reflexivity|done|by right|].
  split; [reflexivity|]. split; [reflexivity|]. split; [exact Hsh|].
  destruct Hh as [_ Hh]; [by left|vm_compute; eauto|vm_compute; eauto|].
  apply Hh.
  - vm_compute. discriminate.
  - intros Heq. vm_compute in Heq. discriminate Heq.
Defined.

(** C8, witness: both selectors on five leaves, and [apply] once more on the
    result. *)
Lemma retention_five_children_bound_three_witness :
  (let r := apply 1 (ArgObject 1) (five_store FORWARD CALL) in
   children_of r.1 1 = [2; 3; 4]%positive
   /\ retained <$> policies r.1 !! 1%positive = Some [5; 6]%positive
   /\ r.2 = Return tt
   /\ calls r.1 = [("on_evict", [5; 6]%positive)])
  /\ (let r := apply 1 (ArgObject 1) (five_store BACKWARD RAISE) in
      children_of r.1 1 = [4; 5; 6]%positive
      /\ retained <$> policies r.1 !! 1%positive = Some [2; 3]%positive
      /\ r.2 = Raise (ValueError "Retention policy: removed 2 objects")
      /\ calls r.1 = [])
  /\ (let st := (apply 1 (ArgObject 1) (five_store FORWARD CALL)).1 in
      apply 1 (ArgObject 1) st = (st, Return tt)).
Proof.
  split; [|split].
  - exact (proj1 (retention_five_children_bound_three
                    (five_store FORWARD CALL) 1 _ 1 _ 2 3 4 5 6
                    eq_refl eq_refl eq_refl eq_refl)%positive).
  - exact (proj1 (retention_five_children_bound_three
                    (five_store BACKWARD RAISE) 1 _ 1 _ 2 3 4 5 6
                    eq_refl eq_refl eq_refl eq_refl)%positive).
  - cbv zeta.
    refine (proj2 (retention_five_children_bound_three
                     (five_store FORWARD CALL) 1 _ 1 _ 2 3 4 5 6
                     eq_refl eq_refl eq_refl eq_refl)%positive
                  _ 1%positive _ 1%positive _ _ _ _);
      [vm_compute; reflexivity|vm_compute; reflexivity|vm_compute; discriminate].
Defined.

(** C10, counterexample: a childless leaf composed with another leaf has a
    child. *)
Lemma Leaf_gains_a_child :
  let r := add KObject_eq 1 2 two_leaves in
  class_of two_leaves 1 = Some Leaf
  /\ children_of two_leaves 1 = []
  /\ r.2 = Return 2%positive
  /\ children_of r.1 1 = [2%positive]
  /\ parent_of r.1 2 = Some 1%positive.
Proof. vm_compute. repeat split. Qed.

(** C10, witness: leaf 2 takes leaf 3 and rejects branch 5. *)
Lemma Leaf_accepts_Leaf_child_witness :
  (let r := add KObject_eq 2 3 family_store in
   r.2 = Return 3%positive
   /\ children_of r.1 2 = [3%positive]
   /\ parent_of r.1 3 = Some 2%positive)
  /\ add KObject_eq 2 5 family_store
     = (family_store,
        Raise (TypeError "Leaf cannot have child of type Branch")).
Proof.
  split.
  - apply (proj1 (Leaf_accepts_Leaf_child KObject_eq family_store 2 3
                    (leaf "l2" "x" (Some 1%positive)) (leaf "l3" "y" None)
                    eq_refl eq_refl eq_refl)%positive);
      reflexivity.
  - apply (proj2 (Leaf_accepts_Leaf_child KObject_eq family_store 2 5
                    (leaf "l2" "x" (Some 1%positive))
                    (kobj Branch "b5" None None Py.VNone EmptyString None)
                    eq_refl eq_refl eq_refl)%positive).
    discriminate.
Defined.

(** ** The traverser *)

Section TraverserFacts.

Context {V : Type} `{Countable V}.
Variable truthy : V -> bool.
Variable self : KTraverser V.

Local Abbreviation enqueued := (enqueued truthy self).
Local Abbreviation visit := (visit truthy self).
Local Abbreviation run := (run truthy self).
Local Abbreviation traverse := (traverse truthy self).
Local Abbreviation edge := (edge truthy self).
Local Abbreviation reachable := (reachable truthy self).
Local Abbreviation walk := (walk truthy self).
Local Abbreviation inv := (inv truthy self).
Local Abbreviation fifo_inv := (fifo_inv truthy self).
Local Abbreviation inv_nodup := (inv_nodup truthy self).
Local Abbreviation inv_walk := (inv_walk truthy self).
Local Abbreviation inv_sorted := (inv_sorted truthy self).
Local Abbreviation inv_start := (inv_start truthy self).
Local Abbreviation inv_closed := (inv_closed truthy self).

Lemma walk_reachable start p v : walk start p v -> reachable start v.
Proof.
  induction 1 as [|p u v _ IH Huv]; [apply rtc_refl|].
  eapply rtc_r; eauto.
Qed.

Lemma reachable_walk start v : reachable start v -> exists p, walk start p v.
Proof.
  revert v. apply rtc_ind_r.
  - exists []. constructor.
  - intros u v _ Huv [p Hp]. exists (p ++ [u]). by econstructor.
Qed.

Lemma inv_init start : inv start (Loop ∅ [(start, [])] []).
Proof.
  split; simpl.
  - intros v. set_solver.
  - constructor.
  - intros v p Hin. apply list_elem_of_singleton in Hin.
    injection Hin as -> ->. constructor.
  - repeat constructor.
  - intros e e' ->%list_elem_of_singleton ->%list_elem_of_singleton. simpl. lia.
  - exists []. split; [set_solver | simpl; lia].
  - intros u p v Hin. set_solver.
Qed.

Lemma StronglySorted_app_inv_mid (l1 l2 : list nat) (x : nat) :
  StronglySorted le (l1 ++ x :: l2) -> StronglySorted le (l1 ++ l2).
Proof.
  induction l1 as [|a l1 IH]; simpl; intros Hs.
  - by apply StronglySorted_inv in Hs as [? _].
  - apply StronglySorted_inv in Hs as [Hs Hall].
    constructor; [by apply IH|].
    rewrite Forall_app in Hall |- *. destruct Hall as [? Hall].
    split; [done|]. by apply Forall_cons in Hall as [_ ?].
Qed.

Lemma StronglySorted_snoc_all (l : list nat) (new : list nat) (d : nat) :
  StronglySorted le l -> Forall (fun x => x <= d) l ->
  Forall (fun x => x = d) new ->
  StronglySorted le (l ++ new).
Proof.
  intros Hs Hl Hn. induction Hs as [|a l Hs IH Ha]; simpl.
  - induction Hn as [|x new -> Hn IHn]; constructor; [done|].
    eapply Forall_impl; [exact Hn|]. simpl. lia.
  - apply Forall_cons in Hl as [Had Hl].
    constructor; [by apply IH|].
    rewrite Forall_app. split; [done|].
    eapply Forall_impl; [exact Hn|]. simpl. lia.
Qed.


Lemma depths_app (l1 l2 : list (V * list V)) :
  depths (l1 ++ l2) = depths l1 ++ depths l2.
Proof. apply fmap_app. Qed.

Lemma sorted_before (l1 l2 : list (V * list V)) e e0 :
  StronglySorted le (depths (l1 ++ e :: l2)) -> e0 ∈ l1 ->
  length e0.2 <= length e.2.
Proof.
  induction l1 as [|a l1 IH]; intros Hs Hin; [by apply elem_of_nil in Hin|].
  simpl in Hs. apply StronglySorted_inv in Hs as [Hs Hall].
  apply elem_of_cons in Hin as [->|Hin]; [|by apply IH].
  fold (depths (l1 ++ e :: l2)) in Hall. rewrite depths_app in Hall.
  apply Forall_app in Hall as [_ Hall]. simpl in Hall.
  by apply Forall_cons in Hall as [? _].
Qed.

Lemma sorted_after (l1 l2 : list (V * list V)) e e' :
  StronglySorted le (depths (l1 ++ e :: l2)) -> e' ∈ l2 ->
  length e.2 <= length e'.2.
Proof.
  induction l1 as [|a l1 IH]; simpl; intros Hs Hin.
  - apply StronglySorted_inv in Hs as [_ Hall].
    rewrite Forall_forall in Hall. apply Hall.
    apply list_elem_of_fmap. by exists e'.
  - apply StronglySorted_inv in Hs as [Hs _]. by apply IH.
Qed.

Lemma inv_visit_seen start vs node path rest ys :
  node ∈ vs ->
  inv start (Loop vs ((node, path) :: rest) ys) ->
  inv start (Loop vs rest ys).
Proof.
  intros Hseen [Hvis Hnd Hwalk Hsort Hspread Hstart Hclosed]; simpl in *.
  assert (Hcov : forall v k,
             covered (Loop vs ((node, path) :: rest) ys) v k ->
             covered (Loop vs rest ys) v k).
  { intros v k (p & Hin & Hle). simpl in Hin.
    apply elem_of_app in Hin as [Hin|Hin].
    - exists p. split; [|done]. simpl. apply elem_of_app. by left.
    - apply elem_of_cons in Hin as [Heq|Hin].
      + injection Heq as -> ->.
        apply Hvis, list_elem_of_fmap in Hseen as ([n p'] & Hn & Hin').
        simpl in Hn. subst n. exists p'.
        split; [simpl; apply elem_of_app; by left|].
        pose proof (sorted_before _ _ _ _ Hsort Hin') as Hlen.
        simpl in Hlen. lia.
      + exists p. split; [|done]. simpl. apply elem_of_app. by right. }
  split; simpl.
  - done.
  - done.
  - intros v p Hin. apply Hwalk. clear -Hin. set_solver.
  - rewrite depths_app in Hsort |- *. simpl in Hsort.
    by eapply StronglySorted_app_inv_mid.
  - intros e e' He He'. apply Hspread; apply elem_of_cons; by right.
  - by apply Hcov.
  - intros u p v Hin Hedge. eapply Hcov, Hclosed; eauto.
Qed.

Lemma inv_visit_new start vs node path rest ys :
  node ∉ vs ->
  inv start (Loop vs ((node, path) :: rest) ys) ->
  inv start (Loop ({[node]} ∪ vs)
                  (rest ++ ((fun m => (m, path ++ [node])) <$> enqueued node))
                  (ys ++ [(node, path)])).
Proof.
  intros Hnew [Hvis Hnd Hwalk Hsort Hspread Hstart Hclosed]; simpl in *.
  set (new := (fun m => (m, path ++ [node])) <$> enqueued node).
  assert (Hnewlen : forall e, e ∈ new -> length e.2 = S (length path)).
  { intros e (m & -> & _)%list_elem_of_fmap. simpl.
    rewrite length_app. simpl. lia. }
  assert (Hcov : forall v k,
             covered (Loop vs ((node, path) :: rest) ys) v k ->
             covered (Loop ({[node]} ∪ vs) (rest ++ new)
                           (ys ++ [(node, path)])) v k).
  { intros v k (p & Hin & Hle). exists p. split; [|done].
    simpl in *. clear -Hin. set_solver. }
  split; simpl.
  - intros v. rewrite fmap_app, elem_of_app, elem_of_union, Hvis.
    simpl. clear. set_solver.
  - rewrite fmap_app. simpl. apply NoDup_app. split; [done|].
    split; [|apply NoDup_singleton].
    intros v Hv ->%list_elem_of_singleton. by apply Hnew, Hvis.
  - intros v p Hin.
    rewrite !elem_of_app in Hin. destruct Hin as [[Hin|Hin]|[Hin|Hin]].
    + apply Hwalk, elem_of_app. by left.
    + apply Hwalk, elem_of_app. right.
      apply list_elem_of_singleton in Hin. rewrite Hin. by left.
    + apply Hwalk, elem_of_app. right. by right.
    + apply list_elem_of_fmap in Hin as (m & Heq & Hm).
      injection Heq as -> ->.
      apply walk_step; [|done].
      apply Hwalk, elem_of_app. right. by left.
  - replace ((ys ++ [(node, path)]) ++ rest ++ new)
      with ((ys ++ (node, path) :: rest) ++ new)
      by (by rewrite <- !app_assoc).
    rewrite depths_app.
    apply StronglySorted_snoc_all with (d := S (length path)); [done| |].
    + rewrite Forall_forall. intros d (e & -> & He)%list_elem_of_fmap.
      apply elem_of_app in He as [He|He].
      * pose proof (sorted_before _ _ _ _ Hsort He). simpl in *. lia.
      * specialize (Hspread e (node, path) He). simpl in Hspread.
        apply Hspread. by left.
    + rewrite Forall_forall. intros d (e & -> & He)%list_elem_of_fmap.
      by apply Hnewlen.
  - intros e e' He He'.
    apply elem_of_app in He as [He|He]; apply elem_of_app in He' as [He'|He'].
    + apply Hspread; apply elem_of_cons; by right.
    + rewrite (Hnewlen _ He').
      specialize (Hspread e (node, path)). simpl in Hspread.
      etrans; [apply Hspread; [by right|by left]|]. lia.
    + rewrite (Hnewlen _ He).
      pose proof (sorted_after _ _ _ _ Hsort He'). simpl in *. lia.
    + rewrite (Hnewlen _ He), (Hnewlen _ He'). lia.
  - by apply Hcov.
  - intros u p v Hin Hedge.
    apply elem_of_app in Hin as [Hin|Hin].
    + eapply Hcov, Hclosed; eauto.
    + apply list_elem_of_singleton in Hin. injection Hin as -> ->.
      exists (path ++ [node]). split.
      * simpl. apply elem_of_app. right. apply elem_of_app. right.
        apply list_elem_of_fmap. by exists v.
      * rewrite length_app. simpl. lia.
Qed.

Lemma inv_visit start s node path rest :
  queue s = (node, path) :: rest ->
  inv start s -> inv start (visit s node path rest).
Proof.
  destruct s as [vs q ys]. simpl. intros ->. unfold visit. simpl.
  destruct (decide (node ∈ vs)).
  - by apply inv_visit_seen.
  - by apply inv_visit_new.
Qed.


Lemma run_mono fuel fuel' s ys :
  run fuel s = Some ys -> fuel <= fuel' -> run fuel' s = Some ys.
Proof.
  revert fuel' s. induction fuel as [|fuel IH]; intros fuel' s; [done|].
  destruct fuel' as [|fuel']; [lia|]. simpl.
  destruct (queue s) as [|[node path] rest]; [done|].
  intros Hrun Hle. apply IH; [done|lia].
Qed.

Lemma run_inv start fuel s ys :
  inv start s -> run fuel s = Some ys ->
  exists vs, inv start (Loop vs [] ys).
Proof.
  revert s. induction fuel as [|fuel IH]; intros s Hinv; [done|]. simpl.
  destruct (queue s) as [|[node path] rest] eqn:Hq.
  - intros [= <-]. exists (visited s). destruct s; simpl in *. by subst.
  - intros Hrun. eapply IH; [|done]. by apply inv_visit.
Qed.

Lemma run_total start (U : gset V) :
  (forall v, reachable start v -> v ∈ U) ->
  forall n s, size (U ∖ visited s) < n -> inv start s ->
              exists fuel ys, run fuel s = Some ys.
Proof.
  intros HU. induction n as [|n IHn]; [lia|].
  intros [vs q ys]. revert ys.
  induction q as [|[node path] rest IHq]; intros ys Hsize Hinv.
  - by exists 1, ys.
  - destruct (decide (node ∈ vs)) as [Hseen|Hnew].
    + destruct (IHq ys) as (fuel & out & Hrun);
        [done|by eapply inv_visit_seen|].
      exists (S fuel), out. simpl. unfold visit. simpl.
      by rewrite decide_True.
    + pose proof (inv_visit_new _ _ _ _ _ _ Hnew Hinv) as Hinv'.
      assert (node ∈ U) as HnodeU.
      { apply HU. eapply walk_reachable, (inv_walk _ _ Hinv).
        simpl. apply elem_of_app. right. by left. }
      assert (size (U ∖ ({[node]} ∪ vs)) < n) as Hsize'.
      { simpl in Hsize.
        assert (size (U ∖ ({[node]} ∪ vs)) < size (U ∖ vs)); [|lia].
        apply subset_size. clear -Hnew HnodeU. set_solver. }
      destruct (IHn (Loop ({[node]} ∪ vs) _ _) Hsize' Hinv')
        as (fuel & out & Hrun).
      exists (S fuel), out. simpl. unfold visit. simpl.
      by rewrite decide_False.
Qed.

Lemma final_cover start vs ys q v :
  inv start (Loop vs [] ys) -> walk start q v ->
  exists p, (v, p) ∈ ys /\ length p <= length q.
Proof.
  intros Hinv. induction 1 as [|q u v _ IH Huv].
  - destruct (inv_start _ _ Hinv) as (p & Hin & Hle).
    simpl in Hin. rewrite app_nil_r in Hin. by exists p.
  - destruct IH as (p & Hin & Hle).
    destruct (inv_closed _ _ Hinv u p v Hin Huv) as (p' & Hin' & Hle').
    simpl in Hin'. rewrite app_nil_r in Hin'.
    exists p'. split; [done|]. rewrite length_app. simpl. lia.
Qed.

Lemma NoDup_fst_functional (l : list (V * list V)) v p p' :
  NoDup l.*1 -> (v, p) ∈ l -> (v, p') ∈ l -> p = p'.
Proof.
  induction l as [|[a b] l IH]; simpl; intros Hnd Hp Hp';
    [by apply elem_of_nil in Hp|].
  apply NoDup_cons in Hnd as [Hnotin Hnd].
  apply elem_of_cons in Hp as [Hp|Hp], Hp' as [Hp'|Hp'].
  - congruence.
  - injection Hp as -> ->. exfalso. apply Hnotin.
    apply list_elem_of_fmap. by exists (a, p').
  - injection Hp' as -> ->. exfalso. apply Hnotin.
    apply list_elem_of_fmap. by exists (a, p).
  - by apply IH.
Qed.

Lemma first_occurrences_app (seen : gset V) (l1 l2 : list V) :
  first_occurrences seen (l1 ++ l2)
  = first_occurrences seen l1
    ++ first_occurrences (list_to_set l1 ∪ seen) l2.
Proof.
  revert seen. induction l1 as [|x l1 IH]; intros seen; simpl.
  - f_equal. set_solver.
  - destruct (decide (x ∈ seen)) as [Hx|Hx]; rewrite IH; simpl.
    + do 2 f_equal. set_solver.
    + do 3 f_equal. set_solver.
Qed.

Lemma fifo_inv_visit start s node path rest dequeued :
  queue s = (node, path) :: rest ->
  fifo_inv start s dequeued ->
  fifo_inv start (visit s node path rest) (dequeued ++ [node]).
Proof.
  destruct s as [vs q ys]. simpl. intros -> (Hy & Hv & Hq). simpl in *.
  assert (Hnode : node ∈ vs <-> node ∈ (list_to_set dequeued ∪ ∅ : gset V))
    by (rewrite Hv; set_solver).
  unfold visit, fifo_inv. simpl.
  destruct (decide (node ∈ vs)) as [Hseen|Hnew]; simpl.
  - split; [|split].
    + rewrite first_occurrences_app. simpl.
      rewrite decide_True by (by apply Hnode). by rewrite app_nil_r.
    + rewrite list_to_set_app_L. simpl. set_solver.
    + by rewrite Hq, <- (assoc_L (++)).
  - split; [|split].
    + rewrite fmap_app, first_occurrences_app. simpl.
      rewrite decide_False by (by rewrite <- Hnode). by rewrite Hy.
    + rewrite list_to_set_app_L. simpl. set_solver.
    + rewrite !fmap_app, concat_app. simpl. rewrite app_nil_r.
      rewrite app_comm_cons, Hq, <- !(assoc_L (++)). simpl.
      do 3 f_equal. rewrite <- list_fmap_compose.
      clear. induction (enqueued node) as [|m l IH]; simpl; by f_equal.
Qed.

Lemma run_fifo start fuel s dequeued ys :
  fifo_inv start s dequeued -> run fuel s = Some ys ->
  ys.*1 = first_occurrences ∅ (start :: concat (enqueued <$> ys.*1)).
Proof.
  revert s dequeued. induction fuel as [|fuel IH]; intros s dequeued Hinv;
    [done|]. cbn [run].
  destruct (queue s) as [|[node path] rest] eqn:Hq.
  - intros [= <-]. destruct Hinv as (Hy & _ & Hd). rewrite Hq in Hd.
    rewrite Hd. rewrite Hy at 1. f_equal. symmetry. apply app_nil_r.
  - intros Hrun. eapply IH; [|done]. by apply fifo_inv_visit.
Qed.

(** The loop on what it enqueues: it ends when finitely many nodes can come
    to be enqueued, and yields each of them once, in the order of their
    first enqueuing, with a shortest path. *)
Lemma traverse_enqueued start (U : gset V) :
  (forall v, reachable start v -> v ∈ U) ->
  exists fuel ys,
    (forall fuel', fuel <= fuel' -> traverse fuel' start = Some ys)
    /\ NoDup ys.*1
    /\ (forall v, v ∈ ys.*1 <-> reachable start v)
    /\ ys.*1 = first_occurrences ∅ (start :: concat (enqueued <$> ys.*1))
    /\ StronglySorted le (depths ys)
    /\ (forall v p, (v, p) ∈ ys ->
          walk start p v
          /\ forall q, walk start q v -> length p <= length q).
Proof.
  intros HU.
  destruct (run_total start U HU (S (size (U ∖ ∅)))
              (Loop ∅ [(start, [])] [])) as (fuel & ys & Hrun);
    [simpl; lia|apply inv_init|].
  destruct (run_inv start _ _ _ (inv_init start) Hrun) as (vs & Hinv).
  exists fuel, ys. split; [|split; [|split; [|split; [|split]]]].
  - intros fuel' Hle. by eapply run_mono.
  - apply (inv_nodup _ _ Hinv).
  - intros v. split.
    + intros ([v' p] & -> & Hin)%list_elem_of_fmap. simpl.
      eapply walk_reachable, (inv_walk _ _ Hinv). simpl.
      by rewrite app_nil_r.
    + intros (q & Hq)%reachable_walk.
      destruct (final_cover _ _ _ _ _ Hinv Hq) as (p & Hin & _).
      apply list_elem_of_fmap. by exists (v, p).
  - eapply (run_fifo start fuel _ []); [|exact Hrun].
    by repeat split.
  - pose proof (inv_sorted _ _ Hinv) as Hs. simpl in Hs.
    by rewrite app_nil_r in Hs.
  - intros v p Hin. split.
    + apply (inv_walk _ _ Hinv). simpl. by rewrite app_nil_r.
    + intros q Hq.
      destruct (final_cover _ _ _ _ _ Hinv Hq) as (p' & Hin' & Hle).
      by rewrite (NoDup_fst_functional _ _ _ _ (inv_nodup _ _ Hinv) Hin Hin').
Qed.


(** *** The nodes the resolvers relate and the nodes the loop enqueues *)

Local Abbreviation linked := (linked self).
Local Abbreviation linked_reachable := (linked_reachable self).
Local Abbreviation linked_walk := (linked_walk self).

Lemma edge_linked u v : edge u v -> linked u v.
Proof.
  unfold edge, enqueued, linked.
  intros Hin.
  apply elem_of_app in Hin as [Hin|Hin];
    [|apply elem_of_app in Hin as [Hin|Hin]].
  - left. destruct (children_resolver self) as [f|];
      [|by apply elem_of_nil in Hin].
    destruct (f u) as [l|] eqn:Hf; [|by apply elem_of_nil in Hin].
    by exists f, l.
  - right. left. destruct (parent_resolver self) as [f|];
      [|by apply elem_of_nil in Hin].
    destruct (f u) as [p|] eqn:Hf; [|by apply elem_of_nil in Hin].
    destruct (truthy p); [|by apply elem_of_nil in Hin].
    apply list_elem_of_singleton in Hin as ->. by exists f.
  - right. right. destruct (transversal_resolver self) as [f|];
      [|by apply elem_of_nil in Hin].
    destruct (f u) as [l|] eqn:Hf; [|by apply elem_of_nil in Hin].
    by exists f, l.
Qed.

(** A related node is enqueued unless it is a parent that counts as
    false. *)
Lemma linked_edge u v :
  (forall f p, parent_resolver self = Some f -> f u = Some p ->
               truthy p = true) ->
  linked u v -> edge u v.
Proof.
  unfold edge, enqueued, linked.
  intros Ht [(f & l & Hr & Hf & Hin)|[(f & Hr & Hf)|(f & l & Hr & Hf & Hin)]].
  - rewrite Hr, Hf. apply elem_of_app. by left.
  - rewrite Hr, Hf, (Ht f v Hr Hf). apply elem_of_app. right.
    apply elem_of_app. left. by apply list_elem_of_singleton.
  - rewrite Hr, Hf. apply elem_of_app. right. apply elem_of_app. by right.
Qed.

Lemma reachable_linked start v : reachable start v -> linked_reachable start v.
Proof.
  induction 1 as [|u w v Huw _ IH]; [apply rtc_refl|].
  eapply rtc_l; [by apply edge_linked|done].
Qed.

Lemma linked_reachable_enqueued start v :
  (forall u f p, linked_reachable start u ->
                 parent_resolver self = Some f -> f u = Some p ->
                 truthy p = true) ->
  linked_reachable start v -> reachable start v.
Proof.
  intros Ht. revert v. apply rtc_ind_r; [apply rtc_refl|].
  intros u v Hu Huv IH. eapply rtc_r; [exact IH|].
  apply linked_edge; [|done]. intros f p. by apply Ht.
Qed.

Lemma linked_walk_reachable start p v :
  linked_walk start p v -> linked_reachable start v.
Proof.
  induction 1 as [|p u v _ IH Huv]; [apply rtc_refl|].
  eapply rtc_r; eauto.
Qed.

Lemma walk_linked_walk start p v : walk start p v -> linked_walk start p v.
Proof.
  induction 1 as [|p u v _ IH Huv]; [constructor|].
  constructor; [done|]. by apply edge_linked.
Qed.

Lemma linked_walk_walk start p v :
  (forall u f p, linked_reachable start u ->
                 parent_resolver self = Some f -> f u = Some p ->
                 truthy p = true) ->
  linked_walk start p v -> walk start p v.
Proof.
  intros Ht. induction 1 as [|p u v Hp IH Huv]; [constructor|].
  constructor; [done|]. apply linked_edge; [|done].
  intros f q. apply Ht. by eapply linked_walk_reachable.
Qed.


End TraverserFacts.

(** The cycle A -> B, B -> A: both nodes once, then the loop ends. *)
Example traverse_two_cycle :
  traverse (fun _ => true) cycle 4 1%positive
  = Some [(1, []); (2, [1])]%positive.
Proof. vm_compute. reflexivity. Qed.

Example traverse_two_cycle_out_of_fuel :
  traverse (fun _ => true) cycle 3 1%positive = None.
Proof. vm_compute. reflexivity. Qed.

Lemma cycle_linked v :
  linked_reachable cycle 1%positive v ->
  v ∈ ({[1; 2]} : gset positive)%positive.
Proof.
  revert v. apply rtc_ind_r; [set_solver|].
  intros y z _ Hlinked Hy.
  destruct Hlinked as [(f & l & [= <-] & Hf & Hin)
                      |[(f & [=] & _)|(f & l & [=] & _)]].
  apply elem_of_union in Hy as [->%elem_of_singleton| ->%elem_of_singleton];
    injection Hf as <-; apply list_elem_of_singleton in Hin as ->; set_solver.
Qed.



(** Two empty nets under one layer are equal for [KObject.__eq__] and are
    two nodes for the traverser. *)
Example traverse_equal_nets :
  KObject_eq twin_store 2 3 = true
  /\ traverse Engine.truthy
       (mkTraverser (Some (Engine.children_resolver twin_store)) None None)
       4 1%positive
     = Some [(1, []); (2, [1]); (3, [1])]%positive.
Proof. vm_compute. done. Qed.

(** With the parent resolver too, every node is still yielded once. *)
Example traverse_hierarchy :
  traverse Engine.truthy (Engine.hierarchy twin_store) 8 2%positive
  = Some [(2, []); (1, [2]); (3, [2; 1])]%positive.
Proof. vm_compute. reflexivity. Qed.
(** ** More on the retention policy *)

Lemma split_children_take_drop pf (l : list addr) (m : Z) :
  (m < Z.of_nat (length l))%Z ->
  split_children pf (Z.of_nat (length l) - m) l
  = match pf with
    | FORWARD => (drop (Z.to_nat m) l, take (Z.to_nat m) l)
    | BACKWARD => (take (length l - Z.to_nat m) l,
                   drop (length l - Z.to_nat m) l)
    end.
Proof.
  intros Hm. unfold split_children, slice_from, slice_to, slice_index.
  destruct pf.
  - rewrite (proj2 (Z.ltb_lt _ _)) by lia.
    replace (Z.to_nat (Z.min _ _)) with (Z.to_nat m) by lia. done.
  - rewrite (proj2 (Z.ltb_ge _ _)) by lia.
    replace (Z.to_nat (Z.min _ _)) with (length l - Z.to_nat m) by lia. done.
Qed.

Lemma split_children_survivors pf overflow (l : list addr) :
  (0 < overflow)%Z ->
  length (split_children pf overflow l).2
  = Z.to_nat (Z.of_nat (length l) - overflow).
Proof.
  intros Hov. unfold split_children, slice_from, slice_to, slice_index.
  destruct pf; simpl.
  - rewrite (proj2 (Z.ltb_lt _ _)) by lia. rewrite length_take. lia.
  - rewrite (proj2 (Z.ltb_ge _ _)) by lia. rewrite length_drop. lia.
Qed.

Lemma children_of_default st c oc :
  objects st !! c = Some oc -> default [] (children oc) = children_of st c.
Proof. intros Hc. unfold children_of. by rewrite Hc. Qed.

(** X1.  [apply] on a container with children [l] and a bound [max_size]:
    [FORWARD] keeps the first [max_size] children and [BACKWARD] the last
    [max_size], in their order (all of them when there are no more than
    that, none when the bound is negative); the others are the victims,
    which [DISCARD] appends to [retained] and [DESTROY] drops; no other
    container's children and no parent changes.  Only a container over its
    bound makes [RAISE] raise, with the number of victims in the message. *)
Theorem apply_keeps_one_end st p c oc pol :
  objects st !! c = Some oc -> policies st !! p = Some pol ->
  let l := children_of st c in
  let n := length l `min` Z.to_nat (max_size pol) in
  let r := apply p (ArgObject c) st in
  children_of r.1 c
  = match prune_from pol with
    | FORWARD => take n l
    | BACKWARD => drop (length l - n) l
    end
  /\ retained <$> policies r.1 !! p
     = Some (retained pol
             ++ match prune_type pol, prune_from pol with
                | DISCARD, FORWARD => drop n l
                | DISCARD, BACKWARD => take (length l - n) l
                | DESTROY, _ => []
                end)
  /\ (forall d, d ≠ c -> children_of r.1 d = children_of st d)
  /\ (forall y, parent_of r.1 y = parent_of st y)
  /\ r.2 = match notify pol with
           | RAISE =>
               if (max_size pol <? Z.of_nat (length l))%Z
               then Raise (ValueError (removed_message (length l - n)))
               else Return tt
           | _ => Return tt
           end.
Proof.
  intros Hc Hp. cbv zeta.
  rewrite (apply_object _ _ _ _ _ Hc Hp), (children_of_default _ _ _ Hc).
  set (l := children_of st c).
  destruct (Z.leb_spec (Z.of_nat (length l) - max_size pol) 0) as [Hle|Hgt].
  - unfold applied. rewrite (proj2 (Z.leb_le _ _) Hle). simpl.
    rewrite Hp. simpl. fold l.
    replace (length l `min` Z.to_nat (max_size pol)) with (length l) by lia.
    rewrite Nat.sub_diag, firstn_all, drop_all, drop_0, take_0.
    rewrite (proj2 (Z.ltb_ge _ _)) by lia.
    split; [by destruct (prune_from pol)|].
    split; [destruct (prune_type pol), (prune_from pol); by rewrite app_nil_r|].
    split; [done|]. split; [done|]. by destruct (notify pol).
  - pose proof (applied_overflow p c pol l st oc Hc Hp Hgt) as Happ.
    cbv zeta in Happ.
    destruct Happ as (Hch & Hother & Hpar & Hret & Hout & _).
    rewrite split_children_take_drop in Hch, Hret, Hout by lia.
    replace (length l `min` Z.to_nat (max_size pol))
      with (Z.to_nat (max_size pol)) by lia.
    rewrite Hch, Hret, Hout, (proj2 (Z.ltb_lt _ _)) by lia.
    split; [by destruct (prune_from pol)|].
    split; [by destruct (prune_type pol), (prune_from pol)|].
    split; [done|]. split; [done|].
    destruct (notify pol); simpl; try done.
    do 2 f_equal. destruct (prune_from pol); simpl.
    + rewrite length_drop. done.
    + rewrite length_take. f_equal. lia.
Qed.

(** X1, witness: five leaves under a bound of three, [BACKWARD]. *)
Lemma apply_keeps_one_end_witness :
  children_of (apply 1%positive (ArgObject 1%positive)
                 (five_store BACKWARD SUPPRESS)).1 1%positive
  = [4; 5; 6]%positive.
Proof.
  exact (proj1 (apply_keeps_one_end (five_store BACKWARD SUPPRESS)
                  1%positive 1%positive _ _ eq_refl eq_refl)).
Defined.

(** X2.  Under a negative bound [apply] evicts every child, and it finds an
    overflow on each call: on a container that is already empty [RAISE]
    still raises, reporting no victim, and [CALL] still calls back, with an
    empty list. *)
Theorem negative_bound_evicts_all st p c oc pol :
  objects st !! c = Some oc -> policies st !! p = Some pol ->
  (max_size pol < 0)%Z ->
  let l := children_of st c in
  let r := apply p (ArgObject c) st in
  children_of r.1 c = []
  /\ r.2 = match notify pol with
           | RAISE => Raise (ValueError (removed_message (length l)))
           | _ => Return tt
           end
  /\ calls r.1 = calls st ++ match notify pol, callback pol with
                             | CALL, Some cb => [(cb, l)]
                             | _, _ => []
                             end.
Proof.
  intros Hc Hp Hneg. cbv zeta.
  rewrite (apply_object _ _ _ _ _ Hc Hp), (children_of_default _ _ _ Hc).
  set (l := children_of st c).
  assert (0 < Z.of_nat (length l) - max_size pol)%Z as Hgt by lia.
  pose proof (applied_overflow p c pol l st oc Hc Hp Hgt) as Happ.
  cbv zeta in Happ. destruct Happ as (Hch & _ & _ & _ & Hout & Hcalls).
  rewrite split_children_take_drop in Hch, Hout, Hcalls by lia.
  replace (Z.to_nat (max_size pol)) with 0 in * by lia.
  rewrite Nat.sub_0_r, firstn_all, drop_all, drop_0, take_0 in *.
  rewrite Hch, Hout, Hcalls.
  by destruct (prune_from pol).
Qed.

(** X2, witness: an empty [Branch] under a bound of -1 in abort mode. *)
Lemma negative_bound_evicts_all_witness :
  (apply 1%positive (ArgObject 1%positive) negative_store).2
  = Raise (ValueError "Retention policy: removed 0 objects").
Proof.
  exact (proj1 (proj2 (negative_bound_evicts_all negative_store 1%positive
                         1%positive _ _ eq_refl eq_refl eq_refl))).
Defined.

Lemma applied_lookup p c pol l st oc :
  objects st !! c = Some oc -> policies st !! p = Some pol ->
  (exists oc', objects (applied p c pol l st).1 !! c = Some oc')
  /\ (exists pol', policies (applied p c pol l st).1 !! p = Some pol'
                   /\ max_size pol' = max_size pol).
Proof.
  intros Hc Hp. unfold applied.
  destruct (_ <=? 0)%Z; [by eauto|].
  set (victims := (split_children _ _ _).1).
  set (survivors := (split_children _ _ _).2).
  set (st1 := match prune_type pol with
              | DISCARD => retain p victims st
              | DESTROY => st
              end).
  assert (objects st1 !! c = Some oc) as Hc1.
  { unfold st1. destruct (prune_type pol); [by rewrite objects_retain|done]. }
  assert (exists pol', policies st1 !! p = Some pol'
                       /\ max_size pol' = max_size pol) as (pol' & Hp1 & Hm).
  { unfold st1. destruct (prune_type pol); [|by eauto].
    rewrite (policies_retain _ _ _ _ Hp). by eauto. }
  assert (objects (upd c (with_children (Some survivors)) st1) !! c
          = Some (with_children (Some survivors) oc)) as Hc2
    by (by rewrite lookup_upd_eq, Hc1).
  assert (policies (upd c (with_children (Some survivors)) st1) !! p
          = Some pol') as Hp2 by (by rewrite policies_upd).
  destruct (notify pol); [by eauto| |by eauto].
  destruct (callback pol); by eauto.
Qed.

(** X3.  Under a bound that is not negative, a second [apply] right after a
    first finds the container within its bound: it returns normally and
    changes nothing, whether the first call returned, reported to its
    callback or raised.  So nothing is evicted, retained or reported
    twice. *)
Theorem apply_twice_is_apply_once st p c oc pol :
  objects st !! c = Some oc -> policies st !! p = Some pol ->
  (0 <= max_size pol)%Z ->
  let r := apply p (ArgObject c) st in
  apply p (ArgObject c) r.1 = (r.1, Return tt).
Proof.
  intros Hc Hp Hmax. cbv zeta.
  destruct (apply p (ArgObject c) st) as [st' out] eqn:Happ. cbn [fst].
  rewrite (apply_object _ _ _ _ _ Hc Hp), (children_of_default _ _ _ Hc)
    in Happ.
  set (l := children_of st c) in *.
  destruct (applied_lookup p c pol l st oc Hc Hp)
    as ((oc' & Hc') & (pol' & Hp' & Hm')).
  rewrite Happ in Hc', Hp'. simpl in Hc', Hp'.
  rewrite (apply_object _ _ _ _ _ Hc' Hp'), (children_of_default _ _ _ Hc').
  assert (Z.of_nat (length (children_of st' c)) - max_size pol' <= 0)%Z
    as Hle.
  { destruct (Z.leb_spec (Z.of_nat (length l) - max_size pol) 0) as [Hl|Hgt].
    - unfold applied in Happ. rewrite (proj2 (Z.leb_le _ _) Hl) in Happ.
      injection Happ as <- _. fold l. lia.
    - pose proof (applied_overflow p c pol l st oc Hc Hp Hgt) as Hov.
      cbv zeta in Hov. destruct Hov as (Hch & _).
      rewrite Happ in Hch. simpl in Hch. rewrite Hch.
      destruct (split_children_length (prune_from pol)
                  (Z.of_nat (length l) - max_size pol) l) as [_ Hs]; [lia|].
      rewrite Hs. lia. }
  unfold applied. by rewrite (proj2 (Z.leb_le _ _) Hle).
Qed.

(** X3, witness: five leaves under a bound of three that aborts; the first
    call raises, the second returns. *)
Lemma apply_twice_is_apply_once_witness :
  (apply 1%positive (ArgObject 1%positive) (five_store FORWARD RAISE)).2
  = Raise (ValueError "Retention policy: removed 2 objects")
  /\ apply 1%positive (ArgObject 1%positive)
       (apply 1%positive (ArgObject 1%positive) (five_store FORWARD RAISE)).1
     = ((apply 1%positive (ArgObject 1%positive)
           (five_store FORWARD RAISE)).1, Return tt).
Proof.
  split; [vm_compute; reflexivity|].
  apply (apply_twice_is_apply_once (five_store FORWARD RAISE) 1%positive
           1%positive _ _ eq_refl eq_refl).
  simpl. lia.
Defined.

(** X4.  [apply] rewrites the container's list and no [parent] field: on a
    container that held the invariant and is over its bound, every former
    child, evicted or not, still names the container as its parent, so the
    containment invariant no longer holds. *)
Theorem evicted_children_keep_parent st p c oc pol :
  containment st ->
  objects st !! c = Some oc -> policies st !! p = Some pol ->
  let l := children_of st c in
  (max_size pol < Z.of_nat (length l))%Z -> l ≠ [] ->
  let r := apply p (ArgObject c) st in
  (forall v, v ∈ l -> parent_of r.1 v = Some c)
  /\ length (children_of r.1 c) < length l
  /\ ~ containment r.1.
Proof.
  intros [Hiff Hnd] Hc Hp. cbv zeta. intros Hov Hne.
  rewrite (apply_object _ _ _ _ _ Hc Hp), (children_of_default _ _ _ Hc).
  set (l := children_of st c) in *.
  assert (0 < Z.of_nat (length l) - max_size pol)%Z as Hgt by lia.
  pose proof (applied_overflow p c pol l st oc Hc Hp Hgt) as Happ.
  cbv zeta in Happ. destruct Happ as (Hch & _ & Hpar & _).
  assert (forall v, v ∈ l -> parent_of (applied p c pol l st).1 v = Some c)
    as Hkeep.
  { intros v Hv. rewrite Hpar. by apply Hiff. }
  assert (length (children_of (applied p c pol l st).1 c) < length l) as Hlt.
  { rewrite Hch, split_children_survivors by done.
    destruct l; [done|]. simpl length in *. lia. }
  split; [done|]. split; [done|].
  intros [Hiff' _].
  assert (l ⊆ children_of (applied p c pol l st).1 c) as Hsub.
  { intros v Hv. apply Hiff', Hkeep, Hv. }
  apply (NoDup_submseteq _ _ (Hnd c)) in Hsub.
  apply submseteq_length in Hsub. fold l in Hsub. lia.
Qed.

(** X4, witness: five leaves under a bound of three. *)
Lemma evicted_children_keep_parent_witness :
  parent_of (apply 1%positive (ArgObject 1%positive)
               (five_store FORWARD SUPPRESS)).1 6%positive
  = Some 1%positive.
Proof.
  refine (proj1 (evicted_children_keep_parent (five_store FORWARD SUPPRESS)
                   1%positive 1%positive _ _ _ eq_refl eq_refl _ _)
            6%positive _).
  - apply containment_check_sound. vm_compute. reflexivity.
  - vm_compute. reflexivity.
  - vm_compute. discriminate.
  - vm_compute. set_solver.
Defined.

(** ** More on composition *)

Lemma well_typed_check_sound st : well_typed_check st = true -> well_typed st.
Proof.
  unfold well_typed_check. rewrite forallb_forall. intros Hall c x Hx.
  unfold children_of in Hx.
  destruct (objects st !! c) as [oc|] eqn:Hc; [|by apply elem_of_nil in Hx].
  simpl in Hx. specialize (Hall (c, oc)). simpl in Hall.
  rewrite <- list_elem_of_In, elem_of_map_to_list in Hall.
  specialize (Hall Hc). rewrite forallb_forall in Hall.
  apply list_elem_of_In, Hall in Hx.
  destruct (class_of st x) as [kx|] eqn:Hkx; [|done].
  exists (cls oc), kx. unfold class_of. rewrite Hc.
  split; [done|]. split; [done|]. by apply bool_decide_eq_true_1 in Hx.
Qed.

Lemma split_children_survivors_subseteq pf overflow (l : list addr) :
  (split_children pf overflow l).2 ⊆ l.
Proof.
  intros y. unfold split_children, slice_to, slice_from.
  destruct pf; simpl.
  - apply subseteq_take.
  - apply subseteq_drop.
Qed.

Lemma apply_retention_children c arg st y :
  (forall s, arg s = ArgObject c \/ exists l, arg s = ArgList l) ->
  y ∈ children_of (apply_retention c arg st).1 c -> y ∈ children_of st c.
Proof.
  intros Harg. unfold apply_retention, get_obj. unfold_monad.
  destruct (objects st !! c) as [oc|] eqn:Hc; [|done].
  destruct (retention oc) as [p|]; [|done].
  destruct (Harg oc) as [->|[l ->]]; [|done].
  destruct (policies st !! p) as [pol|] eqn:Hp.
  2:{ unfold apply, get_policy. unfold_monad.
      by rewrite (get_obj_run _ _ _ Hc), Hp. }
  rewrite (apply_object _ _ _ _ _ Hc Hp), (children_of_default _ _ _ Hc).
  set (l := children_of st c).
  destruct (Z.leb_spec (Z.of_nat (length l) - max_size pol) 0) as [Hle|Hgt].
  - unfold applied. by rewrite (proj2 (Z.leb_le _ _) Hle).
  - pose proof (applied_overflow p c pol l st oc Hc Hp Hgt) as Happ.
    cbv zeta in Happ. destruct Happ as (-> & _).
    apply split_children_survivors_subseteq.
Qed.

Section TypingFacts.

Variable obj_eq : store -> addr -> addr -> bool.

Lemma KObject_add_children c x st y :
  y ∈ children_of (KObject_add obj_eq c x st).1 c ->
  y ∈ children_of st c
  \/ (y = x /\ exists oc ox, objects st !! c = Some oc
                             /\ objects st !! x = Some ox
                             /\ cls ox ∈ allowed_children (cls oc)).
Proof.
  destruct (objects st !! c) as [oc|] eqn:Hc;
    [|rewrite KObject_add_stuck by auto; auto].
  destruct (objects st !! x) as [ox|] eqn:Hx;
    [|rewrite KObject_add_stuck by auto; auto].
  destruct (decide (cls ox ∈ allowed_children (cls oc))) as [Hin|Hout];
    [|rewrite (KObject_add_rejects obj_eq _ _ _ _ _ Hc Hx Hout); auto].
  rewrite (KObject_add_accepts obj_eq _ _ _ _ _ Hc Hx Hin).
  destruct (py_in obj_eq _ x _); simpl.
  - rewrite children_of_setdefault. auto.
  - rewrite (children_of_appended _ _ _ _ _ _ Hc Hx), decide_True by done.
    intros [Hy| ->%list_elem_of_singleton]%elem_of_app; [auto|].
    right. split; [done|]. by exists oc, ox.
Qed.

Lemma add_children c x st y :
  y ∈ children_of (add obj_eq c x st).1 c ->
  y ∈ children_of st c
  \/ (y = x /\ exists oc ox, objects st !! c = Some oc
                             /\ objects st !! x = Some ox
                             /\ cls ox ∈ allowed_children (cls oc)).
Proof.
  set (new := y = x /\ exists oc ox, objects st !! c = Some oc
                                     /\ objects st !! x = Some ox
                                     /\ cls ox ∈ allowed_children (cls oc)).
  assert (forall arg,
             (forall s, arg s = ArgObject c \/ exists l, arg s = ArgList l) ->
             y ∈ children_of ((result ← KObject_add obj_eq c x;
                               apply_retention c arg;; ret result) st).1 c ->
             y ∈ children_of st c \/ new)
    as Hboth.
  { intros arg Harg. unfold_monad.
    pose proof (KObject_add_children c x st y) as H1. fold new in H1.
    destruct (KObject_add obj_eq c x st) as [st1 [r|e|]]; simpl in *;
      try done.
    pose proof (apply_retention_children c arg st1 y Harg) as H2.
    destruct (apply_retention c arg st1) as [st2 [?|?|]]; simpl in *; auto. }
  pose proof (KObject_add_children c x st y) as Hbase. fold new in Hbase.
  clearbody new.
  unfold add, get_obj. unfold_monad.
  destruct (objects st !! c) as [oc|]; [|auto].
  destruct (cls oc); try exact Hbase.
  - apply (Hboth (fun _ => ArgObject c)). auto.
  - apply (Hboth (fun _ => ArgObject c)). auto.
  - apply (Hboth (fun _ => ArgObject c)). auto.
  - apply (Hboth (fun _ => ArgObject c)). auto.
  - apply (Hboth (fun s => ArgList (default [] (children s)))). eauto.
Qed.

Lemma KObject_sub_children c x st y :
  y ∈ children_of (KObject_sub obj_eq c x st).1 c -> y ∈ children_of st c.
Proof.
  destruct (decide (parent_of st x = Some c)) as [Hpar|Hpar];
    [|by rewrite KObject_sub_skips].
  rewrite (KObject_sub_detaches _ _ _ _ Hpar).
  destruct (py_remove _ _ _ _) as [rest|] eqn:Hrm; simpl.
  - rewrite children_of_upd, decide_True by done.
    apply py_remove_some in Hrm as (l1 & e & l2 & Hl & ->).
    destruct (objects (detached x st) !! c); simpl; [|by intros ?%elem_of_nil].
    rewrite Hl, !elem_of_app, elem_of_cons. tauto.
  - unfold detached. by rewrite children_of_upd_parent.
Qed.

(** X5.  Composition and decomposition keep the hierarchy well typed: if
    every child has a class its container allows, so it is after [c + x]
    and after [c - x], whatever they return or raise and whatever a
    retention policy evicts on the way. *)
Theorem composition_keeps_well_typed st c x :
  well_typed st ->
  well_typed (add obj_eq c x st).1
  /\ well_typed (KObject_sub obj_eq c x st).1.
Proof.
  intros Hwt.
  assert (forall st',
             frame c x st st' ->
             (forall y, y ∈ children_of st' c ->
                y ∈ children_of st c
                \/ (y = x /\ exists oc ox, objects st !! c = Some oc
                                           /\ objects st !! x = Some ox
                                           /\ cls ox ∈ allowed_children (cls oc))) ->
             well_typed st') as Hgen.
  { intros st' (Hag & _ & Hch) Hsub d y Hy.
    rewrite !(class_of_agree st st') by exact Hag.
    destruct (decide (d = c)) as [->|Hd].
    - destruct (Hsub y Hy) as [Hold|(-> & oc & ox & Hc & Hx & Hin)].
      + by apply Hwt.
      + exists (cls oc), (cls ox). unfold class_of. by rewrite Hc, Hx.
    - apply Hwt. by rewrite <- Hch. }
  split.
  - apply Hgen; [apply frame_add|apply add_children].
  - apply Hgen; [apply frame_KObject_sub|].
    intros y Hy. left. by apply KObject_sub_children in Hy.
Qed.

End TypingFacts.

(** X5, witness: a leaf composed into a [Branch] that holds two. *)
Lemma composition_keeps_well_typed_witness :
  well_typed (add KObject_eq 1%positive 3%positive family_store).1
  /\ well_typed (KObject_sub KObject_eq 1%positive 3%positive family_store).1.
Proof.
  apply (composition_keeps_well_typed KObject_eq family_store 1%positive
           3%positive).
  apply well_typed_check_sound. vm_compute. reflexivity.
Defined.

Lemma setdefault_children_set o l :
  children o = Some l -> setdefault_children o = o.
Proof. destruct o. simpl. by intros ->. Qed.

Lemma upd_id a f st o :
  objects st !! a = Some o -> f o = o -> upd a f st = st.
Proof.
  intros Ha Hf. unfold upd, update_obj. rewrite Ha, Hf. simpl.
  unfold with_objects. rewrite insert_id by done. by destruct st.
Qed.

Lemma lookup_setdefault st c oc :
  objects st !! c = Some oc ->
  objects (upd c setdefault_children st) !! c
  = Some (setdefault_children oc).
Proof. intros Hc. by rewrite lookup_upd_eq, Hc. Qed.

Section CompositionRoundTrips.

Variable obj_eq : store -> addr -> addr -> bool.

Lemma py_in_elem st x l : x ∈ l -> py_in obj_eq st x l = true.
Proof.
  intros Hx. unfold py_in. apply existsb_exists. exists x.
  split; [by apply list_elem_of_In|]. by rewrite bool_decide_true.
Qed.

Lemma KObject_add_again st c x st1 r :
  KObject_add obj_eq c x st = (st1, Return r) ->
  KObject_add obj_eq c x st1 = (st1, Return r).
Proof.
  destruct (objects st !! c) as [oc|] eqn:Hc;
    [|by rewrite KObject_add_stuck by auto].
  destruct (objects st !! x) as [ox|] eqn:Hx;
    [|by rewrite KObject_add_stuck by auto].
  destruct (decide (cls ox ∈ allowed_children (cls oc))) as [Hin|Hout];
    [|by rewrite (KObject_add_rejects obj_eq _ _ _ _ _ Hc Hx Hout)].
  rewrite (KObject_add_accepts obj_eq _ _ _ _ _ Hc Hx Hin).
  pose proof (frame_KObject_add obj_eq c x st) as Hfr.
  rewrite (KObject_add_accepts obj_eq _ _ _ _ _ Hc Hx Hin) in Hfr.
  destruct (py_in obj_eq _ x _) eqn:Hpy; intros [= <- <-]; simpl in Hfr.
  - (* an equal child was there: nothing but the key was set *)
    set (st1 := upd c setdefault_children st) in *.
    destruct (frame_lookup _ _ _ _ _ _ Hfr Hc) as (oc1 & Hc1 & Hid1).
    destruct (frame_lookup _ _ _ _ _ _ Hfr Hx) as (ox1 & Hx1 & Hidx).
    assert (cls ox1 ∈ allowed_children (cls oc1)) as Hin1.
    { unfold identity_of in *. congruence. }
    rewrite (KObject_add_accepts obj_eq _ _ _ _ _ Hc1 Hx1 Hin1).
    assert (upd c setdefault_children st1 = st1) as Hsame.
    { apply (upd_id _ _ _ oc1 Hc1).
      unfold st1 in Hc1. rewrite (lookup_setdefault _ _ _ Hc) in Hc1.
      injection Hc1 as <-. by destruct oc. }
    rewrite Hsame.
    assert (children_of st1 c = children_of st c) as ->
      by apply children_of_setdefault.
    by rewrite Hpy.
  - (* the child was appended: it is found by identity *)
    set (st1 := appended c x st) in *.
    destruct (frame_lookup _ _ _ _ _ _ Hfr Hc) as (oc1 & Hc1 & Hid1).
    destruct (frame_lookup _ _ _ _ _ _ Hfr Hx) as (ox1 & Hx1 & Hidx).
    assert (cls ox1 ∈ allowed_children (cls oc1)) as Hin1.
    { unfold identity_of in *. congruence. }
    rewrite (KObject_add_accepts obj_eq _ _ _ _ _ Hc1 Hx1 Hin1).
    assert (children_of st1 c = children_of st c ++ [x]) as Hch.
    { unfold st1. rewrite (children_of_appended _ _ _ _ _ _ Hc Hx).
      by rewrite decide_True. }
    assert (exists l, children oc1 = Some l) as [l Hl].
    { destruct (lookup_appended_container st c x oc ox Hc Hx)
        as (oc2 & Hc2 & _ & _ & Hsome).
      fold st1 in Hc2. rewrite Hc1 in Hc2. injection Hc2 as <-.
      destruct (children oc1); [by eauto|]. simpl in Hsome.
      by destruct (children_of st c). }
    assert (upd c setdefault_children st1 = st1) as Hsame.
    { apply (upd_id _ _ _ oc1 Hc1). by apply (setdefault_children_set _ l). }
    rewrite Hsame, Hch, py_in_elem; [done|].
    apply elem_of_app. right. by left.
Qed.

(** X6.  On a container without retention policy, composing the same child
    a second time changes nothing: [c + x] followed by [c + x] leaves the
    store, and returns or raises, exactly as one [c + x] does. *)
Theorem add_twice_is_add_once st c x :
  (forall oc, objects st !! c = Some oc -> retention oc = None) ->
  (add obj_eq c x;; add obj_eq c x) st = add obj_eq c x st.
Proof.
  intros Hnone. unfold_monad.
  rewrite (add_without_retention obj_eq st c x Hnone).
  destruct (KObject_add obj_eq c x st) as [st1 out] eqn:Hadd.
  destruct out as [r| |]; [|done|done].
  assert (forall oc1, objects st1 !! c = Some oc1 -> retention oc1 = None)
    as Hnone1.
  { intros oc1 Hc1.
    pose proof (frame_KObject_add obj_eq c x st) as Hfr.
    rewrite Hadd in Hfr. simpl in Hfr. destruct Hfr as (Hag & _).
    specialize (Hag c). rewrite Hc1 in Hag.
    destruct (objects st !! c) as [oc|] eqn:Hc; [|done].
    simpl in Hag. unfold identity_of in Hag.
    rewrite <- (Hnone oc eq_refl). congruence. }
  rewrite (add_without_retention obj_eq st1 c x Hnone1).
  by apply (KObject_add_again st).
Qed.

Lemma py_remove_snoc st x l :
  (forall e, e ∈ l -> bool_decide (e = x) || obj_eq st e x = false) ->
  py_remove obj_eq st x (l ++ [x]) = Some l.
Proof.
  induction l as [|e l IH]; intros Hne; simpl.
  - by rewrite bool_decide_true.
  - rewrite (Hne e) by (by left). rewrite IH; [done|].
    intros e' He'. apply Hne. by right.
Qed.

(** X7.  [c - x] undoes [c + x]: when [x] has no parent, no child of [c] is
    [x] or compares equal to it, and [c] has no retention policy, composing
    and then decomposing returns [x] and leaves every parent and every
    list of children as they were. *)
Theorem sub_undoes_add st c x oc ox :
  objects st !! c = Some oc -> objects st !! x = Some ox ->
  cls ox ∈ allowed_children (cls oc) ->
  retention oc = None ->
  parent_of st x = None ->
  py_in obj_eq (upd c setdefault_children st) x (children_of st c) = false ->
  (forall e, e ∈ children_of st c ->
             bool_decide (e = x)
             || obj_eq (detached x (appended c x st)) e x = false) ->
  let r := (add obj_eq c x;; KObject_sub obj_eq c x) st in
  r.2 = Return x
  /\ (forall y, parent_of r.1 y = parent_of st y)
  /\ (forall d, children_of r.1 d = children_of st d).
Proof.
  intros Hc Hx Hin Hret Hpar Hpy Hne. cbv zeta. unfold_monad.
  rewrite (add_without_retention obj_eq st c x)
    by (intros oc' Hc'; congruence).
  rewrite (KObject_add_accepts obj_eq _ _ _ _ _ Hc Hx Hin), Hpy.
  set (st1 := appended c x st).
  assert (parent_of st1 x = Some c) as Hpar1.
  { unfold st1. rewrite (parent_of_appended _ _ _ _ _ _ Hc Hx).
    by rewrite decide_True. }
  assert (children_of st1 c = children_of st c ++ [x]) as Hch1.
  { unfold st1. rewrite (children_of_appended _ _ _ _ _ _ Hc Hx).
    by rewrite decide_True. }
  rewrite (KObject_sub_detaches obj_eq _ _ _ Hpar1), Hch1.
  rewrite (py_remove_snoc (detached x st1) x (children_of st c) Hne). simpl.
  split; [done|]. split.
  - intros y. rewrite parent_of_upd_children by (by intros []).
    unfold detached. rewrite parent_of_upd_parent.
    destruct (decide (y = x)) as [->|Hy].
    + rewrite Hpar. unfold parent_of in Hpar1.
      by destruct (objects st1 !! x).
    + unfold st1. rewrite (parent_of_appended _ _ _ _ _ _ Hc Hx).
      by rewrite decide_False.
  - intros d. rewrite children_of_upd.
    destruct (decide (d = c)) as [->|Hd].
    + unfold detached. rewrite lookup_upd.
      destruct (lookup_appended_container st c x oc ox Hc Hx)
        as (oc2 & Hc2 & _).
      fold st1 in Hc2.
      destruct (decide (c = x)); rewrite Hc2; simpl; symmetry;
        apply (children_of_default _ _ _ Hc) || idtac.
      all: unfold children_of; by rewrite Hc.
    + unfold detached. rewrite children_of_upd_parent. unfold st1.
      rewrite (children_of_appended _ _ _ _ _ _ Hc Hx).
      by rewrite decide_False.
Qed.

End CompositionRoundTrips.

(** X8.  [obj * n] builds its list from [self.clone()], which no class
    defines: for [n <= 0] the range is empty and the result is the empty
    list; for every [n > 0] the call raises [AttributeError] and no copy is
    ever made.  The store is left as it was. *)
Theorem mul_never_clones st a oa (n : Z) :
  objects st !! a = Some oa ->
  KObject_mul a n st
  = (st, if (n <=? 0)%Z then Return []
         else Raise (AttributeError (no_attribute_message (cls oa) "clone"))).
Proof.
  intros Ha. unfold KObject_mul. destruct (n <=? 0)%Z; [done|].
  unfold get_method. unfold_monad. rewrite (get_obj_run _ _ _ Ha).
  by destruct (cls oa).
Qed.

(** X8, witness: three copies of a [Branch]. *)
Lemma mul_never_clones_witness :
  KObject_mul 1%positive 3 family_store
  = (family_store,
     Raise (AttributeError "'Branch' object has no attribute 'clone'")).
Proof. exact (mul_never_clones family_store 1%positive _ 3 eq_refl). Defined.

(** X6, witness: a detached leaf composed twice into a [Branch]. *)
Lemma add_twice_is_add_once_witness :
  (add KObject_eq 1%positive 3%positive;;
   add KObject_eq 1%positive 3%positive) family_store
  = add KObject_eq 1%positive 3%positive family_store.
Proof.
  apply add_twice_is_add_once.
  intros oc Hc. vm_compute in Hc. by injection Hc as <-.
Defined.

(** X7, witness: a detached leaf composed into a [Branch] and taken out
    again. *)
Lemma sub_undoes_add_witness :
  children_of ((add KObject_eq 1%positive 3%positive;;
                KObject_sub KObject_eq 1%positive 3%positive)
                 family_store).1 1%positive
  = [2; 4]%positive.
Proof.
  refine (proj2 (proj2 (sub_undoes_add KObject_eq family_store 1%positive
                          3%positive _ _ eq_refl eq_refl _ eq_refl eq_refl
                          _ _)) 1%positive).
  - vm_compute. set_solver.
  - vm_compute. reflexivity.
  - intros e He. vm_compute in He.
    apply elem_of_cons in He as [->|He]; [vm_compute; reflexivity|].
    apply elem_of_cons in He as [->|He]; [vm_compute; reflexivity|].
    by apply elem_of_nil in He.
Defined.

(** ** The path of an object and the order by depth *)

Lemma path_loop_lineage fuel st a p r :
  path_loop fuel st (Some a) p = Some r ->
  exists q, lineage st q a /\ length q < fuel /\ r = q ++ reverse p.
Proof.
  revert a p. induction fuel as [|fuel IH]; intros a p; simpl; [done|].
  destruct (parent_of st a) as [b|] eqn:Hpar.
  - intros Hrun. destruct (IH b (p ++ [a]) Hrun) as (q & Hq & Hlen & ->).
    exists (q ++ [a]). split; [by apply (lineage_child st q b a)|].
    split; [rewrite length_app; simpl; lia|].
    by rewrite reverse_app, <- app_assoc.
  - destruct fuel as [|fuel]; simpl; [done|]. intros [= <-].
    exists [a]. split; [by apply lineage_root|].
    split; [simpl; lia|]. by rewrite reverse_app.
Qed.

Lemma lineage_path_loop st q a :
  lineage st q a ->
  forall fuel p, length q < fuel ->
    path_loop fuel st (Some a) p = Some (q ++ reverse p).
Proof.
  induction 1 as [a Hroot|q b a Hq IH Hpar]; intros fuel p Hlen.
  - destruct fuel as [|[|fuel]]; simpl in *; try lia.
    by rewrite Hroot, reverse_app.
  - rewrite length_app in Hlen. simpl in Hlen.
    destruct fuel as [|fuel]; [lia|]. simpl. rewrite Hpar.
    rewrite IH by lia. by rewrite reverse_app, <- app_assoc.
Qed.

Lemma lineage_nonempty st p a : lineage st p a -> p ≠ [].
Proof. destruct 1; [done|]. by destruct p. Qed.

Lemma lineage_last st p a : lineage st p a -> last p = Some a.
Proof. destruct 1; [done|]. by rewrite last_snoc. Qed.

Lemma lineage_parent st p a b :
  lineage st p a -> parent_of st a = Some b ->
  exists q, p = q ++ [a] /\ lineage st q b.
Proof.
  destruct 1 as [a Hroot|q b' a Hq Hpar]; intros Hb; [congruence|].
  exists q. split; [done|]. congruence.
Qed.

Lemma lineage_functional st p q a :
  lineage st p a -> lineage st q a -> p = q.
Proof.
  intros Hp. revert q.
  induction Hp as [a Hroot|p b a Hp IH Hpar]; intros q Hq.
  - destruct Hq as [a _|q b a Hq Hpar]; [done|congruence].
  - destruct (lineage_parent _ _ _ _ Hq Hpar) as (q' & -> & Hq').
    by rewrite (IH q' Hq').
Qed.

Lemma lineage_head st p a :
  lineage st p a -> exists r, head p = Some r /\ parent_of st r = None.
Proof.
  induction 1 as [a Hroot|p b a Hp (r & Hr & Hnone) Hpar]; [by exists a|].
  exists r. split; [|done]. destruct p; [done|]. done.
Qed.

(** X9.  [obj.path] returns exactly the chain of ancestors: the list it
    returns starts at an object without parent, ends at [obj], and each
    element is the parent of the next; there is no other such list, and the
    loop returns it after one round per element. *)
Theorem path_is_lineage fuel st a p :
  KObject_path fuel st a = Some p <-> lineage st p a /\ length p < fuel.
Proof.
  unfold KObject_path. split.
  - intros Hrun. destruct (path_loop_lineage _ _ _ _ _ Hrun) as (q & Hq & ? & ->).
    by rewrite app_nil_r.
  - intros [Hp Hlen]. rewrite (lineage_path_loop _ _ _ Hp) by done.
    by rewrite app_nil_r.
Qed.

Lemma lineage_step_down st p a b :
  lineage st p a -> child_of st a b ->
  exists q, lineage st q b /\ length q < length p.
Proof.
  intros Hp Hb. destruct (lineage_parent _ _ _ _ Hp Hb) as (q & -> & Hq).
  exists q. split; [done|]. rewrite length_app. simpl. lia.
Qed.

Lemma lineage_rtc st p a b :
  rtc (child_of st) a b -> lineage st p a ->
  exists q, lineage st q b /\ length q <= length p.
Proof.
  intros Hab. revert p. induction Hab as [a|a c b Hac _ IH]; intros p Hp.
  - by exists p.
  - destruct (lineage_step_down _ _ _ _ Hp Hac) as (q & Hq & Hlen).
    destruct (IH q Hq) as (q' & Hq' & Hlen'). exists q'. split; [done|lia].
Qed.

Lemma lineage_tc st p a b :
  tc (child_of st) a b -> lineage st p a ->
  exists q, lineage st q b /\ length q < length p.
Proof.
  intros Hab. revert p. induction Hab as [a b Hab|a c b Hac _ IH]; intros p Hp.
  - by apply (lineage_step_down _ _ a).
  - destruct (lineage_step_down _ _ _ _ Hp Hac) as (q & Hq & Hlen).
    destruct (IH q Hq) as (q' & Hq' & Hlen'). exists q'. split; [done|lia].
Qed.

(** An object that is its own ancestor has no lineage. *)
Lemma cycle_no_lineage st b : tc (child_of st) b b -> forall p, ~ lineage st p b.
Proof.
  intros Hcyc p. remember (length p) as n eqn:Hn. revert p Hn.
  induction (lt_wf n) as [n _ IH]. intros p -> Hp.
  destruct (lineage_tc _ _ _ _ Hcyc Hp) as (q & Hq & Hlen).
  by apply (IH (length q) Hlen q).
Qed.

Lemma above_cycle_no_lineage st a b :
  rtc (child_of st) a b -> tc (child_of st) b b -> forall p, ~ lineage st p a.
Proof.
  intros Hab Hcyc p Hp. destruct (lineage_rtc _ _ _ _ Hab Hp) as (q & Hq & _).
  by apply (cycle_no_lineage st b Hcyc q).
Qed.

Lemma above_cycle_no_path st a b :
  rtc (child_of st) a b -> tc (child_of st) b b ->
  forall fuel, KObject_path fuel st a = None.
Proof.
  intros Hab Hcyc fuel.
  destruct (KObject_path fuel st a) as [p|] eqn:Hrun; [|done].
  unfold KObject_path in Hrun.
  destruct (path_loop_lineage _ _ _ _ _ Hrun) as (q & Hq & _).
  by destruct (above_cycle_no_lineage st a b Hab Hcyc q).
Qed.

(** X10.  An object has the path of its parent followed by itself: it is
    greater than its parent, which is less than it, and both have the same
    root. *)
Theorem child_is_below_parent fuel st x c p :
  parent_of st x = Some c ->
  KObject_path fuel st x = Some p ->
  exists q, p = q ++ [x]
            /\ KObject_path fuel st c = Some q
            /\ KObject_lt fuel st c x = Some true
            /\ KObject_gt fuel st x c = Some true
            /\ KObject_root fuel st x = KObject_root fuel st c.
Proof.
  intros Hpar Hrun. unfold KObject_path in Hrun.
  destruct (path_loop_lineage _ _ _ _ _ Hrun) as (p' & Hp & Hlen & Heq).
  rewrite app_nil_r in Heq. subst p'.
  destruct (lineage_parent _ _ _ _ Hp Hpar) as (q & -> & Hq).
  rewrite length_app in Hlen. simpl in Hlen.
  assert (KObject_path fuel st c = Some q) as Hc.
  { unfold KObject_path. rewrite (lineage_path_loop _ _ _ Hq) by lia.
    by rewrite app_nil_r. }
  assert (KObject_path fuel st x = Some (q ++ [x])) as Hx.
  { unfold KObject_path. by rewrite Hrun. }
  exists q. split; [done|]. split; [done|].
  unfold KObject_lt, KObject_gt, KObject_root. rewrite Hc, Hx. simpl.
  rewrite length_app. simpl.
  replace (length q <? length q + 1) with true
    by (symmetry; apply Nat.ltb_lt; lia).
  split; [done|]. split; [done|].
  pose proof (lineage_nonempty _ _ _ Hq). by destruct q.
Qed.

(** X10, witness: a leaf of [family_store] under its [Branch]. *)
Lemma child_is_below_parent_witness :
  exists q, [1; 2]%positive = q ++ [2%positive]
            /\ KObject_path 5 family_store 1%positive = Some q
            /\ KObject_lt 5 family_store 1%positive 2%positive = Some true
            /\ KObject_gt 5 family_store 2%positive 1%positive = Some true
            /\ KObject_root 5 family_store 2%positive
               = KObject_root 5 family_store 1%positive.
Proof.
  exact (child_is_below_parent 5 family_store 2%positive 1%positive
           [1; 2]%positive eq_refl eq_refl).
Defined.

(** X11.  [path] has no guard against a cycle of parents: on an object that
    is its own ancestor, and on every descendant of such an object, the
    loop never ends, and neither do [root] and the comparisons [<] and
    [>], which start by taking the path. *)
Theorem path_never_returns_below_a_cycle st a b :
  rtc (child_of st) a b -> tc (child_of st) b b ->
  forall fuel other,
    KObject_path fuel st a = None
    /\ KObject_root fuel st a = None
    /\ KObject_lt fuel st a other = None
    /\ KObject_gt fuel st a other = None
    /\ KObject_lt fuel st other a = None.
Proof.
  intros Hab Hcyc fuel other.
  pose proof (above_cycle_no_path st a b Hab Hcyc fuel) as Hnone.
  unfold KObject_root, KObject_lt, KObject_gt. rewrite Hnone. simpl.
  repeat split; try done.
  by destruct (KObject_path fuel st other).
Qed.

(** X11, witness: the leaf of [self_parent_store]. *)
Lemma path_never_returns_below_a_cycle_witness :
  KObject_path 100 self_parent_store 1%positive = None.
Proof.
  refine (proj1 (path_never_returns_below_a_cycle self_parent_store
                   1%positive 1%positive _ _ 100 1%positive)).
  - apply rtc_refl.
  - apply tc_once. reflexivity.
Defined.

(** [apply] never assigns a parent. *)
Lemma apply_retention_parents c arg st y :
  (forall s, arg s = ArgObject c \/ exists l, arg s = ArgList l) ->
  parent_of (apply_retention c arg st).1 y = parent_of st y.
Proof.
  intros Harg.
  destruct (frame_apply_retention c (Pos.succ y) arg st Harg) as (_ & Hpar & _).
  apply Hpar. lia.
Qed.

Section PathAfterComposition.

Variable obj_eq : store -> addr -> addr -> bool.

(** The parents after [c + x] are those [KObject.__add__] leaves. *)
Lemma add_parents c x st y :
  parent_of (add obj_eq c x st).1 y
  = parent_of (KObject_add obj_eq c x st).1 y.
Proof.
  assert (forall arg,
             (forall s, arg s = ArgObject c \/ exists l, arg s = ArgList l) ->
             parent_of ((result ← KObject_add obj_eq c x;
                         apply_retention c arg;; ret result) st).1 y
             = parent_of (KObject_add obj_eq c x st).1 y) as Hboth.
  { intros arg Harg. unfold_monad.
    destruct (KObject_add obj_eq c x st) as [st1 [r|e|]]; simpl; try done.
    pose proof (apply_retention_parents c arg st1 y Harg) as H2.
    by destruct (apply_retention c arg st1) as [st2 [?|?|]]. }
  unfold add at 1, get_obj. unfold_monad.
  destruct (objects st !! c) as [oc|] eqn:Hc;
    [|by rewrite KObject_add_stuck by auto].
  destruct (cls oc); try done.
  - apply (Hboth (fun _ => ArgObject c)). auto.
  - apply (Hboth (fun _ => ArgObject c)). auto.
  - apply (Hboth (fun _ => ArgObject c)). auto.
  - apply (Hboth (fun _ => ArgObject c)). auto.
  - apply (Hboth (fun s => ArgList (default [] (children s)))). eauto.
Qed.

(** The parents after a [c + x] that appends [x]. *)
Lemma add_appends_parents st c x oc ox y :
  objects st !! c = Some oc -> objects st !! x = Some ox ->
  cls ox ∈ allowed_children (cls oc) ->
  py_in obj_eq (upd c setdefault_children st) x (children_of st c) = false ->
  parent_of (add obj_eq c x st).1 y
  = if decide (y = x) then Some c else parent_of st y.
Proof.
  intros Hc Hx Hin Hpy. rewrite add_parents.
  rewrite (KObject_add_accepts obj_eq _ _ _ _ _ Hc Hx Hin), Hpy. simpl.
  apply (parent_of_appended _ _ _ _ _ _ Hc Hx).
Qed.

Lemma rtc_child_of_ext st st' x a b :
  (forall y, y ≠ x -> parent_of st' y = parent_of st y) ->
  rtc (child_of st) a b ->
  exists b', rtc (child_of st') a b' /\ (b' = b \/ b' = x).
Proof.
  intros Hext. induction 1 as [a|a c b Hac _ (b' & Hb' & Hor)].
  - exists a. split; [apply rtc_refl|by left].
  - destruct (decide (a = x)) as [->|Hne].
    + exists x. split; [apply rtc_refl|by right].
    + exists b'. split; [|done]. apply (rtc_l _ _ c); [|done].
      unfold child_of in *. by rewrite Hext.
Qed.

Lemma lineage_ext st st' p a :
  lineage st p a ->
  (forall b, b ∈ p -> parent_of st' b = parent_of st b) ->
  lineage st' p a.
Proof.
  induction 1 as [a Hroot|p b a Hp IH Hpar]; intros Hext.
  - apply lineage_root. rewrite Hext; [done|]. by left.
  - apply (lineage_child _ _ b).
    + apply IH. intros e He. apply Hext. apply elem_of_app. by left.
    + rewrite Hext; [done|]. apply elem_of_app. right. by left.
Qed.

(** X12.  [+] does not look at the ancestors of the container: when [x] is
    the container [c] itself or one of its ancestors, and [c + x] appends
    it, [x] becomes its own ancestor, and from then on the path of [c] and
    the path of [x] are never returned. *)
Theorem add_under_descendant_loses_path st c x oc ox :
  objects st !! c = Some oc -> objects st !! x = Some ox ->
  cls ox ∈ allowed_children (cls oc) ->
  py_in obj_eq (upd c setdefault_children st) x (children_of st c) = false ->
  rtc (child_of st) c x ->
  let r := add obj_eq c x st in
  tc (child_of r.1) x x
  /\ forall fuel, KObject_path fuel r.1 c = None
                  /\ KObject_path fuel r.1 x = None.
Proof.
  intros Hc Hx Hin Hpy Hcx. cbv zeta.
  set (st' := (add obj_eq c x st).1).
  assert (forall y, parent_of st' y
                    = if decide (y = x) then Some c else parent_of st y)
    as Hpar by (intros y; by apply (add_appends_parents st c x oc ox)).
  assert (rtc (child_of st') c x) as Hcx'.
  { destruct (rtc_child_of_ext st st' x c x) as (b' & Hb' & [->| ->]);
      try done.
    intros y Hy. by rewrite Hpar, decide_False. }
  assert (tc (child_of st') x x) as Hcyc.
  { apply (tc_rtc_r x c x); [|done]. apply tc_once.
    unfold child_of. by rewrite Hpar, decide_True. }
  split; [done|]. intros fuel. split.
  - by apply (above_cycle_no_path st' c x).
  - apply (above_cycle_no_path st' x x); [apply rtc_refl|done].
Qed.

(** X13.  When [x] is not on the path of the container [c] and [c + x]
    appends it, the path of [x] becomes the path of [c] followed by [x],
    the path of [c] stays as it was, and [c < x]. *)
Theorem add_extends_path fuel st c x oc ox p :
  objects st !! c = Some oc -> objects st !! x = Some ox ->
  cls ox ∈ allowed_children (cls oc) ->
  py_in obj_eq (upd c setdefault_children st) x (children_of st c) = false ->
  KObject_path fuel st c = Some p ->
  x ∉ p ->
  let r := add obj_eq c x st in
  KObject_path (S fuel) r.1 c = Some p
  /\ KObject_path (S fuel) r.1 x = Some (p ++ [x])
  /\ KObject_lt (S fuel) r.1 c x = Some true.
Proof.
  intros Hc Hx Hin Hpy Hrun Hnotin. cbv zeta.
  set (st' := (add obj_eq c x st).1).
  assert (forall y, parent_of st' y
                    = if decide (y = x) then Some c else parent_of st y)
    as Hpar by (intros y; by apply (add_appends_parents st c x oc ox)).
  unfold KObject_path in Hrun.
  destruct (path_loop_lineage _ _ _ _ _ Hrun) as (p' & Hp & Hlen & Heq).
  rewrite app_nil_r in Heq. subst p'.
  assert (lineage st' p c) as Hp'.
  { apply (lineage_ext st); [done|]. intros b Hb.
    rewrite Hpar, decide_False; [done|]. by intros ->. }
  assert (lineage st' (p ++ [x]) x) as Hpx.
  { apply (lineage_child _ _ c); [done|]. by rewrite Hpar, decide_True. }
  assert (KObject_path (S fuel) st' c = Some p) as Hc'.
  { unfold KObject_path. rewrite (lineage_path_loop _ _ _ Hp') by lia.
    by rewrite app_nil_r. }
  assert (KObject_path (S fuel) st' x = Some (p ++ [x])) as Hx'.
  { unfold KObject_path. rewrite (lineage_path_loop _ _ _ Hpx).
    - by rewrite app_nil_r.
    - rewrite length_app. simpl. lia. }
  split; [done|]. split; [done|].
  unfold KObject_lt. rewrite Hc', Hx'. simpl. rewrite length_app. simpl.
  f_equal. apply Nat.ltb_lt. lia.
Qed.

End PathAfterComposition.

(** X12, witness: a leaf composed under itself. *)
Lemma add_under_descendant_loses_path_witness :
  KObject_path 100 (add KObject_eq 1%positive 1%positive two_leaves).1
    1%positive = None.
Proof.
  refine (proj1 (proj2 (add_under_descendant_loses_path KObject_eq two_leaves
                          1%positive 1%positive _ _ eq_refl eq_refl _ eq_refl
                          _) 100)).
  - vm_compute. set_solver.
  - apply rtc_refl.
Defined.

(** X13, witness: the detached leaf of [family_store] composed under the
    empty [Branch]. *)
Lemma add_extends_path_witness :
  KObject_path 3 (add KObject_eq 5%positive 3%positive family_store).1
    3%positive = Some [5; 3]%positive.
Proof.
  refine (proj1 (proj2 (add_extends_path KObject_eq 2 family_store 5%positive
                          3%positive _ _ [5%positive] eq_refl eq_refl _
                          eq_refl eq_refl _))).
  - vm_compute. set_solver.
  - set_solver.
Defined.

(** ** Walking all the descendants of a [Net] *)

Lemma walk_all_loop_mono fuel fuel' st s r :
  walk_all_loop fuel st s = Some r -> fuel <= fuel' ->
  walk_all_loop fuel' st s = Some r.
Proof.
  revert fuel' s r. induction fuel as [|fuel IH]; intros fuel' s r; [done|].
  destruct fuel' as [|fuel']; [lia|]. simpl.
  destruct s as [|obj rest]; [done|].
  destruct (walk_all_loop fuel st (rest ++ children_of st obj)) as [r'|] eqn:Hr;
    [|done].
  intros [= <-] Hle. by rewrite (IH fuel' _ r' Hr) by lia.
Qed.

(** The loop yields the objects of the stack before any of their
    children. *)
Lemma walk_all_loop_app st l q fuel r :
  walk_all_loop fuel st (q ++ concat (children_of st <$> l)) = Some r ->
  walk_all_loop (length l + fuel) st (l ++ q) = Some (l ++ r).
Proof.
  revert q. induction l as [|a l IH]; intros q; simpl.
  - by rewrite app_nil_r.
  - intros Hrun. rewrite <- (assoc_L (++)).
    rewrite (IH (q ++ children_of st a)); [done|].
    by rewrite <- (assoc_L (++)).
Qed.

Lemma generation_nil st n : generation st n [] = [].
Proof. induction n; simpl; done. Qed.

Lemma generation_app st n l1 l2 :
  generation st n (l1 ++ l2) = generation st n l1 ++ generation st n l2.
Proof.
  revert l1 l2. induction n as [|n IH]; intros l1 l2; simpl; [done|].
  by rewrite fmap_app, concat_app, IH.
Qed.

Lemma generation_add st a b l :
  generation st (a + b) l = generation st b (generation st a l).
Proof. revert l. induction a as [|a IH]; intros l; simpl; [done|]. apply IH. Qed.

Lemma generation_empty_later st n n' l :
  generation st n l = [] -> n <= n' -> generation st n' l = [].
Proof.
  intros Hn Hle. replace n' with (n + (n' - n)) by lia.
  by rewrite generation_add, Hn, generation_nil.
Qed.

Lemma generation_elem st n x l :
  x ∈ l -> generation st n [x] ⊆ generation st n l.
Proof.
  intros (l1 & l2 & ->)%list_elem_of_split y Hy.
  rewrite generation_app. apply elem_of_app. right.
  change (x :: l2) with ([x] ++ l2). rewrite generation_app.
  apply elem_of_app. by left.
Qed.

Lemma walk_all_loop_levels st n l :
  generation st n l = [] ->
  exists fuel,
    walk_all_loop fuel st l
    = Some (concat ((fun k => generation st k l) <$> seq 0 n)).
Proof.
  revert l. induction n as [|n IH]; intros l; simpl.
  - intros ->. by exists 1.
  - intros Hgen. destruct (IH _ Hgen) as (fuel & Hrun).
    exists (length l + fuel).
    pose proof (walk_all_loop_app st l [] fuel _ Hrun) as Hl.
    rewrite app_nil_r in Hl. rewrite Hl. f_equal. f_equal.
    rewrite <- fmap_S_seq, <- list_fmap_compose. done.
Qed.

Lemma walk_all_loop_ends st fuel s r :
  walk_all_loop fuel st s = Some r -> exists n, generation st n s = [].
Proof.
  revert s r. induction fuel as [|fuel IH]; intros s r; [done|]. simpl.
  destruct s as [|obj rest]; [by exists 0|].
  destruct (walk_all_loop fuel st (rest ++ children_of st obj)) as [r'|] eqn:Hr;
    [|done].
  intros _. destruct (IH _ _ Hr) as (n & Hn).
  rewrite generation_app in Hn. apply app_eq_nil in Hn as [Hrest Hobj].
  exists (S n). change (obj :: rest) with ([obj] ++ rest).
  rewrite generation_app.
  rewrite (generation_empty_later st n (S n) rest Hrest) by lia.
  rewrite app_nil_r. simpl. by rewrite app_nil_r.
Qed.

(** X14.  [Net.walk_all] yields the descendants level by level: the
    children in order, then the children of each of them, and so on, an
    object as many times as there are chains of children leading to it,
    since no visited set is kept.  It ends exactly when some level is
    empty. *)
Theorem walk_all_is_level_order st self :
  (forall n,
      generation st n (children_of st self) = [] ->
      exists fuel, forall fuel',
        fuel <= fuel' ->
        Net_walk_all fuel' st self
        = Some (concat ((fun k => generation st k (children_of st self))
                        <$> seq 0 n)))
  /\ (forall fuel r,
        Net_walk_all fuel st self = Some r ->
        exists n, generation st n (children_of st self) = []).
Proof.
  split.
  - intros n Hgen.
    destruct (walk_all_loop_levels st n _ Hgen) as (fuel & Hrun).
    exists fuel. intros fuel' Hle. by apply (walk_all_loop_mono fuel).
  - intros fuel r. apply walk_all_loop_ends.
Qed.

Lemma generation_cycle st x m j :
  x ∈ generation st (S m) [x] -> x ∈ generation st (j * S m) [x].
Proof.
  intros Hx. induction j as [|j IH]; [by left|].
  replace (S j * S m) with (j * S m + S m) by lia.
  rewrite generation_add. by apply (generation_elem st (S m) x).
Qed.

Lemma generation_never_empty st l x k m :
  x ∈ generation st k l -> x ∈ generation st (S m) [x] ->
  forall n, generation st n l ≠ [].
Proof.
  intros Hk Hcyc n Hn.
  pose proof (generation_cycle st x m n Hcyc) as Hx.
  apply (generation_elem st (n * S m) x _ Hk) in Hx.
  rewrite <- generation_add in Hx.
  rewrite (generation_empty_later st n (k + n * S m) l Hn) in Hx by lia.
  by apply elem_of_nil in Hx.
Qed.

(** X15.  [Net.walk_all] keeps no visited set: when a descendant of the net
    is its own descendant through the children lists, the loop never
    ends. *)
Theorem walk_all_never_ends_on_a_cycle st self x k m :
  x ∈ generation st k (children_of st self) ->
  x ∈ generation st (S m) [x] ->
  forall fuel, Net_walk_all fuel st self = None.
Proof.
  intros Hk Hcyc fuel.
  destruct (Net_walk_all fuel st self) as [r|] eqn:Hrun; [|done].
  destruct (walk_all_loop_ends _ _ _ _ Hrun) as (n & Hn).
  by destruct (generation_never_empty st _ x k m Hk Hcyc n).
Qed.

Lemma find_loop_first st predicate fuel s r :
  walk_all_loop fuel st s = Some r ->
  find_loop fuel st predicate s
  = Some (head (filter (fun obj => predicate obj = true) r)).
Proof.
  revert s r. induction fuel as [|fuel IH]; intros s r; [done|]. simpl.
  destruct s as [|obj rest]; [by intros [= <-]|].
  destruct (walk_all_loop fuel st (rest ++ children_of st obj)) as [r'|] eqn:Hr;
    [|done].
  intros [= <-]. destruct (predicate obj) eqn:Hp.
  - by rewrite filter_cons_True.
  - rewrite filter_cons_False by (by rewrite Hp). by apply IH.
Qed.

(** X16.  Where [walk_all] ends, [Net.find] returns the first object, in the
    order of [walk_all], that the predicate accepts, and [None] when it
    accepts none. *)
Theorem find_is_first_match st self predicate fuel r :
  Net_walk_all fuel st self = Some r ->
  Net_find fuel st predicate self
  = Some (head (filter (fun obj => predicate obj = true) r)).
Proof. apply find_loop_first. Qed.

(** X14, witness: the descendants of the net of [net_store]. *)
Lemma walk_all_is_level_order_witness :
  exists fuel, forall fuel',
    fuel <= fuel' ->
    Net_walk_all fuel' net_store 1%positive = Some [2; 3; 4; 5]%positive.
Proof.
  exact (proj1 (walk_all_is_level_order net_store 1%positive) 4 eq_refl).
Defined.

(** X15, witness: the net of [looping_net_store]. *)
Lemma walk_all_never_ends_on_a_cycle_witness :
  Net_walk_all 1000 looping_net_store 1%positive = None.
Proof.
  apply (walk_all_never_ends_on_a_cycle looping_net_store 1%positive
           5%positive 3 0).
  - vm_compute. set_solver.
  - vm_compute. set_solver.
Defined.

(** X16, witness: the first [Tree] below the net of [net_store]. *)
Lemma find_is_first_match_witness :
  Net_find 10 net_store
    (fun obj => bool_decide (class_of net_store obj = Some Tree)) 1%positive
  = Some (Some 4%positive).
Proof.
  exact (find_is_first_match net_store 1%positive
           (fun obj => bool_decide (class_of net_store obj = Some Tree)) 10
           [2; 3; 4; 5]%positive eq_refl).
Defined.

(** ** The index of a [Net] *)

Lemma Net_register_run st n x on ox :
  objects st !! n = Some on -> objects st !! x = Some ox ->
  Net_register n x st
  = (upd n (fun s => with_index (<[obj_id ox := x]> (index s)) s) st,
     Return tt).
Proof.
  intros Hn Hx. unfold Net_register. unfold_monad.
  by rewrite (get_obj_run _ _ _ Hx), (update_obj_run _ _ _ _ Hn).
Qed.

Lemma Net_unregister_run st n x on ox :
  objects st !! n = Some on -> objects st !! x = Some ox ->
  Net_unregister n x st
  = (upd n (fun s => with_index (delete (obj_id ox) (index s)) s) st,
     Return tt).
Proof.
  intros Hn Hx. unfold Net_unregister. unfold_monad.
  by rewrite (get_obj_run _ _ _ Hx), (update_obj_run _ _ _ _ Hn).
Qed.

Lemma Net_get_run st n on i :
  objects st !! n = Some on -> Net_get n i st = (st, Return (index on !! i)).
Proof.
  intros Hn. unfold Net_get. unfold_monad. by rewrite (get_obj_run _ _ _ Hn).
Qed.

Lemma lookup_upd_index st a f b o :
  objects st !! b = Some o ->
  exists o', objects (upd a (fun s => with_index (f s) s) st) !! b = Some o'
             /\ obj_id o' = obj_id o
             /\ index o' = if decide (b = a) then f o else index o.
Proof.
  intros Hb. rewrite lookup_upd, Hb.
  destruct (decide (b = a)); simpl; eexists; by repeat split.
Qed.

(** X17.  The index of a [Net] is keyed by id alone.  After [register(x)],
    [get] returns [x] under the id of [x], whatever was registered under
    that id before, and what it returned under every other id; after
    [unregister(x)] it returns [None] under the id of [x], whichever object
    was registered under it, and its other answers are unchanged. *)
Theorem index_follows_the_id st n x on ox :
  objects st !! n = Some on -> objects st !! x = Some ox ->
  (let st' := (Net_register n x st).1 in
   Net_get n (obj_id ox) st' = (st', Return (Some x))
   /\ forall i, i ≠ obj_id ox ->
                Net_get n i st' = (st', Return (index on !! i)))
  /\ (let st' := (Net_unregister n x st).1 in
      Net_get n (obj_id ox) st' = (st', Return None)
      /\ forall i, i ≠ obj_id ox ->
                   Net_get n i st' = (st', Return (index on !! i))).
Proof.
  intros Hn Hx. split; cbv zeta.
  - rewrite (Net_register_run _ _ _ _ _ Hn Hx). simpl.
    destruct (lookup_upd_index st n (fun s => <[obj_id ox := x]> (index s))
                n on Hn) as (on' & Hn' & _ & Hidx).
    rewrite decide_True in Hidx by done.
    split; [|intros i Hi]; rewrite (Net_get_run _ _ _ _ Hn'), Hidx.
    + by rewrite lookup_insert_eq.
    + by rewrite lookup_insert_ne.
  - rewrite (Net_unregister_run _ _ _ _ _ Hn Hx). simpl.
    destruct (lookup_upd_index st n (fun s => delete (obj_id ox) (index s))
                n on Hn) as (on' & Hn' & _ & Hidx).
    rewrite decide_True in Hidx by done.
    split; [|intros i Hi]; rewrite (Net_get_run _ _ _ _ Hn'), Hidx.
    + by rewrite lookup_delete_eq.
    + by rewrite lookup_delete_ne.
Qed.

(** X17, witness: node 2 registered in the net of [net_store]. *)
Lemma index_follows_the_id_witness :
  Net_get 1%positive "d2" (Net_register 1%positive 2%positive net_store).1
  = ((Net_register 1%positive 2%positive net_store).1,
     Return (Some 2%positive)).
Proof.
  exact (proj1 (proj1 (index_follows_the_id net_store 1%positive 2%positive
                         _ _ eq_refl eq_refl))).
Defined.

(** ** Starting and stopping a [Matrix] *)

Lemma logged_nil st : logged [] st = st.
Proof. destruct st. unfold logged. simpl. by rewrite app_nil_r. Qed.

Lemma logged_logged a b st : logged b (logged a st) = logged (a ++ b) st.
Proof. unfold logged. simpl. by rewrite (assoc_L (++)). Qed.

Lemma same_identity_with_active b : same_identity (with_active b).
Proof. by intros []. Qed.

Lemma instances_upd_active st k m a b :
  instances (upd a (with_active b) st) k m = instances st k m.
Proof.
  unfold instances. rewrite children_of_upd.
  assert (children_of st m
          = default [] (objects st !! m ≫= (fun o => children (with_active b o))))
    as Hch by (unfold children_of; by destruct (objects st !! m)).
  destruct (decide (m = a)); [rewrite <- Hch|];
    apply list_filter_iff; intros c;
    by rewrite (class_of_upd _ _ _ _ (same_identity_with_active b)).
Qed.

Lemma instances_logged st k m cs :
  instances (logged cs st) k m = instances st k m.
Proof. done. Qed.

Lemma instances_class st k m : Forall (fun c => class_of st c = Some k) (instances st k m).
Proof.
  apply Forall_forall. intros c Hc. unfold instances in Hc.
  by apply list_elem_of_filter in Hc as [Hc _].
Qed.

Section LifecycleFacts.

Variable storage : addr -> option string.

Lemma on_load_run st l :
  class_of st l = Some Layer ->
  on_load storage l st = (logged (loads storage [l]) st, Return tt).
Proof.
  unfold class_of. destruct (objects st !! l) as [ol|] eqn:Hl; [|done].
  intros [= Hk]. unfold on_load. unfold_monad.
  rewrite (get_obj_run _ _ _ Hl), Hk. unfold Layer_on_load, loads. simpl.
  destruct (storage l); simpl; [done|]. by rewrite logged_nil.
Qed.

Lemma on_unload_run st l :
  class_of st l = Some Layer ->
  on_unload storage l st = (logged (unloads storage [l]) st, Return tt).
Proof.
  unfold class_of. destruct (objects st !! l) as [ol|] eqn:Hl; [|done].
  intros [= Hk]. unfold on_unload. unfold_monad.
  rewrite (get_obj_run _ _ _ Hl), Hk. unfold Layer_on_unload, unloads. simpl.
  destruct (storage l); simpl; [done|]. by rewrite logged_nil.
Qed.

Lemma loads_cons l ls : loads storage (l :: ls) = loads storage [l] ++ loads storage ls.
Proof. unfold loads. simpl. by destruct (storage l). Qed.

Lemma unloads_cons l ls :
  unloads storage (l :: ls) = unloads storage [l] ++ unloads storage ls.
Proof. unfold unloads. simpl. by destruct (storage l). Qed.

Lemma for_each_on_load ls st :
  Forall (fun l => class_of st l = Some Layer) ls ->
  for_each (on_load storage) ls st = (logged (loads storage ls) st, Return tt).
Proof.
  revert st. induction ls as [|l ls IH]; intros st Hall; cbn [for_each].
  - unfold_monad. by rewrite logged_nil.
  - apply Forall_cons in Hall as [Hl Hls]. unfold_monad.
    rewrite (on_load_run _ _ Hl).
    rewrite (IH (logged (loads storage [l]) st) Hls), logged_logged.
    by rewrite <- loads_cons.
Qed.

Lemma for_each_on_unload ls st :
  Forall (fun l => class_of st l = Some Layer) ls ->
  for_each (on_unload storage) ls st
  = (logged (unloads storage ls) st, Return tt).
Proof.
  revert st. induction ls as [|l ls IH]; intros st Hall; cbn [for_each].
  - unfold_monad. by rewrite logged_nil.
  - apply Forall_cons in Hall as [Hl Hls]. unfold_monad.
    rewrite (on_unload_run _ _ Hl).
    rewrite (IH (logged (unloads storage [l]) st) Hls), logged_logged.
    by rewrite <- unloads_cons.
Qed.

Lemma Matrix_start_run st m om :
  objects st !! m = Some om ->
  Matrix_start storage m st
  = if active om then (st, Return tt)
    else (logged (loads storage (Matrix_layers st m))
            (upd m (with_active true) st), Return tt).
Proof.
  intros Hm. unfold Matrix_start. unfold_monad.
  rewrite (get_obj_run _ _ _ Hm). destruct (active om); [done|].
  rewrite (update_obj_run _ _ _ _ Hm).
  rewrite for_each_on_load by apply instances_class.
  unfold Matrix_layers, Matrix_walk_layers. by rewrite instances_upd_active.
Qed.

Lemma Matrix_stop_run st m om :
  objects st !! m = Some om ->
  Matrix_stop storage m st
  = if active om
    then (upd m (with_active false)
            (logged (unloads storage (Matrix_layers st m)) st), Return tt)
    else (st, Return tt).
Proof.
  intros Hm. unfold Matrix_stop. unfold_monad.
  rewrite (get_obj_run _ _ _ Hm). destruct (active om); [|done]. simpl.
  rewrite for_each_on_unload by apply instances_class.
  by rewrite (update_obj_run m _ (logged _ st) om Hm).
Qed.

(** X18.  [Matrix.start] on a stopped matrix sets [active] and calls
    [load_layer] once for each layer that has a storage, in the order of
    the children; on an active matrix it does nothing at all, so a second
    [start] loads nothing again.  No parent and no children list
    changes. *)
Theorem start_loads_each_layer_once st m om :
  objects st !! m = Some om ->
  let r := Matrix_start storage m st in
  r.2 = Return tt
  /\ active_of r.1 m = Some true
  /\ calls r.1
     = calls st ++ (if active om then []
                    else loads storage (Matrix_layers st m))
  /\ (forall a, children_of r.1 a = children_of st a
                /\ parent_of r.1 a = parent_of st a)
  /\ Matrix_start storage m r.1 = (r.1, Return tt).
Proof.
  intros Hm. cbv zeta. rewrite (Matrix_start_run _ _ _ Hm).
  destruct (active om) eqn:Hact.
  - simpl. rewrite app_nil_r. unfold active_of. rewrite Hm. simpl.
    rewrite Hact. repeat split; try done.
    by rewrite (Matrix_start_run _ _ _ Hm), Hact.
  - simpl. rewrite calls_upd.
    set (st1 := logged _ (upd m (with_active true) st)).
    assert (objects st1 !! m = Some (with_active true om)) as Hm1.
    { unfold st1, logged. simpl. by rewrite lookup_upd_eq, Hm. }
    split; [done|]. split; [by unfold active_of; rewrite Hm1|].
    split; [done|]. split.
    + intros a. unfold st1, children_of, parent_of, logged. simpl.
      rewrite lookup_upd. destruct (decide (a = m)); [|done].
      by destruct (objects st !! a).
    + by rewrite (Matrix_start_run _ _ _ Hm1).
Qed.

(** X19.  [Matrix.stop] on an active matrix calls [unload_layer] once for
    each layer that has a storage, in the order of the children, and then
    clears [active]; on a stopped matrix it does nothing.  A [start]
    followed by a [stop] on a stopped matrix leaves every object as it
    was, the loads and then the unloads having been made. *)
Theorem stop_unloads_each_layer_once st m om :
  objects st !! m = Some om ->
  (let r := Matrix_stop storage m st in
   r.2 = Return tt
   /\ active_of r.1 m = Some false
   /\ calls r.1
      = calls st ++ (if active om then unloads storage (Matrix_layers st m)
                     else [])
   /\ Matrix_stop storage m r.1 = (r.1, Return tt))
  /\ (active om = false ->
      (Matrix_start storage m;; Matrix_stop storage m) st
      = (logged (loads storage (Matrix_layers st m)
                 ++ unloads storage (Matrix_layers st m)) st, Return tt)).
Proof.
  intros Hm. split.
  - cbv zeta. rewrite (Matrix_stop_run _ _ _ Hm).
    destruct (active om) eqn:Hact.
    + simpl. rewrite calls_upd. simpl.
      set (st1 := upd m (with_active false) (logged _ st)).
      assert (objects st1 !! m = Some (with_active false om)) as Hm1.
      { unfold st1. rewrite lookup_upd_eq. unfold logged. simpl.
        by rewrite Hm. }
      split; [done|]. split; [by unfold active_of; rewrite Hm1|].
      split; [done|]. by rewrite (Matrix_stop_run _ _ _ Hm1).
    + simpl. rewrite app_nil_r. unfold active_of. rewrite Hm. simpl.
      rewrite Hact. repeat split; try done.
      by rewrite (Matrix_stop_run _ _ _ Hm), Hact.
  - intros Hact. unfold_monad.
    rewrite (Matrix_start_run _ _ _ Hm), Hact.
    set (st1 := logged _ (upd m (with_active true) st)).
    assert (objects st1 !! m = Some (with_active true om)) as Hm1.
    { unfold st1, logged. simpl. by rewrite lookup_upd_eq, Hm. }
    rewrite (Matrix_stop_run _ _ _ Hm1). simpl.
    f_equal. unfold st1, Matrix_layers, Matrix_walk_layers.
    rewrite instances_logged, instances_upd_active.
    unfold upd, update_obj, logged. simpl. rewrite Hm. simpl.
    rewrite lookup_insert_eq. simpl. rewrite insert_insert_eq.
    unfold with_objects. simpl. rewrite (assoc_L (++)).
    f_equal. rewrite insert_id; [done|]. rewrite Hm. f_equal.
    destruct om. simpl in *. by subst.
Qed.

End LifecycleFacts.

(** X18, witness: the matrix of [bounded_store], whose layer is stored on
    [disk]. *)
Lemma start_loads_each_layer_once_witness :
  calls (Matrix_start (fun _ => Some "disk") 1%positive bounded_store).1
  = [("disk.load_layer", [2%positive])].
Proof.
  exact (proj1 (proj2 (proj2 (start_loads_each_layer_once
                                (fun _ => Some "disk") bounded_store
                                1%positive _ eq_refl)))).
Defined.

(** X19, witness: the same matrix started and stopped. *)
Lemma stop_unloads_each_layer_once_witness :
  (Matrix_start (fun _ => Some "disk") 1%positive;;
   Matrix_stop (fun _ => Some "disk") 1%positive) bounded_store
  = (logged [("disk.load_layer", [2%positive]);
             ("disk.unload_layer", [2%positive])] bounded_store,
     Return tt).
Proof.
  exact (proj2 (stop_unloads_each_layer_once (fun _ => Some "disk")
                  bounded_store 1%positive _ eq_refl) eq_refl).
Defined.

(** ** The resolvers of the hierarchy *)

Lemma has_children_attribute k :
  has_attribute k "children" = true -> k ∈ [Net; Layer; Matrix].
Proof. destruct k; vm_compute; intros; try discriminate; set_solver. Qed.

Lemma allowed_of_upper k k' :
  k' ∈ allowed_children k -> k ∈ [Net; Layer; Matrix] ->
  k' ∈ [Node; Net; Layer].
Proof. destruct k; set_solver. Qed.

Lemma container_of_upper k k' :
  k' ∈ allowed_children k -> k' ∈ [Node; Net; Layer; Matrix] ->
  k ∈ [Net; Layer; Matrix].
Proof. destruct k; set_solver. Qed.

(** What the traversal of the hierarchy can reach from [start]: the
    ancestors of [start], and otherwise nodes, nets, layers and matrices
    only. *)
Lemma hierarchy_reach st start v :
  containment st -> well_typed st ->
  reachable Engine.truthy (Engine.hierarchy st) start v ->
  rtc (child_of st) start v
  \/ exists k, class_of st v = Some k /\ k ∈ [Node; Net; Layer; Matrix].
Proof.
  intros [Hiff _] Hwt. revert v. apply rtc_ind_r; [left; apply rtc_refl|].
  intros u v _ Huv IH. unfold edge, enqueued in Huv. simpl in Huv.
  rewrite app_nil_r in Huv.
  apply elem_of_app in Huv as [Hchild|Hparent].
  - right. unfold Engine.children_resolver in Hchild.
    destruct (objects st !! u) as [ou|] eqn:Hu;
      [|by apply elem_of_nil in Hchild].
    simpl in Hchild.
    destruct (has_attribute (cls ou) "children") eqn:Hattr;
      [|by apply elem_of_nil in Hchild].
    simpl in Hchild.
    destruct (Hwt u v) as (kc & kx & Hkc & Hkx & Hallowed).
    { unfold children_of. by rewrite Hu. }
    exists kx. split; [done|].
    assert (kc = cls ou) as -> by (unfold class_of in Hkc; rewrite Hu in Hkc;
                                   by injection Hkc).
    apply has_children_attribute in Hattr.
    pose proof (allowed_of_upper _ _ Hallowed Hattr). set_solver.
  - unfold Engine.parent_resolver in Hparent.
    destruct (parent_of st u) as [p|] eqn:Hp;
      [|by apply elem_of_nil in Hparent].
    apply list_elem_of_singleton in Hparent as ->.
    destruct IH as [Hanc|(k & Hk & Hupper)].
    + left. eapply rtc_r; [exact Hanc|done].
    + right. destruct (Hwt p u) as (kc & kx & Hkc & Hkx & Hallowed);
        [by apply Hiff|].
      exists kc. split; [done|].
      assert (kx = k) as -> by congruence.
      pose proof (container_of_upper _ _ Hallowed Hupper). set_solver.
Qed.

(** X20.  With the resolvers the module offers ([children_resolver], which
    reads the [children] property that only [Net], [Layer] and [Matrix]
    have, and [parent_resolver]), on a well-formed hierarchy the traversal
    never goes down from a [Node]: a [Tree], a [Branch] or a [Leaf] is
    yielded only when it is the start or one of its ancestors. *)
Theorem hierarchy_never_descends_below_a_Node st start fuel ys v k :
  containment st -> well_typed st ->
  traverse Engine.truthy (Engine.hierarchy st) fuel start = Some ys ->
  v ∈ ys.*1 -> class_of st v = Some k -> k ∈ [Leaf; Branch; Tree] ->
  rtc (child_of st) start v.
Proof.
  intros Hwf Hwt Hrun Hv Hk Hlow.
  destruct (run_inv Engine.truthy (Engine.hierarchy st) start _ _ _
              (inv_init Engine.truthy (Engine.hierarchy st) start) Hrun)
    as (vs & Hinv).
  apply list_elem_of_fmap in Hv as ([v' p] & -> & Hin). simpl in *.
  assert (reachable Engine.truthy (Engine.hierarchy st) start v') as Hreach.
  { eapply walk_reachable, (inv_walk _ _ _ _ Hinv). simpl.
    by rewrite app_nil_r. }
  destruct (hierarchy_reach st start v' Hwf Hwt Hreach)
    as [Hanc|(k' & Hk' & Hupper)]; [done|].
  assert (k' = k) as -> by congruence. set_solver.
Qed.

(** X20, witness: started at the branch of [net_store], the traversal
    yields the tree above it; started at the net, it yields the net and its
    two nodes, and neither the tree nor the branch. *)
Lemma hierarchy_never_descends_below_a_Node_witness :
  rtc (child_of net_store) 5%positive 4%positive
  /\ traverse Engine.truthy (Engine.hierarchy net_store) 10 1%positive
     = Some [(1, []); (2, [1]); (3, [1])]%positive.
Proof.
  split; [|vm_compute; reflexivity].
  apply (hierarchy_never_descends_below_a_Node net_store 5%positive 10
           [(5, []); (4, [5]); (2, [5; 4]); (1, [5; 4; 2]);
            (3, [5; 4; 2; 1])]%positive 4%positive Tree).
  - apply containment_check_sound. vm_compute. reflexivity.
  - apply well_typed_check_sound. vm_compute. reflexivity.
  - vm_compute. reflexivity.
  - set_solver.
  - vm_compute. reflexivity.
  - set_solver.
Defined.

(** ** Identifiers *)

Section GenIdFacts.

Variable token : nat -> string.

(** A call made while the lock is held blocks, once its token is drawn. *)
Lemma gen_id_locked fuel r :
  _GEN_IDS_LOCK r = true ->
  gen_id token (S fuel) r
  = Some (mkRegistry (_GEN_IDS r) true (S (draws r)), Blocked).
Proof. intros Hlock. simpl. rewrite Hlock. destruct r; simpl in *; by subst. Qed.

Lemma gen_id_step fuel r r' id :
  _GEN_IDS_LOCK r = false ->
  gen_id token fuel r = Some (r', Generated id) ->
  id = token (draws r)
  /\ (id ∉ _GEN_IDS r)
  /\ r' = mkRegistry ({[id]} ∪ _GEN_IDS r) false (S (draws r)).
Proof.
  intros Hlock. destruct fuel as [|fuel]; [done|]. simpl. rewrite Hlock.
  destruct (bool_decide (token (draws r) ∈ _GEN_IDS r)) eqn:Hin.
  - destruct fuel as [|fuel]; [done|]. by rewrite gen_id_locked.
  - intros [= <- <-]. by apply bool_decide_eq_false in Hin.
Qed.

(** X21.  [gen_id] takes its lock and, when the token it drew is already in
    [_GEN_IDS], calls itself while holding it: the inner call draws a
    second token and then blocks for ever on the lock, which is not
    reentrant.  So a call returns only when its first token is fresh, which
    it then records, and a collision is never retried. *)
Theorem gen_id_returns_fresh_or_blocks fuel r :
  _GEN_IDS_LOCK r = false -> 2 <= fuel ->
  gen_id token fuel r
  = if bool_decide (token (draws r) ∈ _GEN_IDS r)
    then Some (mkRegistry (_GEN_IDS r) true (S (S (draws r))), Blocked)
    else Some (mkRegistry ({[token (draws r)]} ∪ _GEN_IDS r) false
                 (S (draws r)),
               Generated (token (draws r))).
Proof.
  intros Hlock Hfuel. destruct fuel as [|[|fuel]]; try lia.
  cbn [gen_id]. rewrite Hlock. cbn [_GEN_IDS _GEN_IDS_LOCK draws].
  by destruct (bool_decide (token (draws r) ∈ _GEN_IDS r)).
Qed.

(** X22.  The identifiers that calls to [gen_id] return, one after the
    other, are pairwise distinct, none of them was in [_GEN_IDS] before, and
    all of them are in it afterwards, the lock being free again. *)
Theorem gen_ids_are_distinct fuel n r r' ids :
  _GEN_IDS_LOCK r = false ->
  gen_ids token fuel n r = Some (r', ids) ->
  NoDup ids
  /\ (forall id, id ∈ ids -> id ∉ _GEN_IDS r)
  /\ _GEN_IDS r' = list_to_set ids ∪ _GEN_IDS r
  /\ _GEN_IDS_LOCK r' = false.
Proof.
  revert r r' ids. induction n as [|n IH]; intros r r' ids Hlock; simpl.
  - intros [= <- <-]. repeat split; [constructor|set_solver|set_solver|done].
  - destruct (gen_id token fuel r) as [[r1 [id|]]|] eqn:Hgen; [|done|done].
    destruct (gen_id_step _ _ _ _ Hlock Hgen) as (-> & Hfresh & ->).
    destruct (gen_ids token fuel n _) as [[r2 ids2]|] eqn:Hrest; [|done].
    simpl. intros [= <- <-].
    destruct (IH _ r2 ids2 (eq_refl : _GEN_IDS_LOCK (mkRegistry _ false _) = false)
                Hrest) as (Hnd & Hnew & Hset & Hfree).
    simpl in *. split; [|split; [|split]].
    + constructor; [|done]. intros Hin. apply (Hnew _ Hin). set_solver.
    + intros id [->|Hin]%elem_of_cons; [done|].
      specialize (Hnew _ Hin). set_solver.
    + rewrite Hset. set_solver.
    + done.
Qed.

End GenIdFacts.

(** X21, witness: the token ["a"] drawn when it is already taken. *)
Lemma gen_id_returns_fresh_or_blocks_witness :
  gen_id (fun _ => "a") 5 (mkRegistry {["a"]} false 0)
  = Some (mkRegistry {["a"]} true 2, Blocked).
Proof.
  exact (gen_id_returns_fresh_or_blocks (fun _ => "a") 5
           (mkRegistry {["a"]} false 0) eq_refl ltac:(lia)).
Defined.

(** X22, witness: three calls whose tokens are ["0"], ["1"] and ["2"]. *)
Lemma gen_ids_are_distinct_witness :
  NoDup ["0"; "1"; "2"].
Proof.
  refine (proj1 (gen_ids_are_distinct Py.str_of_nat 5 3
                   (mkRegistry ∅ false 0)
                   (mkRegistry {["2"; "1"; "0"]} false 3)
                   ["0"; "1"; "2"] eq_refl _)).
  vm_compute. reflexivity.
Defined.

(** ** Vectors *)

Section KVectorFacts.

Context {R : Type}.
Variable plus : R -> R -> R.
Variable times : R -> R -> R.
Variable sum : list R -> R.

Lemma zip_with_shorter {A B C} (f : A -> B -> C) l k :
  zip_with f l k
  = zip_with f (take (length l `min` length k) l)
               (take (length l `min` length k) k).
Proof.
  revert k. induction l as [|a l IH]; intros [|b k]; simpl; try done.
  f_equal. apply IH.
Qed.

(** X23.  [+] and [dot] go through [zip], which stops at the shorter
    operand: on vectors of different lengths nothing is raised, the
    components of the longer one beyond the length of the shorter are
    ignored, and the sum has the length of the shorter.  [*] by a scalar
    keeps the length. *)
Theorem vectors_are_cut_to_the_shorter (a b : KVector R) (scalar : R) :
  let n := KVector_len a `min` KVector_len b in
  let cut v := mkVector (take n (values v)) in
  KVector_len (KVector_add plus a b) = n
  /\ KVector_add plus a b = KVector_add plus (cut a) (cut b)
  /\ dot times sum a b = dot times sum (cut a) (cut b)
  /\ KVector_len (KVector_mul times a scalar) = KVector_len a.
Proof.
  cbv zeta. unfold KVector_len, KVector_add, dot, KVector_mul. simpl.
  split; [by rewrite length_zip_with|].
  split; [by rewrite <- zip_with_shorter|].
  split; [by rewrite <- zip_with_shorter|].
  by rewrite length_fmap.
Qed.

End KVectorFacts.

(** ** Matching *)

Lemma has_data_attribute k :
  has_attribute k "data" = true <-> k ∈ [Leaf; Branch; Tree; Node].
Proof.
  destruct k; vm_compute; split; intros H; try done;
    try (by repeat constructor);
    repeat (apply elem_of_cons in H as [H|H]; [discriminate H|]);
    by apply elem_of_nil in H.
Qed.

Lemma criterion_holds_true criterion actual :
  criterion_holds criterion actual = Some true
  <-> forall c, criterion = Some c -> actual = Some c.
Proof.
  unfold criterion_holds. destruct criterion as [c|]; [|by split].
  destruct actual as [a|]; simpl.
  - split.
    + intros [= Heq%bool_decide_eq_true] c' [= <-]. by subst.
    + intros Hc. specialize (Hc c eq_refl). injection Hc as ->.
      by rewrite bool_decide_true.
  - split; [done|]. intros Hc. by specialize (Hc c eq_refl).
Qed.

Lemma criterion_holds_cases criterion actual :
  criterion_holds criterion actual = Some true
  \/ criterion_holds criterion actual = Some false
  \/ criterion_holds criterion actual = None.
Proof.
  unfold criterion_holds. destruct criterion, actual; simpl; auto.
  destruct (bool_decide _); auto.
Qed.

(** X24.  [matches] accepts an object exactly when every criterion the
    context sets holds: the id, the structural and the semantic hash are
    the ones asked for, the data is the one asked for, which only a [Leaf],
    [Branch], [Tree] or [Node] can have, since [Net], [Layer] and [Matrix]
    have no [data] attribute, and the predicate accepts the object.  A
    context that sets none accepts every object. *)
Theorem matches_iff_every_criterion {V Score} (ctx : KMatchContext V Score)
    st obj o :
  objects st !! obj = Some o ->
  matches ctx st obj = Some true
  <-> (forall i, ctx_id ctx = Some i -> obj_id o = i)
      /\ (forall h, ctx_hash ctx = Some h -> hash st obj = Some h)
      /\ (forall h, ctx_shash ctx = Some h -> shash st obj = Some h)
      /\ (ctx_data ctx ≠ Py.VNone ->
          cls o ∈ [Leaf; Branch; Tree; Node] /\ data o = ctx_data ctx)
      /\ (forall p, ctx_predicate ctx = Some p -> p st obj = true).
Proof.
  intros Ho. unfold matches. rewrite Ho. simpl.
  assert (criterion_holds (ctx_id ctx) (Some (obj_id o)) = Some true
          <-> forall i, ctx_id ctx = Some i -> obj_id o = i) as Hid.
  { rewrite criterion_holds_true. split; intros Hc i Hi.
    - specialize (Hc i Hi). by injection Hc.
    - by rewrite (Hc i Hi). }
  rewrite <- Hid, <- !criterion_holds_true.
  assert (bool_decide (ctx_data ctx ≠ Py.VNone)
          && (negb (has_attribute (cls o) "data")
              || bool_decide (data o ≠ ctx_data ctx)) = false
          <-> (ctx_data ctx ≠ Py.VNone ->
               cls o ∈ [Leaf; Branch; Tree; Node] /\ data o = ctx_data ctx))
    as Hdata.
  { rewrite <- has_data_attribute.
    destruct (decide (ctx_data ctx = Py.VNone)) as [Hnone|Hsome].
    - rewrite bool_decide_false by (by intros ?). simpl. by split.
    - rewrite bool_decide_true by done. simpl.
      destruct (has_attribute (cls o) "data"); simpl.
      + destruct (decide (data o = ctx_data ctx)) as [Heq|Hne].
        * rewrite bool_decide_false by (by intros ?). by split.
        * rewrite bool_decide_true by done. split; [done|].
          intros Hc. by destruct (Hc Hsome).
      + split; [done|]. intros Hc. by destruct (Hc Hsome). }
  rewrite <- Hdata.
  destruct (criterion_holds_cases (ctx_id ctx) (Some (obj_id o)))
    as [-> | [-> | ->]]; simpl; [|by split; [|intros (? & _)]..].
  destruct (criterion_holds_cases (ctx_hash ctx) (hash st obj))
    as [-> | [-> | ->]]; simpl; [|by split; [|intros (_ & ? & _)]..].
  destruct (criterion_holds_cases (ctx_shash ctx) (shash st obj))
    as [-> | [-> | ->]]; simpl; [|by split; [|intros (_ & _ & ? & _)]..].
  destruct (bool_decide (ctx_data ctx ≠ Py.VNone)
            && (negb (has_attribute (cls o) "data")
                || bool_decide (data o ≠ ctx_data ctx))); simpl;
    [by split; [|intros (_ & _ & _ & ? & _)]|].
  destruct (ctx_predicate ctx) as [p|].
  - split.
    + intros [= Hp]. repeat split; try done. by intros p' [= <-].
    + intros (_ & _ & _ & _ & Hp). by rewrite (Hp p eq_refl).
  - split; [|done]. intros _. by repeat split.
Qed.

(** X24, witness: a context asking for the data ["x"] accepts leaf 2 of
    [family_store]. *)
Lemma matches_iff_every_criterion_witness :
  matches (mkContext 2%positive None (Py.VStr "x") None None 0%Z
                     ([] : list positive) ∅ None)
          family_store 2%positive
  = Some true.
Proof.
  apply (matches_iff_every_criterion _ family_store 2%positive
           (leaf "l2" "x" (Some 1%positive)) eq_refl).
  repeat split; try done. set_solver.
Defined.

(** ** The walkers *)

Lemma filter_keeps_all {A} (P : A -> Prop) `{forall x, Decision (P x)} l :
  Forall P l -> filter P l = l.
Proof.
  induction 1 as [|x l Hx _ IH]; [done|].
  by rewrite filter_cons_True, IH.
Qed.

(** On a well-typed store the children of an object all have the one class
    its class allows. *)
Lemma instances_well_typed st c k k' :
  well_typed st -> class_of st c = Some k -> allowed_children k = [k'] ->
  instances st k' c = children_of st c.
Proof.
  intros Hwt Hk Hallowed. unfold instances.
  apply filter_keeps_all. apply Forall_forall. intros x Hx.
  destruct (Hwt c x Hx) as (kc & kx & Hkc & Hkx & Hin).
  assert (kc = k) as -> by congruence.
  rewrite Hallowed in Hin. apply list_elem_of_singleton in Hin as ->. done.
Qed.

Lemma children_class st c k x :
  well_typed st -> class_of st c = Some k -> x ∈ children_of st c ->
  exists k', class_of st x = Some k' /\ k' ∈ allowed_children k.
Proof.
  intros Hwt Hk Hx. destruct (Hwt c x Hx) as (kc & kx & Hkc & Hkx & Hin).
  exists kx. split; [done|]. congruence.
Qed.

(** X25.  Where every child has the class its container allows, the
    walkers skip nothing: [walk_leaves] of a [Branch], [walk_branches] of a
    [Tree], [walk_trees] of a [Node], [walk_nets] of a [Layer] and [layers]
    of a [Matrix] yield the children in order; [walk_leaves] of a [Tree] and
    [walk_branches] of a [Node] yield the grandchildren; [walk] of a
    [Tree] and [walk_nodes] of a [Net] yield each child followed by its own
    children. *)
Theorem walkers_skip_nothing st c :
  well_typed st ->
  (class_of st c = Some Branch ->
   Branch_walk_leaves st c = children_of st c
   /\ Branch_leaves st c = children_of st c)
  /\ (class_of st c = Some Tree ->
      Tree_walk_branches st c = children_of st c
      /\ Tree_branches st c = children_of st c
      /\ Tree_walk_leaves st c = concat (children_of st <$> children_of st c)
      /\ Tree_walk st c
         = concat ((fun b => b :: children_of st b) <$> children_of st c))
  /\ (class_of st c = Some Node ->
      Node_walk_trees st c = children_of st c
      /\ Node_trees st c = children_of st c
      /\ Node_walk_branches st c
         = concat (children_of st <$> children_of st c))
  /\ (class_of st c = Some Net ->
      Net_walk_nodes st c
      = concat ((fun d => d :: children_of st d) <$> children_of st c))
  /\ (class_of st c = Some Layer -> Layer_walk_nets st c = children_of st c)
  /\ (class_of st c = Some Matrix ->
      Matrix_walk_layers st c = children_of st c
      /\ Matrix_layers st c = children_of st c).
Proof.
  intros Hwt.
  assert (forall k k' f,
             class_of st c = Some k -> allowed_children k = [k'] ->
             (forall x, class_of st x = Some k' -> f x = children_of st x) ->
             concat (f <$> children_of st c)
             = concat (children_of st <$> children_of st c)) as Hgrand.
  { intros k k' f Hk Hallowed Hf. f_equal. apply list_fmap_ext.
    intros i x Hx%list_elem_of_lookup_2.
    destruct (children_class st c k x Hwt Hk Hx) as (kx & Hkx & Hin).
    rewrite Hallowed in Hin. apply list_elem_of_singleton in Hin as ->.
    by apply Hf. }
  assert (forall k k' (f : addr -> list addr),
             class_of st c = Some k -> allowed_children k = [k'] ->
             (forall x, class_of st x = Some k' ->
                        f x = x :: children_of st x) ->
             concat (f <$> children_of st c)
             = concat ((fun x => x :: children_of st x) <$> children_of st c))
    as Heach.
  { intros k k' f Hk Hallowed Hf. f_equal. apply list_fmap_ext.
    intros i x Hx%list_elem_of_lookup_2.
    destruct (children_class st c k x Hwt Hk Hx) as (kx & Hkx & Hin).
    rewrite Hallowed in Hin. apply list_elem_of_singleton in Hin as ->.
    by apply Hf. }
  split; [|split; [|split; [|split; [|split]]]]; intros Hk.
  - split; by apply (instances_well_typed st c Branch).
  - split; [by apply (instances_well_typed st c Tree)|].
    split; [by apply (instances_well_typed st c Tree)|]. split.
    + unfold Tree_walk_leaves, Tree_walk_branches.
      rewrite (instances_well_typed st c Tree Branch) by done.
      apply (Hgrand Tree Branch); [done|done|]. intros x Hx.
      by apply (instances_well_typed st x Branch).
    + unfold Tree_walk. apply (Heach Tree Branch); [done|done|].
      intros x Hx. rewrite bool_decide_true by done. f_equal.
      by apply (instances_well_typed st x Branch).
  - split; [by apply (instances_well_typed st c Node)|].
    split; [by apply (instances_well_typed st c Node)|].
    unfold Node_walk_branches, Node_walk_trees.
    rewrite (instances_well_typed st c Node Tree) by done.
    apply (Hgrand Node Tree); [done|done|]. intros x Hx.
    by apply (instances_well_typed st x Tree).
  - unfold Net_walk_nodes. apply (Heach Net Node); [done|done|].
    intros x Hx. rewrite bool_decide_true by done. f_equal.
    by apply (instances_well_typed st x Node).
  - by apply (instances_well_typed st c Layer).
  - split; by apply (instances_well_typed st c Matrix).
Qed.

(** X25, witness: the nodes of [net_store], each followed by its trees. *)
Lemma walkers_skip_nothing_witness :
  Net_walk_nodes net_store 1%positive = [2; 4; 3]%positive.
Proof.
  refine (proj1 (proj2 (proj2 (proj2 (walkers_skip_nothing net_store
                                        1%positive _)))) eq_refl).
  apply well_typed_check_sound. vm_compute. reflexivity.
Defined.

(** ** Adding a leaf to a full [Branch] *)

Lemma fresh_is_new st : objects st !! fresh (dom (objects st)) = None.
Proof. apply not_elem_of_dom. apply is_fresh. Qed.

Lemma fresh_is_other st a oa :
  objects st !! a = Some oa -> a ≠ fresh (dom (objects st)).
Proof. intros Ha ->. by rewrite fresh_is_new in Ha. Qed.

Lemma alloc_run o st :
  alloc o st
  = (with_objects (<[fresh (dom (objects st)) := o]> (objects st)) st,
     Return (fresh (dom (objects st)))).
Proof. done. Qed.

Section AddLeafFacts.

Variable obj_eq : store -> addr -> addr -> bool.

(** X26.  [add_leaf] on a [Branch] that already holds as many children as
    its policy allows: the new leaf is composed and the policy applied at
    once.  Pruning from the front keeps the old children, so the new leaf
    is the victim: it is not among the children although its parent is the
    branch, and it is returned as if it had been added.  Pruning from the
    back drops the oldest child and keeps the new leaf.  In abort mode
    [add_leaf] raises after the eviction and returns no leaf. *)
Theorem add_leaf_on_a_full_branch st b ob p pol new_id leaf_data :
  objects st !! b = Some ob -> cls ob = Branch ->
  retention ob = Some p -> policies st !! p = Some pol ->
  max_size pol = Z.of_nat (length (children_of st b)) ->
  let leaf := fresh (dom (objects st)) in
  let st0 := (alloc (mkObject Leaf new_id None None leaf_data EmptyString
                              None ∅ false) st).1 in
  py_in obj_eq (upd b setdefault_children st0) leaf (children_of st b)
  = false ->
  let r := Branch_add_leaf obj_eq b new_id leaf_data None st in
  objects st !! leaf = None
  /\ parent_of r.1 leaf = Some b
  /\ children_of r.1 b
     = match prune_from pol with
       | FORWARD => children_of st b
       | BACKWARD => drop 1 (children_of st b ++ [leaf])
       end
  /\ r.2 = match notify pol with
           | RAISE => Raise (ValueError (removed_message 1))
           | _ => Return leaf
           end.
Proof.
  intros Hb Hk Hret Hp Hfull. cbv zeta.
  set (leaf := fresh (dom (objects st))).
  set (o := mkObject Leaf new_id None None leaf_data EmptyString None ∅ false).
  rewrite alloc_run. cbn [fst]. fold leaf.
  set (st0 := with_objects (<[leaf := o]> (objects st)) st).
  intros Hpy.
  assert (b ≠ leaf) as Hne by (by apply (fresh_is_other st b ob)).
  assert (objects st0 !! b = Some ob) as Hb0.
  { unfold st0, with_objects. simpl. by rewrite lookup_insert_ne. }
  assert (objects st0 !! leaf = Some o) as Hl0.
  { unfold st0, with_objects. simpl. by rewrite lookup_insert_eq. }
  assert (children_of st0 b = children_of st b) as Hch0.
  { unfold children_of. by rewrite Hb0, Hb. }
  assert (policies st0 = policies st) as Hpol0 by done.
  split; [apply fresh_is_new|].
  unfold Branch_add_leaf. unfold_monad. rewrite alloc_run. cbn [fst].
  fold leaf o st0.
  rewrite (add_with_retention obj_eq st0 b leaf ob Hb0)
    by (rewrite Hk; set_solver).
  unfold_monad.
  assert (cls o ∈ allowed_children (cls ob)) as Hin
    by (rewrite Hk; set_solver).
  rewrite (KObject_add_accepts obj_eq _ _ _ _ _ Hb0 Hl0 Hin), Hch0, Hpy.
  set (st1 := appended b leaf st0).
  destruct (lookup_appended_container st0 b leaf ob o Hb0 Hl0)
    as (ob1 & Hb1 & Hret1 & _ & Hch1).
  fold st1 in Hb1. rewrite Hch0 in Hch1.
  assert (policies st1 !! p = Some pol) as Hp1.
  { unfold st1. by rewrite policies_appended, Hpol0. }
  unfold apply_retention. unfold_monad.
  rewrite (get_obj_run _ _ _ Hb1), Hret1, Hret.
  rewrite (apply_object _ _ _ _ _ Hb1 Hp1), Hch1.
  set (l := children_of st b ++ [leaf]).
  assert (length l = S (length (children_of st b))) as Hlen
    by (unfold l; rewrite length_app; simpl; lia).
  assert (0 < Z.of_nat (length l) - max_size pol)%Z as Hov by lia.
  destruct (applied_overflow p b pol l st1 ob1 Hb1 Hp1 Hov)
    as (Hch & _ & Hpar & _ & Hout & _).
  assert (Z.of_nat (length l) - max_size pol = 1)%Z as Hone by lia.
  rewrite Hone in Hch, Hout.
  assert (split_children (prune_from pol) 1 l
          = match prune_from pol with
            | FORWARD => ([leaf], children_of st b)
            | BACKWARD => (take 1 l, drop 1 l)
            end) as Hsplit.
  { pose proof (split_children_take_drop (prune_from pol) l (max_size pol)
                  ltac:(lia)) as Hs.
    rewrite Hone in Hs. rewrite Hs. destruct (prune_from pol).
    - rewrite Hfull, Nat2Z.id. unfold l.
      by rewrite drop_app_length, take_app_length.
    - by replace (length l - Z.to_nat (max_size pol)) with 1 by lia. }
  assert (length (split_children (prune_from pol) 1 l).1 = 1) as Hvict.
  { rewrite Hsplit. destruct (prune_from pol); [done|]. simpl.
    rewrite length_take. lia. }
  rewrite Hvict in Hout.
  destruct (applied p b pol l st1) as [st2 out] eqn:Happ. cbn [fst snd] in *.
  assert (parent_of st2 leaf = Some b) as Hparent.
  { rewrite Hpar. unfold st1.
    rewrite (parent_of_appended _ _ _ _ _ _ Hb0 Hl0). by rewrite decide_True. }
  assert (children_of st2 b
          = match prune_from pol with
            | FORWARD => children_of st b
            | BACKWARD => drop 1 l
            end) as Hchildren.
  { rewrite Hch, Hsplit. by destruct (prune_from pol). }
  subst out. destruct (notify pol); simpl; by repeat split.
Qed.

End AddLeafFacts.

(** X26, witness: a third leaf for a branch bounded to two, pruned from the
    front without notification. *)
Lemma add_leaf_on_a_full_branch_witness :
  let r := Branch_add_leaf KObject_eq 1%positive "l4" (Py.VStr "z") None
             full_store in
  r.2 = Return 4%positive
  /\ parent_of r.1 4%positive = Some 1%positive
  /\ children_of r.1 1%positive = [2; 3]%positive.
Proof.
  destruct (add_leaf_on_a_full_branch KObject_eq full_store 1%positive _
              1%positive _ "l4" (Py.VStr "z") eq_refl eq_refl eq_refl
              eq_refl eq_refl)
    as (_ & Hpar & Hch & Hout); [vm_compute; reflexivity|].
  cbv zeta. split; [exact Hout|]. split; [exact Hpar|exact Hch].
Defined.

(** ** Adding a layer to a [Matrix] *)

Lemma active_of_upd a f st b :
  (forall o, active (f o) = active o) ->
  active_of (upd a f st) b = active_of st b.
Proof.
  intros Hf. unfold active_of. rewrite lookup_upd.
  destruct (decide (b = a)); [|done].
  destruct (objects st !! b); [|done]. simpl. by rewrite Hf.
Qed.

Section AddLayerFacts.

Variable storage : addr -> option string.
Variable obj_eq : store -> addr -> addr -> bool.

Lemma active_of_KObject_add c x st b :
  active_of (KObject_add obj_eq c x st).1 b = active_of st b.
Proof.
  destruct (objects st !! c) as [oc|] eqn:Hc;
    [|by rewrite KObject_add_stuck by auto].
  destruct (objects st !! x) as [ox|] eqn:Hx;
    [|by rewrite KObject_add_stuck by auto].
  destruct (decide (cls ox ∈ allowed_children (cls oc))) as [Hin|Hout];
    [|by rewrite (KObject_add_rejects obj_eq _ _ _ _ _ Hc Hx Hout)].
  rewrite (KObject_add_accepts obj_eq _ _ _ _ _ Hc Hx Hin).
  destruct (py_in obj_eq _ x _); simpl.
  - by apply active_of_upd; intros [].
  - unfold appended. rewrite !active_of_upd; by try intros [].
Qed.

(** X27.  [Matrix.add_layer] composes the layer and then, on an active
    matrix, loads it: once for every call, also when the layer was already
    among the children.  On a matrix that has a retention policy the
    composition raises [AttributeError] once the layer is appended, as
    [Matrix.__add__] hands a list to the policy, and the layer is never
    loaded. *)
Theorem add_layer_loads_on_an_active_matrix st m om l ol :
  objects st !! m = Some om -> cls om = Matrix ->
  objects st !! l = Some ol -> cls ol = Layer ->
  Matrix_add_layer storage obj_eq m l st
  = match retention om with
    | Some _ => ((KObject_add obj_eq m l st).1, Raise list_has_no_metadata)
    | None =>
        (logged (if active om then loads storage [l] else [])
                (KObject_add obj_eq m l st).1,
         Return l)
    end.
Proof.
  intros Hm Hkm Hl Hkl.
  assert (cls ol ∈ allowed_children (cls om)) as Hin
    by (rewrite Hkm, Hkl; set_solver).
  pose proof (KObject_add_returns obj_eq st m l om ol Hm Hl Hin) as Hadd.
  pose proof (frame_KObject_add obj_eq m l st) as Hfr.
  pose proof (active_of_KObject_add m l st m) as Hact.
  set (st1 := (KObject_add obj_eq m l st).1) in *.
  destruct (frame_lookup _ _ _ _ _ _ Hfr Hm) as (om1 & Hm1 & Hid1).
  assert (retention om1 = retention om) as Hret
    by (unfold identity_of in Hid1; congruence).
  assert (active om1 = active om) as Hactive.
  { unfold active_of in Hact. rewrite Hm1, Hm in Hact. by injection Hact. }
  assert (class_of st1 l = Some Layer) as Hclass.
  { rewrite (class_of_agree st st1) by apply (frame_agree _ _ _ _ Hfr).
    unfold class_of. by rewrite Hl, <- Hkl. }
  unfold Matrix_add_layer, add. unfold_monad.
  rewrite (get_obj_run _ _ _ Hm), Hkm. unfold Matrix_add. unfold_monad.
  rewrite Hadd. unfold apply_retention. unfold_monad.
  rewrite (get_obj_run _ _ _ Hm1), Hret.
  destruct (retention om) as [p|]; [done|].
  rewrite (get_obj_run _ _ _ Hm1), Hactive.
  destruct (active om).
  - by rewrite (on_load_run storage _ _ Hclass).
  - by rewrite logged_nil.
Qed.

End AddLayerFacts.

(** X27, witness: the detached layer of [bounded_store] added to its
    matrix, which has a policy. *)
Lemma add_layer_loads_on_an_active_matrix_witness :
  (Matrix_add_layer (fun _ => Some "disk") KObject_eq 1%positive 3%positive
     bounded_store).2
  = Raise (AttributeError "'list' object has no attribute 'metadata'").
Proof.
  exact (f_equal snd
           (add_layer_loads_on_an_active_matrix (fun _ => Some "disk")
              KObject_eq bounded_store 1%positive _ 3%positive _
              eq_refl eq_refl eq_refl eq_refl)).
Defined.
